(** * Maze: randomized carving, A* solving and the binary-heap queue

    A shallow embedding of [src/script.js] (classes [MazeGrid] and
    [PriorityQueue]) and the properties of its specification.

    Modelling conventions.
    - Coordinates, sizes and scores are JavaScript integers, modelled as [Z].
    - Arrays are lists read with [!!]; an access the source guards with
      [isValidCell] is guarded the same way here.
    - A cell key [`${row},${col}`] is modelled as the pair [(row, col)]: the
      string encoding of two integers is injective, and the source only
      compares keys and splits them back into their two numbers.
    - [Math.floor(Math.random() * n)] draws from a stream of naturals
      ([Rng]); a draw [r] yields [r mod n], an integer of [0, n), for
      [n >= 1] and [0] for [n = 0].
    - [await] points are no-ops: a call runs to completion without an
      event handler interleaving.
    - The class names set on the DOM elements are not modelled. Looking an
      element up is: [getCellElement] reads [this.cells], which has the
      shape of [this.maze], and using a missing element is a [TypeError]
      ([hasCellElement]). *)

From Stdlib Require Import ZifyNat QArith Qround.
From stdpp Require Import gmap list strings.

Local Open Scope Z_scope.

(* ================================================================== *)
(** * Definitions *)
(* ================================================================== *)

(** ** [class PriorityQueue] *)

Module PriorityQueue.
Section Queue.
Context {V : Type} `{EqDecision V}.

(** An element [{ val, priority }] of [this.values]. *)
Record Entry := mkEntry { val : V; priority : Z }.

(** [[a[i], a[j]] = [a[j], a[i]]] *)
Definition swap (vs : list Entry) (i j : nat) : list Entry :=
  match vs !! i, vs !! j with
  | Some a, Some b => <[j := a]> (<[i := b]> vs)
  | _, _ => vs
  end.

(** The loop of [bubbleUp], started at [idx]. [idx] strictly decreases,
    so [idx] rounds are enough: [fuel] is never the reason to stop
    (lemma [bubbleUpFrom_fuel]). *)
Fixpoint bubbleUpFrom (fuel : nat) (vs : list Entry) (idx : nat)
  : list Entry :=
  match fuel with
  | O => vs
  | S fuel' =>
      if (0 <? idx)%nat then
        let parentIdx := ((idx - 1) / 2)%nat in
        match vs !! parentIdx, vs !! idx with
        | Some p, Some c =>
            if priority p <=? priority c then vs
            else bubbleUpFrom fuel' (swap vs parentIdx idx) parentIdx
        | _, _ => vs
        end
      else vs
  end.

Definition bubbleUp (vs : list Entry) : list Entry :=
  bubbleUpFrom (length vs - 1) vs (length vs - 1).

Definition enqueue (v : V) (p : Z) (vs : list Entry) : list Entry :=
  bubbleUp (vs ++ [mkEntry v p]).

(** The index [sinkDown] swaps [idx] with in one round, [None] for
    [swap === null]. *)
Definition sinkChoice (vs : list Entry) (idx : nat) : option nat :=
  let left := (2 * idx + 1)%nat in
  let right := (2 * idx + 2)%nat in
  match vs !! idx with
  | None => None
  | Some cur =>
      let swap1 :=
        match vs !! left with
        | Some l => if priority l <? priority cur then Some left else None
        | None => None
        end in
      match vs !! right with
      | Some r =>
          match swap1 with
          | None => if priority r <? priority cur then Some right else None
          | Some _ =>
              match vs !! left with
              | Some l =>
                  if priority r <? priority l then Some right else swap1
              | None => swap1
              end
          end
      | None => swap1
      end
  end.

(** The loop of [sinkDown]. [idx] strictly increases and stays below the
    length, so [length vs] rounds are enough. *)
Fixpoint sinkDownFrom (fuel : nat) (vs : list Entry) (idx : nat)
  : list Entry :=
  match fuel with
  | O => vs
  | S fuel' =>
      match sinkChoice vs idx with
      | None => vs
      | Some s => sinkDownFrom fuel' (swap vs idx s) s
      end
  end.

Definition sinkDown (vs : list Entry) (idx : nat) : list Entry :=
  sinkDownFrom (length vs) vs idx.

(** [dequeue] returns [min?.val] ([None] for [undefined]) and the new
    [values]. *)
Definition dequeue (vs : list Entry) : option V * list Entry :=
  let min := vs !! 0%nat in
  let popped := removelast vs in
  let vs' :=
    match last vs with
    | Some e =>
        if (0 <? length popped)%nat then sinkDown (<[0%nat := e]> popped) 0
        else popped
    | None => popped
    end in
  (val <$> min, vs').

Definition isEmpty (vs : list Entry) : bool := (length vs =? 0)%nat.

Definition contains (v : V) (vs : list Entry) : bool :=
  existsb (fun item => bool_decide (val item = v)) vs.

(** *** Specification side *)

(** Binary min-heap order of the array layout: no entry has a smaller
    priority than its parent at [(i - 1) / 2]. *)
Definition heapOrdered (vs : list Entry) : Prop :=
  ∀ i c p, (0 < i)%nat → vs !! i = Some c →
           vs !! ((i - 1) / 2)%nat = Some p → priority p <= priority c.

(** The invariant of [bubbleUp]: the order holds everywhere except between
    [k] and its parent, and the children of [k] respect the parent of
    [k]. *)
Definition orderedButUp (vs : list Entry) (k : nat) : Prop :=
  (∀ i c p, (0 < i)%nat → i ≠ k → vs !! i = Some c →
            vs !! ((i - 1) / 2)%nat = Some p → priority p <= priority c) ∧
  (∀ i c g, (0 < k)%nat → (0 < i)%nat → ((i - 1) / 2)%nat = k →
            vs !! i = Some c → vs !! ((k - 1) / 2)%nat = Some g →
            priority g <= priority c).

(** The invariant of [sinkDown]: the order holds everywhere except between
    [k] and its children, and the children of [k] respect the parent of
    [k]. *)
Definition orderedButDown (vs : list Entry) (k : nat) : Prop :=
  (∀ i c p, (0 < i)%nat → ((i - 1) / 2)%nat ≠ k → vs !! i = Some c →
            vs !! ((i - 1) / 2)%nat = Some p → priority p <= priority c) ∧
  (∀ i c g, (0 < k)%nat → (0 < i)%nat → ((i - 1) / 2)%nat = k →
            vs !! i = Some c → vs !! ((k - 1) / 2)%nat = Some g →
            priority g <= priority c).

(** The operations a client can apply. *)
Inductive Op := Enq (v : V) (p : Z) | Deq.

Definition apply (o : Op) (vs : list Entry) : list Entry :=
  match o with
  | Enq v p => enqueue v p vs
  | Deq => snd (dequeue vs)
  end.

(** The queue after a sequence of operations on [new PriorityQueue()]. *)
Definition run (ops : list Op) : list Entry :=
  foldl (fun vs o => apply o vs) [] ops.

(** What a client gets from [n] calls of [dequeue] in a row, stopping at
    the first [undefined]. *)
Fixpoint dequeueAll (n : nat) (vs : list Entry) : list V :=
  match n with
  | O => []
  | S n' =>
      match dequeue vs with
      | (Some v, vs') => v :: dequeueAll n' vs'
      | (None, _) => []
      end
  end.

End Queue.
Global Arguments Entry V : clear implicits.
Global Arguments Op V : clear implicits.
End PriorityQueue.

(** ** Random numbers *)

(** The stream [Math.random] reads, and how far it has been read. *)
Record Rng := mkRng { source : nat → nat; position : nat }.

(** [Math.floor(Math.random() * n)] and the stream after the draw. *)
Definition randomBelow (g : Rng) (n : Z) : Z * Rng :=
  (if 0 <? n then Z.of_nat (source g (position g)) `mod` n else 0,
   mkRng (source g) (S (position g))).

(** A stream that replays [l] and then, at position [i], returns [i]. *)
Definition rngOfList (l : list nat) : Rng := mkRng (fun i => nth i l i) 0.

(** A stream that replays [prefix] and then repeats [period] for ever. *)
Definition replay (prefix period : list nat) : Rng :=
  mkRng (fun i =>
           if (i <? length prefix)%nat then nth i prefix 0%nat
           else nth ((i - length prefix) mod length period) period 0%nat)
        0.

(** ** [class MazeGrid] *)

Module MazeGrid.

(** The property names ["top"], ["right"], ["bottom"], ["left"]. *)
Inductive Direction := Top | Right | Bottom | Left.

#[global] Instance Direction_eq_dec : EqDecision Direction.
Proof. solve_decision. Defined.

(** [walls: { top, right, bottom, left }], [true] for a wall in place. *)
Record Walls := mkWalls
  { wallTop : bool; wallRight : bool; wallBottom : bool; wallLeft : bool }.

(** [walls[direction]] *)
Definition wall (w : Walls) (d : Direction) : bool :=
  match d with
  | Top => wallTop w
  | Right => wallRight w
  | Bottom => wallBottom w
  | Left => wallLeft w
  end.

(** [walls[direction] = false] *)
Definition clearWall (d : Direction) (w : Walls) : Walls :=
  match d with
  | Top => mkWalls false (wallRight w) (wallBottom w) (wallLeft w)
  | Right => mkWalls (wallTop w) false (wallBottom w) (wallLeft w)
  | Bottom => mkWalls (wallTop w) (wallRight w) false (wallLeft w)
  | Left => mkWalls (wallTop w) (wallRight w) (wallBottom w) false
  end.

Definition allWalls : Walls := mkWalls true true true true.

(** An element of [this.maze[row]]. *)
Record Cell := mkCell { visited : bool; walls : Walls; inMaze : bool }.

Definition blankCell : Cell := mkCell false allWalls false.

(** [{ row, col }] *)
Record Point := mkPoint { row : Z; col : Z }.

#[global] Instance Point_eq_dec : EqDecision Point.
Proof. solve_decision. Defined.

(** The fields of a [MazeGrid] the algorithms read or write. [end_] is
    [this.end]; [warnings] collects the messages of [console.warn]. *)
Record State := mkState {
  rows : Z;
  cols : Z;
  minDistance : Z;
  isGenerating : bool;
  isSolving : bool;
  solving : bool;
  maze : list (list Cell);
  start : option Point;
  end_ : option Point;
  warnings : list string
}.

Definition withMaze (st : State) (m : list (list Cell)) : State :=
  mkState (rows st) (cols st) (minDistance st) (isGenerating st)
    (isSolving st) (solving st) m (start st) (end_ st) (warnings st).

Definition withPoints (st : State) (s e : option Point) : State :=
  mkState (rows st) (cols st) (minDistance st) (isGenerating st)
    (isSolving st) (solving st) (maze st) s e (warnings st).

Definition warn (st : State) (msg : string) : State :=
  mkState (rows st) (cols st) (minDistance st) (isGenerating st)
    (isSolving st) (solving st) (maze st) (start st) (end_ st)
    (warnings st ++ [msg]).

(** [this.maze[row][col]]; [None] where JavaScript finds [undefined]. *)
Definition cellAt (m : list (list Cell)) (r c : Z) : option Cell :=
  if (r <? 0) || (c <? 0) then None
  else m !! Z.to_nat r ≫= fun cells => cells !! Z.to_nat c.

(** An in-place update of [this.maze[row][col]]. *)
Definition alterCell (f : Cell → Cell) (r c : Z) (m : list (list Cell))
  : list (list Cell) :=
  alter (alter f (Z.to_nat c)) (Z.to_nat r) m.

Definition isValidCell (st : State) (r c : Z) : bool :=
  (0 <=? r) && (r <? rows st) && (0 <=? c) && (c <? cols st).

(** Whether [getCellElement(row, col)] finds an element. [initializeGrid]
    fills [this.cells] alongside [this.maze] and [resetState] empties both,
    so [this.cells] has an element exactly where [this.maze] has a cell.
    Reading [classList] of a missing element is a [TypeError]. *)
Definition hasCellElement (st : State) (r c : Z) : bool :=
  match cellAt (maze st) r c with
  | Some _ => true
  | None => false
  end.

(** Whether [if (p) this.getCellElement(p.row, p.col).classList...] runs
    without a [TypeError]; [p] is [None] for [null]. *)
Definition pointHasElement (st : State) (p : option Point) : bool :=
  match p with
  | Some q => hasCellElement st (row q) (col q)
  | None => true
  end.

Definition getCellInDirection (r c : Z) (d : Direction) : Z * Z :=
  match d with
  | Top => (r - 1, c)
  | Right => (r, c + 1)
  | Bottom => (r + 1, c)
  | Left => (r, c - 1)
  end.

Definition opposite (d : Direction) : Direction :=
  match d with
  | Top => Bottom
  | Right => Left
  | Bottom => Top
  | Left => Right
  end.

Definition getManhattanDistance (row1 col1 row2 col2 : Z) : Z :=
  Z.abs (row1 - row2) + Z.abs (col1 - col2).

(** [isValidCell(r, c) && !this.maze[r][c].inMaze] *)
Definition validNotInMaze (st : State) (m : list (list Cell)) (r c : Z)
  : bool :=
  isValidCell st r c &&
  match cellAt m r c with
  | Some cell => negb (inMaze cell)
  | None => false
  end.

(** A frontier entry [[row, col, direction]]. *)
Abbreviation WallEntry := (Z * Z * Direction)%type.

Definition directions : list Direction := [Top; Right; Bottom; Left].

(** [addWalls(row, col, walls)]: the new contents of [walls]. *)
Definition addWalls (st : State) (m : list (list Cell)) (r c : Z)
    (ws : list WallEntry) : list WallEntry :=
  ws ++ omap (fun d =>
                let '(nextRow, nextCol) := getCellInDirection r c d in
                if validNotInMaze st m nextRow nextCol
                then Some (r, c, d) else None)
             directions.

Definition setNoWall (d : Direction) (cell : Cell) : Cell :=
  mkCell (visited cell) (clearWall d (walls cell)) (inMaze cell).

Definition setInMaze (cell : Cell) : Cell :=
  mkCell (visited cell) (walls cell) true.

(** [removeWall(row, col, direction)]: the new contents of [this.maze]. *)
Definition removeWall (st : State) (m : list (list Cell)) (r c : Z)
    (d : Direction) : list (list Cell) :=
  if negb (isValidCell st r c) then m
  else
    let m1 := alterCell (setNoWall d) r c m in
    let '(nextRow, nextCol) := getCellInDirection r c d in
    if isValidCell st nextRow nextCol
    then alterCell (setNoWall (opposite d)) nextRow nextCol m1
    else m1.

(** The test [row !== this.start?.row || col !== this.start?.col], negated. *)
Definition isStartCell (st : State) (r c : Z) : bool :=
  match start st with
  | Some p => (r =? row p) && (c =? col p)
  | None => false
  end.

(** The reset loop of [generateMaze]: the new contents of [this.maze]. *)
Definition resetMaze (keepStart : bool) (st : State) : list (list Cell) :=
  imap (fun r cells =>
          imap (fun c cell =>
                  if negb keepStart
                     || negb (isStartCell st (Z.of_nat r) (Z.of_nat c))
                  then blankCell else cell)
               cells)
       (maze st).

(** The frontier loop of [generateMaze]. The chunks of 20 entries only
    insert [await]s, so the loop pops entries until [walls] is empty.
    [None] when [fuel] runs out; [carveFuel] rounds are always enough
    (lemma [carve_terminates]). *)
Fixpoint carve (fuel : nat) (st : State) (m : list (list Cell))
    (ws : list WallEntry) (g : Rng) : option (list (list Cell) * Rng) :=
  match ws with
  | [] => Some (m, g)
  | _ :: _ =>
      match fuel with
      | O => None
      | S fuel' =>
          let '(randomIndex, g') := randomBelow g (Z.of_nat (length ws)) in
          match ws !! Z.to_nat randomIndex with
          | None => None
          | Some (wallRow, wallCol, direction) =>
              let ws' := delete (Z.to_nat randomIndex) ws in
              let '(nextRow, nextCol) :=
                getCellInDirection wallRow wallCol direction in
              if validNotInMaze st m nextRow nextCol then
                let m1 := removeWall st m wallRow wallCol direction in
                let m2 := alterCell setInMaze nextRow nextCol m1 in
                carve fuel' st m2 (addWalls st m2 nextRow nextCol ws') g'
              else carve fuel' st m ws' g'
          end
      end
  end.

(** Cells of the grid not yet in the maze. *)
Definition notInMazeCount (m : list (list Cell)) : nat :=
  sum_list
    (map (fun cells =>
            sum_list (map (fun c => if inMaze c then 0%nat else 1%nat) cells))
         m).

(** A carved cell adds at most four entries and every round removes one. *)
Definition carveFuel (m : list (list Cell)) (ws : list WallEntry) : nat :=
  (5 * notInMazeCount m + length ws)%nat.

(** The four corners, in the order of the source. *)
Definition corners (st : State) : list (Z * Z) :=
  [(0, 0); (0, cols st - 1); (rows st - 1, 0); (rows st - 1, cols st - 1)].

(** The fallback loop over [corners]: [from] is the point distances are
    measured from, [None] when its coordinates are [undefined]; the
    distance is then [NaN] and no comparison succeeds. *)
Definition farthestCorner (st : State) (from : option Point) : Z * Z :=
  snd (foldl (fun '(maxDistance, bestCorner) '(r, c) =>
                match from with
                | Some p =>
                    let distance := getManhattanDistance (row p) (col p) r c in
                    if maxDistance <? distance then (distance, (r, c))
                    else (maxDistance, bestCorner)
                | None => (maxDistance, bestCorner)
                end)
             (0, (0, 0)) (corners st)).

(** The sampling loop of [selectNewEndPoint]; [None] when no attempt is
    left. *)
Fixpoint sampleEnd (attempts : nat) (st : State) (s : Point) (g : Rng)
  : option Point * Rng :=
  match attempts with
  | O => (None, g)
  | S attempts' =>
      let '(endRow, g1) := randomBelow g (rows st) in
      let '(endCol, g2) := randomBelow g1 (cols st) in
      let distance := getManhattanDistance (row s) (col s) endRow endCol in
      if minDistance st <=? distance then (Some (mkPoint endRow endCol), g2)
      else sampleEnd attempts' st s g2
  end.

(** [maxAttempts] of [selectNewEndPoint]. *)
Definition selectEndAttempts : nat := 100.

(** How a call of [selectNewEndPoint] ends: with a new End, or with a
    [TypeError]; either way with the fields and the stream as they are
    then. *)
Inductive EndOutcome :=
| EndChosen (st : State) (g : Rng)
| EndThrew (st : State) (g : Rng).

(** [selectNewEndPoint()]. It throws a [TypeError] when the old End has no
    element (the first statement), when [this.start] is [null] (the first
    sample reads [this.start.row] after its two draws), and when the new
    End, already assigned, has no element. *)
Definition selectNewEndPoint (st : State) (g : Rng) : EndOutcome :=
  if negb (pointHasElement st (end_ st)) then EndThrew st g
  else
    match start st with
    | None =>
        let '(_, g1) := randomBelow g (rows st) in
        let '(_, g2) := randomBelow g1 (cols st) in
        EndThrew st g2
    | Some s =>
        let '(e, g') :=
          match sampleEnd selectEndAttempts st s g with
          | (Some e, g') => (e, g')
          | (None, g') =>
              let '(r, c) := farthestCorner st (Some s) in (mkPoint r c, g')
          end in
        let st' := withPoints st (Some s) (Some e) in
        if hasCellElement st (row e) (col e) then EndChosen st' g'
        else EndThrew st' g'
    end.

(** The local variables of [selectPoints]; a point is [None] while its two
    coordinates are [undefined]. *)
Record Best := mkBest {
  maxManhattanDistance : Z;
  bestStart : option Point;
  bestEnd : option Point
}.

(** The sampling loop of [selectPoints]. *)
Fixpoint samplePoints (attempts : nat) (st : State) (b : Best) (g : Rng)
  : Best * Rng :=
  match attempts with
  | O => (b, g)
  | S attempts' =>
      let '(startX, g1) := randomBelow g (rows st) in
      let '(startY, g2) := randomBelow g1 (cols st) in
      let '(endX, g3) := randomBelow g2 (rows st) in
      let '(endY, g4) := randomBelow g3 (cols st) in
      let manhattanDistance := Z.abs (startX - endX) + Z.abs (startY - endY) in
      let b' :=
        if (negb (startX =? endX) || negb (startY =? endY))
           && (maxManhattanDistance b <? manhattanDistance)
        then mkBest manhattanDistance (Some (mkPoint startX startY))
                    (Some (mkPoint endX endY))
        else b in
      samplePoints attempts' st b' g4
  end.

(** [maxAttempts] of [selectPoints]. *)
Definition selectPointsAttempts : nat := 1000.

(** The best pair after sampling and the corner fallback. *)
Definition choosePoints (st : State) (g : Rng)
  : option Point * option Point * Rng :=
  let '(b, g') :=
    samplePoints selectPointsAttempts st (mkBest 0 None None) g in
  if maxManhattanDistance b =? 0 then
    let '(r, c) := farthestCorner st (bestStart b) in
    (bestStart b, Some (mkPoint r c), g')
  else (bestStart b, bestEnd b, g').

(** [clearPoints()]: both points become [null]; [None] for the [TypeError]
    of a Start or an End that has no element. *)
Definition clearPoints (st : State) : option State :=
  if pointHasElement st (start st) && pointHasElement st (end_ st)
  then Some (withPoints st None None)
  else None.

(** [selectPoints()]; [None] for a [TypeError]. It throws in [clearPoints],
    and at the end when the chosen Start or End has no element: a Start with
    [undefined] coordinates makes [this.start]
    [{ row: undefined, col: undefined }], and
    [getCellElement(undefined, undefined)] finds none. *)
Definition selectPoints (st : State) (g : Rng) : option (State * Rng) :=
  match clearPoints st with
  | None => None
  | Some st0 =>
      match choosePoints st0 g with
      | (Some s, Some e, g') =>
          if hasCellElement st0 (row s) (col s)
             && hasCellElement st0 (row e) (col e)
          then Some (withPoints st0 (Some s) (Some e), g')
          else None
      | _ => None
      end
  end.

(** How a call of [generateMaze] ends. *)
Inductive GenOutcome :=
| Returned (result : bool) (st : State) (g : Rng)
    (** the promise resolves with [result]: [false] from the guard, or from
        the [catch] around [selectNewEndPoint] *)
| Rejected
    (** a [TypeError] outside the [try]: the promise rejects *)
| NeverSettles (m : list (list Cell))
    (** [selectPoints] threw inside the executor: [resolve] is never called;
        [m] is the grid as carved *)
| OutOfFuel
    (** the model's fuel ran out: never the case (lemma [carve_terminates]) *).

(** The seed cell [(startRow, startCol)]. *)
Definition seedCell (keepStart : bool) (st : State) (g : Rng) : Z * Z * Rng :=
  match keepStart, start st with
  | true, Some p => (row p, col p, g)
  | _, _ =>
      let '(r, g1) := randomBelow g ((rows st - 1) / 2) in
      let '(c, g2) := randomBelow g1 ((cols st - 1) / 2) in
      (1 + 2 * r, 1 + 2 * c, g2)
  end.

(** The grid after the reset loop and [this.maze[start.row][start.col].inMaze
    = true]; [None] for the [TypeError] of a Start outside the grid. *)
Definition prepareMaze (keepStart : bool) (st : State)
  : option (list (list Cell)) :=
  let m0 := resetMaze keepStart st in
  match keepStart, start st with
  | true, Some p =>
      if isValidCell st (row p) (col p)
      then Some (alterCell setInMaze (row p) (col p) m0)
      else None
  | _, _ => Some m0
  end.

Definition generateMaze (keepStart : bool) (st : State) (g : Rng)
  : GenOutcome :=
  if isSolving st then
    Returned false
      (warn st "Cannot generate maze while solving is in progress") g
  else
    match prepareMaze keepStart st with
    | None => Rejected
    | Some m0 =>
        let '(startRow, startCol, g1) := seedCell keepStart st g in
        let ws := addWalls st m0 startRow startCol [] in
        (* processChunk *)
        let carved :=
          if isGenerating st then
            match carve (carveFuel m0 ws) st m0 ws g1 with
            | None => None
            | Some (m1, g2) =>
                if negb keepStart then
                  Some (m1, selectPoints (withMaze st m1) g2)
                else Some (m1, Some (withMaze st m1, g2))
            end
          else Some (m0, Some (withMaze st m0, g1)) in
        match carved with
        | None => OutOfFuel
        | Some (m1, None) => NeverSettles m1
        | Some (_, Some (st1, g2)) =>
            match keepStart, start st1 with
            | true, Some _ =>
                match selectNewEndPoint st1 g2 with
                | EndChosen st2 g3 => Returned true st2 g3
                | EndThrew st2 g3 => Returned false st2 g3
                end
            | _, _ => Returned true st1 g2
            end
        end
    end.

(** [this.start = { ...this.end }] of [startInfiniteMaze], taken when both
    points are set. *)
Definition advanceStart (st : State) : State :=
  match end_ st, start st with
  | Some e, Some _ => withPoints st (Some e) (end_ st)
  | _, _ => st
  end.

(** ** Setting up: the constructor and [initializeGrid] *)

(** [this.cellSize] of the constructor, from [mazeDifficulty]. *)
Definition cellSizeOf (mazeDifficulty : Z) : Z :=
  Z.max 20 (60 - mazeDifficulty * 4).

(** [this.minDistance] of the constructor; [Math.floor(d * 2.5)] is the
    quotient of [d * 5] by 2. *)
Definition minDistanceOf (mazeDifficulty : Z) : Z :=
  Z.max 10 (mazeDifficulty * 5 / 2).

(** The number of cells [initializeGrid] puts along a side of [px] pixels:
    [Math.floor(px / this.cellSize)], less one when that is even. *)
Definition oddCells (px : Q) (cellSize : Z) : Z :=
  let n := Qfloor (px / inject_Z cellSize) in
  if Z.rem n 2 =? 0 then n - 1 else n.

(** The fields as [initializeGrid] leaves them when it hands over to
    [startInfiniteMaze]; [gridWidth] and [gridHeight] are the sizes of the
    container. *)
Definition initializeGrid (cellSize : Z) (gridWidth gridHeight : Q)
    (st : State) : State :=
  let cols := oddCells gridWidth cellSize in
  let rows := oddCells gridHeight cellSize in
  mkState rows cols (minDistance st) false false (solving st)
    (replicate (Z.to_nat rows) (replicate (Z.to_nat cols) blankCell))
    (start st) (end_ st) (warnings st).



(** ** The A* solver *)

(** A key [`${row},${col}`]. *)
Abbreviation Key := (Z * Z)%type.

(** The local state of [solveMaze]. *)
Record Search := mkSearch {
  openSet : list (PriorityQueue.Entry Key);
  closedSet : gset Key;
  cameFrom : gmap Key Key;
  gScore : gmap Key Z;
  fScore : gmap Key Z
}.

(** [getValidNeighbors(row, col)]; [None] for the [TypeError] of reading
    [walls] from a missing cell. *)
Definition getValidNeighbors (st : State) (r c : Z) : option (list Key) :=
  match cellAt (maze st) r c with
  | None => None
  | Some cell =>
      let w := walls cell in
      Some ((if negb (wallTop w) && (0 <? r) then [(r - 1, c)] else [])
         ++ (if negb (wallRight w) && (c <? cols st - 1) then [(r, c + 1)]
             else [])
         ++ (if negb (wallBottom w) && (r <? rows st - 1) then [(r + 1, c)]
             else [])
         ++ (if negb (wallLeft w) && (0 <? c) then [(r, c - 1)] else []))
  end.

(** [heuristic(row, col)], with [this.end] at [e]. *)
Definition heuristic (e : Point) (r c : Z) : Z :=
  getManhattanDistance r c (row e) (col e).

(** The loop of [reconstructPath]; [None] when [fuel] runs out, which is
    when the chain of [cameFrom] runs into a cycle. *)
Fixpoint reconstructFrom (fuel : nat) (cf : gmap Key Key) (currentKey : Key)
    (path : list Key) : option (list Key) :=
  match cf !! currentKey with
  | None => Some path
  | Some prev =>
      match fuel with
      | O => None
      | S fuel' => reconstructFrom fuel' cf prev (prev :: path)
      end
  end.

(** The [path] of [reconstructPath(cameFrom, currentKey)]. A chain of more
    than [size cameFrom] steps repeats a key and never ends. *)
Definition reconstructPath (cf : gmap Key Key) (currentKey : Key)
  : option (list Key) :=
  reconstructFrom (size cf) cf currentKey [currentKey].

(** One round of the loop over the neighbours of [currentKey]; [None] when
    [gScore.get(currentKey)] is [undefined] (the score would be [NaN]). *)
Definition relax (e : Point) (currentKey : Key) (s : Search)
    (neighborKey : Key) : option Search :=
  if decide (neighborKey ∈ closedSet s) then Some s
  else
    match gScore s !! currentKey with
    | None => None
    | Some g =>
        let tentativeG := g + 1 in
        if match gScore s !! neighborKey with
           | None => true
           | Some gn => tentativeG <? gn
           end
        then
          let f := tentativeG + heuristic e neighborKey.1 neighborKey.2 in
          Some (mkSearch
                  (if PriorityQueue.contains neighborKey (openSet s)
                   then openSet s
                   else PriorityQueue.enqueue neighborKey f (openSet s))
                  (closedSet s)
                  (<[neighborKey := currentKey]> (cameFrom s))
                  (<[neighborKey := tentativeG]> (gScore s))
                  (<[neighborKey := f]> (fScore s)))
        else Some s
    end.

Fixpoint relaxAll (e : Point) (currentKey : Key) (s : Search)
    (neighbors : list Key) : option Search :=
  match neighbors with
  | [] => Some s
  | n :: neighbors' =>
      match relax e currentKey s n with
      | None => None
      | Some s' => relaxAll e currentKey s' neighbors'
      end
  end.

(** Why the main loop of [solveMaze] stopped. *)
Inductive Stop := ReachedEnd | OpenSetEmpty | CapReached.

(** What [solveMaze] computed: the value it returns, the [path] of
    [reconstructPath] (empty when it was not called), the number of
    [dequeue] calls and why the loop stopped. *)
Record Solved := mkSolved {
  found : bool;
  path : list Key;
  dequeues : nat;
  stop : Stop
}.

(** The main loop of [solveMaze]. [remaining] is
    [maxIterations - iterations]; [None] for a [TypeError] ([dequeue]
    returned [undefined], or a cell is missing), a [NaN] score or a
    [reconstructPath] that does not end. *)
Fixpoint solveLoop (remaining : nat) (st : State) (e : Point) (s : Search)
    (count : nat) : option Solved :=
  if PriorityQueue.isEmpty (openSet s) then
    Some (mkSolved false [] count OpenSetEmpty)
  else
    match remaining with
    | O => Some (mkSolved false [] count CapReached)
    | S remaining' =>
        match PriorityQueue.dequeue (openSet s) with
        | (None, _) => None
        | (Some currentKey, open') =>
            if decide (currentKey = (row e, col e)) then
              match reconstructPath (cameFrom s) currentKey with
              | Some p => Some (mkSolved true p (S count) ReachedEnd)
              | None => None
              end
            else
              let s1 := mkSearch open' ({[currentKey]} ∪ closedSet s)
                          (cameFrom s) (gScore s) (fScore s) in
              match getValidNeighbors st currentKey.1 currentKey.2 with
              | None => None
              | Some neighbors =>
                  match relaxAll e currentKey s1 neighbors with
                  | None => None
                  | Some s2 => solveLoop remaining' st e s2 (S count)
                  end
              end
        end
    end.

(** How a call of [solveMaze] ends. *)
Inductive SolveOutcome :=
| SolveSkipped              (** [if (this.solving) return;] *)
| SolveReturned (r : Solved)  (** [this.solving] is [false] again *)
| SolveThrew.

Definition solveMaze (st : State) : SolveOutcome :=
  if solving st then SolveSkipped
  else
    match start st, end_ st with
    | Some s, Some e =>
        let startKey := (row s, col s) in
        let s0 :=
          mkSearch (PriorityQueue.enqueue startKey 0 [])
                   ∅ ∅ {[startKey := 0]}
                   {[startKey := heuristic e (row s) (col s)]} in
        match solveLoop (Z.to_nat (rows st * cols st)) st e s0 0 with
        | Some r => SolveReturned r
        | None => SolveThrew
        end
    | _, _ => SolveThrew
    end.

(** ** The loop of [startInfiniteMaze] *)



(** ** Specification side *)

(** [m] has [rows] rows of [cols] cells, as [initializeGrid] allocates. *)
Definition wfMaze (st : State) (m : list (list Cell)) : Prop :=
  length m = Z.to_nat (rows st) ∧
  Forall (fun cells => length cells = Z.to_nat (cols st)) m.

(** A grid as [initializeGrid] leaves it: odd sizes, at least one cell. *)
Definition wfGrid (st : State) : Prop :=
  1 <= rows st ∧ 1 <= cols st ∧
  Z.odd (rows st) = true ∧ Z.odd (cols st) = true ∧
  wfMaze st (maze st).

(** Wall symmetry between the cell at [(r, c)] and its neighbour on side
    [d]: both flags of the shared wall agree. Pairs with a cell outside the
    grid hold trivially. *)
Definition wallAgrees (m : list (list Cell)) (r c : Z) (d : Direction)
  : Prop :=
  let '(r', c') := getCellInDirection r c d in
  ∀ a b, cellAt m r c = Some a → cellAt m r' c' = Some b →
         wall (walls a) d = wall (walls b) (opposite d).

Definition wallSymmetric (m : list (list Cell)) : Prop :=
  ∀ r c d, wallAgrees m r c d.

(** One successful round of the frontier loop of [carve], as a function of
    the grid. *)
Definition carveStep (st : State) (m : list (list Cell)) (wr wc : Z)
    (d : Direction) : list (list Cell) :=
  let '(nr, nc) := getCellInDirection wr wc d in
  alterCell setInMaze nr nc (removeWall st m wr wc d).

(** The grid a call of [generateMaze] leaves behind. *)
Definition outcomeMaze (o : GenOutcome) : option (list (list Cell)) :=
  match o with
  | Returned _ st _ => Some (maze st)
  | NeverSettles m => Some m
  | Rejected | OutOfFuel => None
  end.

(** The cells of the grid, row by row. *)
Definition allCells (st : State) : list Key :=
  r ← seqZ 0 (rows st); c ← seqZ 0 (cols st); [(r, c)].

(** The walls between two cells of the grid, each named once: by its upper
    or left cell and the side [Bottom] or [Right]. *)
Definition innerWalls (st : State) : list WallEntry :=
  k ← allCells st; d ← [Right; Bottom];
  let '(r', c') := getCellInDirection k.1 k.2 d in
  if isValidCell st r' c' then [(k.1, k.2, d)] else [].

(** The wall on side [d] of the cell at [(r, c)] has been removed. *)
Definition wallRemoved (m : list (list Cell)) (w : WallEntry) : bool :=
  match cellAt m w.1.1 w.1.2 with
  | Some cell => negb (wall (walls cell) w.2)
  | None => false
  end.

(** The number of removed walls between cells of the grid. *)
Definition removedWalls (st : State) : nat :=
  length (filter (fun w => wallRemoved (maze st) w = true) (innerWalls st)).

(** The solver may step from [a] to [b]: [b] is one of
    [getValidNeighbors(a)]. *)
Definition passage (st : State) (a b : Key) : Prop :=
  ∃ l, getValidNeighbors st a.1 a.2 = Some l ∧ b ∈ l.

(** A walk through the corridors: each cell is a passage away from the
    one before. *)
Inductive walk (st : State) : list Key → Prop :=
| walk_one a : walk st [a]
| walk_cons a b l : passage st a b → walk st (b :: l) → walk st (a :: b :: l).

(** A path from [a] to [b] that visits no cell twice. *)
Definition simplePath (st : State) (a b : Key) (l : list Key) : Prop :=
  head l = Some a ∧ last l = Some b ∧ walk st l ∧ NoDup l.

(** A cycle of the corridor graph: at least three different cells, each a
    passage away from the next and the last from the first. *)
Definition cycle (st : State) (l : list Key) : Prop :=
  (3 ≤ length l)%nat ∧ NoDup l ∧ walk st l ∧
  ∃ a b, head l = Some a ∧ last l = Some b ∧ passage st b a.

(** A perfect maze: every cell is reached from every cell, and the
    corridors have no cycle. *)
Definition perfectMaze (st : State) : Prop :=
  (∀ a b, a ∈ allCells st → b ∈ allCells st → ∃ l, simplePath st a b l) ∧
  (∀ l, ¬ cycle st l).

(** A blank [r] by [c] grid with [isGenerating] set, as [startInfiniteMaze]
    hands it to [generateMaze]; [minDistance] is the default 12. *)
Definition blankGrid (r c : Z) : State :=
  mkState r c 12 true false false
    (replicate (Z.to_nat r) (replicate (Z.to_nat c) blankCell))
    None None [].

(** The cell [b] can be reached from [a] through the corridors. *)
Definition reachable (st : State) (a b : Key) : Prop :=
  ∃ l, head l = Some a ∧ last l = Some b ∧ walk st l.

(** The keys waiting in the open set. *)
Definition keys (vs : list (PriorityQueue.Entry Key)) : list Key :=
  map PriorityQueue.val vs.

(** What holds of the maps and the open set of [solveMaze] whenever its
    main loop or its neighbour loop is about to run a round; [sk] is the
    key of Start and [e] is End. *)
Record core (st : State) (e : Point) (sk : Key) (s : Search) : Prop :=
  mkCore {
  core_nodup : NoDup (keys (openSet s));
  core_open_not_closed : ∀ k, k ∈ keys (openSet s) → k ∉ closedSet s;
  core_known :
    ∀ k, is_Some (gScore s !! k) ↔ k ∈ closedSet s ∨ k ∈ keys (openSet s);
  core_valid : ∀ k, is_Some (gScore s !! k) → reachable st sk k;
  core_end_open : (row e, col e) ∉ closedSet s;
  core_start : gScore s !! sk = Some 0;
  core_from :
    ∀ k p, cameFrom s !! k = Some p →
           p ∈ closedSet s ∧ passage st p k ∧
           ∃ g, gScore s !! p = Some g ∧ gScore s !! k = Some (g + 1);
  core_from_start : cameFrom s !! sk = None;
  core_from_known :
    ∀ k, is_Some (gScore s !! k) → k ≠ sk → is_Some (cameFrom s !! k);
  core_score :
    ∀ k g, gScore s !! k = Some g → 0 <= g <= Z.of_nat (size (cameFrom s))
}.

(** The invariant at the head of the main loop: every neighbour of a closed
    cell is closed or waiting, Start is closed or is all that waits, and
    [count] closed cells have been dequeued. *)
Definition loopInv (st : State) (e : Point) (sk : Key) (s : Search)
    (count : nat) : Prop :=
  core st e sk s ∧
  (∀ k n, k ∈ closedSet s → passage st k n →
          n ∈ closedSet s ∨ n ∈ keys (openSet s)) ∧
  (sk ∈ closedSet s ∨ keys (openSet s) = [sk]) ∧
  count = size (closedSet s).

(** A fully carved maze: between every two cells of the grid there is
    exactly one simple path through the corridors. *)
Definition spanningTree (st : State) : Prop :=
  ∀ a b, a ∈ allCells st → b ∈ allCells st →
         (∃ l, simplePath st a b l) ∧
         (∀ l1 l2, simplePath st a b l1 → simplePath st a b l2 → l1 = l2).

(** The number of steps [d] of a simple path from [a] to [b]; in a
    spanning tree there is one such [d]. *)
Definition treeDistance (st : State) (a b : Key) (d : nat) : Prop :=
  ∃ l, simplePath st a b l ∧ length l = S d.

(** [getValidNeighbors], with no neighbour where it throws. *)
Definition neighborsOf (st : State) (k : Key) : list Key :=
  default [] (getValidNeighbors st k.1 k.2).

(** The simple paths that start at [cur], avoid [seen] and take at most
    [fuel] steps. *)
Fixpoint pathsFrom (fuel : nat) (st : State) (seen : list Key) (cur : Key)
  : list (list Key) :=
  [cur] ::
  match fuel with
  | O => []
  | S fuel' =>
      n ← neighborsOf st cur;
      if bool_decide (n ∈ cur :: seen) then []
      else cons cur <$> pathsFrom fuel' st (cur :: seen) n
  end.

(** Where the simple paths from [a] end. *)
Definition pathEnds (st : State) (a : Key) : list Key :=
  (fun l => default a (last l)) <$> pathsFrom (length (allCells st)) st [] a.

(** A check of [spanningTree]: from every cell, the simple paths end in
    different cells and one of them ends in each cell of the grid. *)
Definition spanningTreeb (st : State) : bool :=
  forallb (fun a =>
             bool_decide (NoDup (pathEnds st a)) &&
             forallb (fun b => bool_decide (b ∈ pathEnds st a)) (allCells st))
          (allCells st).

(** A stream whose every group of four draws is 0, 0, 0, 1. *)
Definition adjacentRng : Rng :=
  mkRng (fun i => if (i mod 4 =? 3)%nat then 1%nat else 0%nat) 0.

(** The cell [k] of the grid [m] is in the maze. *)
Definition carved (m : list (list Cell)) (k : Key) : Prop :=
  ∃ cell, cellAt m k.1 k.2 = Some cell ∧ inMaze cell = true.

(** What holds of the grid and of the frontier whenever the loop of [carve]
    is about to run a round; [seed] is the cell the frontier started from.
    The frontier holds every side of a cell in the maze, or of the seed,
    that leads to a cell of the grid not yet in the maze; its entries start
    at such cells; and every cell in the maze is reached from the seed. *)
Definition frontierInv (st : State) (seed : Key) (m : list (list Cell))
    (ws : list WallEntry) : Prop :=
  wfMaze st m ∧
  (∀ a d, carved m a ∨ a = seed →
          validNotInMaze st m (getCellInDirection a.1 a.2 d).1
                              (getCellInDirection a.1 a.2 d).2 = true →
          (a.1, a.2, d) ∈ ws) ∧
  (∀ w, w ∈ ws → carved m (w.1.1, w.1.2) ∨ (w.1.1, w.1.2) = seed) ∧
  (∀ k, carved m k → reachable (withMaze st m) seed k).

(** What holds of the best pair of [selectPoints] after any number of
    samples: nothing has won yet, or the best pair is two different cells
    of the grid, [maxManhattanDistance] apart. *)
Definition bestOk (st : State) (b : Best) : Prop :=
  (maxManhattanDistance b = 0 ∧ bestStart b = None ∧ bestEnd b = None) ∨
  (0 < maxManhattanDistance b ∧
   ∃ s e, bestStart b = Some s ∧ bestEnd b = Some e ∧
          isValidCell st (row s) (col s) = true ∧
          isValidCell st (row e) (col e) = true ∧
          maxManhattanDistance b =
            getManhattanDistance (row s) (col s) (row e) (col e)).

End MazeGrid.

(* ================================================================== *)
(** * Properties *)
(* ================================================================== *)

Section QueueFacts.
Import PriorityQueue.
Context {V : Type} `{EqDecision V}.
Implicit Types (vs : list (Entry V)) (i j idx : nat).

Lemma delete_insert_same vs i (b : Entry V) :
  delete i (<[i := b]> vs) = delete i vs.
Proof.
  revert i. induction vs as [|x vs IH]; intros [|i]; simpl; try done.
  by rewrite IH.
Qed.

Lemma insert_Permutation vs i (a b : Entry V) :
  vs !! i = Some a → a :: <[i := b]> vs ≡ₚ b :: vs.
Proof.
  intros Hi.
  assert (Hlt : (i < length vs)%nat) by (eapply lookup_lt_Some; eauto).
  pose proof (delete_Permutation vs i a Hi) as H1.
  pose proof (delete_Permutation (<[i := b]> vs) i b
                (list_lookup_insert_eq vs i b Hlt)) as H2.
  rewrite delete_insert_same in H2.
  etrans; [apply perm_skip, H2|].
  etrans; [apply perm_swap|]. apply perm_skip. by symmetry.
Qed.

Lemma swap_Permutation vs i j : swap vs i j ≡ₚ vs.
Proof.
  unfold swap.
  destruct (vs !! i) as [a|] eqn:Hi; [|done].
  destruct (vs !! j) as [b|] eqn:Hj; [|done].
  destruct (decide (i = j)) as [->|Hne].
  - assert (a = b) by congruence. subst.
    rewrite list_insert_insert_eq. by rewrite list_insert_id.
  - apply (Permutation_cons_inv (a := b)).
    etrans; [apply (insert_Permutation (<[i := b]> vs) j b a);
             by rewrite list_lookup_insert_ne|].
    etrans; [by apply insert_Permutation|]. done.
Qed.

Lemma swap_length vs i j : length (swap vs i j) = length vs.
Proof. apply Permutation_length, swap_Permutation. Qed.

Lemma swap_lookup vs i j a b k :
  vs !! i = Some a → vs !! j = Some b →
  swap vs i j !! k =
    if decide (k = j) then Some a
    else if decide (k = i) then Some b else vs !! k.
Proof.
  intros Hi Hj. unfold swap. rewrite Hi, Hj.
  assert ((i < length vs)%nat ∧ (j < length vs)%nat) as [Hli Hlj]
    by (split; eapply lookup_lt_Some; eauto).
  destruct (decide (k = j)) as [->|Hkj].
  - apply list_lookup_insert_eq. by rewrite length_insert.
  - rewrite list_lookup_insert_ne by done.
    destruct (decide (k = i)) as [->|Hki].
    + by apply list_lookup_insert_eq.
    + by rewrite list_lookup_insert_ne.
Qed.

(** *** The root of a heap is minimal *)

Lemma heapOrdered_root vs m :
  heapOrdered vs → vs !! 0%nat = Some m →
  ∀ i c, vs !! i = Some c → priority m <= priority c.
Proof.
  intros Hh H0 i. induction (lt_wf i) as [i _ IH]. intros c Hc.
  destruct (decide (i = 0%nat)) as [->|Hi].
  - assert (m = c) by congruence. subst. lia.
  - assert (Hp : ((i - 1) / 2 < i)%nat) by lia.
    destruct (vs !! ((i - 1) / 2)%nat) as [p|] eqn:Hpar.
    + specialize (IH _ Hp _ Hpar).
      specialize (Hh i c p ltac:(lia) Hc Hpar). lia.
    + apply lookup_ge_None in Hpar. apply lookup_lt_Some in Hc. lia.
Qed.

Lemma heapOrdered_nil : heapOrdered (V := V) [].
Proof. intros i c p _ Hc. by rewrite lookup_nil in Hc. Qed.

Lemma heapOrdered_prefix vs e : heapOrdered (vs ++ [e]) → heapOrdered vs.
Proof.
  intros Hh i c p Hi Hc Hp.
  apply (Hh i c p Hi); by apply lookup_app_l_Some.
Qed.

(** *** [bubbleUp] restores the order broken at one index *)

Lemma bubbleUpFrom_heapOrdered fuel vs k :
  (k ≤ fuel)%nat → orderedButUp vs k → heapOrdered (bubbleUpFrom fuel vs k).
Proof.
  revert vs k. induction fuel as [|fuel IH]; intros vs k Hk [H1 H2].
  - intros i c p Hi. apply H1; [done|lia].
  - cbn [bubbleUpFrom]. destruct (0 <? k)%nat eqn:Hk0.
    2:{ apply Nat.ltb_ge in Hk0. intros i c p Hi. apply H1; [done|lia]. }
    apply Nat.ltb_lt in Hk0.
    set (par := ((k - 1) / 2)%nat).
    assert (Hpar : (par < k)%nat) by (subst par; lia).
    destruct (vs !! par) as [ep|] eqn:Hep.
    2:{ intros i c p Hi Hc Hp. destruct (decide (i = k)) as [->|Hne].
        - fold par in Hp. congruence.
        - by apply (H1 i c p). }
    destruct (vs !! k) as [ek|] eqn:Hek.
    2:{ intros i c p Hi Hc Hp. destruct (decide (i = k)) as [->|Hne].
        - congruence.
        - by apply (H1 i c p). }
    destruct (priority ep <=? priority ek) eqn:Hle.
    { apply Z.leb_le in Hle. intros i c p Hi Hc Hp.
      destruct (decide (i = k)) as [->|Hne].
      - fold par in Hp. simplify_eq. lia.
      - by apply (H1 i c p). }
    apply Z.leb_gt in Hle.
    apply IH; [lia|]. split.
    + intros i c p Hi Hne Hc Hp.
      rewrite (swap_lookup vs par k ep ek) in Hc, Hp by done.
      destruct (decide (i = k)) as [->|Hik].
      { fold par in Hp. rewrite decide_False in Hp by lia.
        rewrite decide_True in Hp by done. simplify_eq. lia. }
      rewrite !decide_False in Hc by done.
      destruct (decide (((i - 1) / 2)%nat = k)) as [Hpk|Hpk].
      { cbv beta iota in Hp. simplify_eq.
        eapply (H2 i c p); eauto. }
      cbv beta iota in Hp.
      destruct (decide (((i - 1) / 2)%nat = par)) as [Hpp|Hpp];
        cbv beta iota in Hp.
      { simplify_eq.
        assert (priority ep <= priority c); [|lia].
        apply (H1 i c ep); auto. by rewrite Hpp. }
      by apply (H1 i c p).
    + intros i c g Hp0 Hi Hpi Hc Hg.
      rewrite (swap_lookup vs par k ep ek) in Hc, Hg by done.
      rewrite decide_False in Hg by lia.
      rewrite decide_False in Hg by lia.
      assert (priority g <= priority ep) as Hgp
        by (apply (H1 par ep g); auto; lia).
      destruct (decide (i = k)) as [->|Hik]; cbv beta iota in Hc.
      { simplify_eq. done. }
      rewrite decide_False in Hc by lia.
      assert (priority ep <= priority c); [|lia].
      apply (H1 i c ep); auto. by rewrite Hpi.
Qed.

Lemma bubbleUpFrom_Permutation fuel vs k : bubbleUpFrom fuel vs k ≡ₚ vs.
Proof.
  revert vs k. induction fuel as [|fuel IH]; intros vs k; cbn [bubbleUpFrom]; [done|].
  repeat case_match; try done.
  etrans; [apply IH|apply swap_Permutation].
Qed.

(** More fuel than [idx] changes nothing: the fuel of [bubbleUp] never
    stops the loop early. *)
Lemma bubbleUpFrom_fuel fuel fuel' vs idx :
  (idx ≤ fuel)%nat → (idx ≤ fuel')%nat →
  bubbleUpFrom fuel vs idx = bubbleUpFrom fuel' vs idx.
Proof.
  revert fuel' vs idx.
  induction fuel as [|fuel IH]; intros fuel' vs idx Hle Hle'.
  - replace idx with 0%nat by lia. by destruct fuel'.
  - destruct fuel' as [|fuel'].
    { by replace idx with 0%nat by lia. }
    cbn [bubbleUpFrom]. repeat case_match; try done.
    apply Nat.ltb_lt in H. apply IH; lia.
Qed.

Lemma enqueue_heapOrdered v p vs :
  heapOrdered vs → heapOrdered (enqueue v p vs).
Proof.
  intros Hh. unfold enqueue, bubbleUp.
  apply bubbleUpFrom_heapOrdered; [done|].
  rewrite length_app. simpl.
  replace (length vs + 1 - 1)%nat with (length vs) by lia.
  split.
  - intros i c q Hi Hne Hc Hq.
    assert (i < length vs)%nat.
    { apply lookup_lt_Some in Hc. rewrite length_app in Hc. simpl in Hc. lia. }
    rewrite lookup_app_l in Hc, Hq by lia. by apply (Hh i c q).
  - intros i c g _ Hi Hpi Hc _.
    apply lookup_lt_Some in Hc. rewrite length_app in Hc. simpl in Hc. lia.
Qed.

Lemma enqueue_Permutation v p vs : enqueue v p vs ≡ₚ mkEntry v p :: vs.
Proof.
  unfold enqueue, bubbleUp. etrans; [apply bubbleUpFrom_Permutation|].
  symmetry. apply Permutation_cons_append.
Qed.

(** *** [sinkDown] restores the order broken below one index *)

Lemma sinkChoice_None vs k cur :
  sinkChoice vs k = None → vs !! k = Some cur →
  ∀ i c, (0 < i)%nat → ((i - 1) / 2)%nat = k → vs !! i = Some c →
         priority cur <= priority c.
Proof.
  unfold sinkChoice. intros Hs Hk i c Hi Hpar Hc. rewrite Hk in Hs.
  assert (i = (2 * k + 1)%nat ∨ i = (2 * k + 2)%nat) as [->| ->] by lia.
  - rewrite Hc in Hs.
    destruct (priority c <? priority cur) eqn:Hlt; [|lia].
    repeat case_match; simplify_eq.
  - rewrite Hc in Hs.
    destruct (vs !! (2 * k + 1)%nat) as [l|] eqn:Hl.
    + destruct (priority l <? priority cur) eqn:Hlt.
      * repeat case_match; simplify_eq.
      * destruct (priority c <? priority cur) eqn:Hlt'; [done|lia].
    + destruct (priority c <? priority cur) eqn:Hlt'; [done|lia].
Qed.

Lemma sinkChoice_Some vs k s :
  sinkChoice vs k = Some s →
  ∃ cur es, vs !! k = Some cur ∧ vs !! s = Some es ∧
            (0 < s)%nat ∧ ((s - 1) / 2)%nat = k ∧
            priority es < priority cur ∧
            ∀ i c, (0 < i)%nat → ((i - 1) / 2)%nat = k →
                   vs !! i = Some c → priority es <= priority c.
Proof.
  unfold sinkChoice. intros Hs.
  destruct (vs !! k) as [cur|] eqn:Hk; [|done].
  exists cur.
  assert (Hkids : ∀ i, (0 < i)%nat → ((i - 1) / 2)%nat = k →
                       i = (2 * k + 1)%nat ∨ i = (2 * k + 2)%nat) by lia.
  destruct (vs !! (2 * k + 1)%nat) as [l|] eqn:Hl.
  2:{ (* no left child, hence no right child *)
      destruct (vs !! (2 * k + 2)%nat) as [r|] eqn:Hr; [|done].
      apply lookup_ge_None in Hl. apply lookup_lt_Some in Hr. lia. }
  destruct (vs !! (2 * k + 2)%nat) as [r|] eqn:Hr.
  - destruct (priority l <? priority cur) eqn:Hlc.
    + destruct (priority r <? priority l) eqn:Hrl; simplify_eq.
      * exists r. repeat split; try done; try lia.
        intros i c Hi Hp Hc. destruct (Hkids i Hi Hp); simplify_eq; lia.
      * exists l. repeat split; try done; try lia.
        intros i c Hi Hp Hc. destruct (Hkids i Hi Hp); simplify_eq; lia.
    + destruct (priority r <? priority cur) eqn:Hrc; simplify_eq.
      exists r. repeat split; try done; try lia.
      intros i c Hi Hp Hc. destruct (Hkids i Hi Hp); simplify_eq; lia.
  - destruct (priority l <? priority cur) eqn:Hlc; simplify_eq.
    exists l. repeat split; try done; try lia.
    intros i c Hi Hp Hc. destruct (Hkids i Hi Hp); simplify_eq; lia.
Qed.

Lemma sinkDownFrom_heapOrdered fuel vs k :
  (length vs ≤ fuel + k)%nat → orderedButDown vs k →
  heapOrdered (sinkDownFrom fuel vs k).
Proof.
  revert vs k. induction fuel as [|fuel IH]; intros vs k Hlen [H1 H2].
  - cbn [sinkDownFrom]. intros i c p Hi Hc Hp. apply (H1 i c p); try done.
    intros <-. apply lookup_lt_Some in Hp. lia.
  - cbn [sinkDownFrom]. destruct (sinkChoice vs k) as [s|] eqn:Hs.
    2:{ intros i c p Hi Hc Hp.
        destruct (decide (((i - 1) / 2)%nat = k)) as [Hpk|Hpk].
        - rewrite Hpk in Hp. by apply (sinkChoice_None vs k p Hs Hp i c).
        - by apply (H1 i c p). }
    destruct (sinkChoice_Some vs k s Hs)
      as (cur & es & Hk & Hes & Hs0 & Hpar & Hlt & Hmin).
    assert (k < s)%nat by lia.
    apply IH; [rewrite swap_length; lia|]. split.
    + intros i c p Hi Hne Hc Hp.
      rewrite (swap_lookup vs k s cur es) in Hc, Hp by done.
      destruct (decide (i = s)) as [->|His]; cbv beta iota in Hc.
      { rewrite Hpar in Hp. rewrite decide_False, decide_True in Hp by lia.
        simplify_eq. lia. }
      rewrite (decide_False (P := ((i - 1) / 2)%nat = s)) in Hp by done.
      destruct (decide (i = k)) as [->|Hik]; cbv beta iota in Hc.
      { rewrite decide_False in Hp by lia. simplify_eq.
        apply (H2 s c p); auto; lia. }
      destruct (decide (((i - 1) / 2)%nat = k)) as [Hpk|Hpk];
        cbv beta iota in Hp.
      { simplify_eq. by apply (Hmin i c). }
      by apply (H1 i c p).
    + intros i c g _ Hi Hpi Hc Hg.
      rewrite (swap_lookup vs k s cur es) in Hc, Hg by done.
      rewrite Hpar in Hg.
      rewrite decide_False, decide_True in Hg by lia.
      rewrite !decide_False in Hc by lia. simplify_eq.
      apply (H1 i c g); auto; lia.
Qed.

Lemma sinkDownFrom_Permutation fuel vs k : sinkDownFrom fuel vs k ≡ₚ vs.
Proof.
  revert vs k. induction fuel as [|fuel IH]; intros vs k;
    cbn [sinkDownFrom]; [done|].
  case_match; [|done]. etrans; [apply IH|apply swap_Permutation].
Qed.

(** [sinkDown] is not stopped by its fuel: with [length vs] rounds the
    index has left the array, and any further round changes nothing. *)
Lemma sinkDownFrom_fuel fuel fuel' vs idx :
  (length vs ≤ fuel + idx)%nat → (length vs ≤ fuel' + idx)%nat →
  sinkDownFrom fuel vs idx = sinkDownFrom fuel' vs idx.
Proof.
  revert fuel' vs idx.
  induction fuel as [|fuel IH]; intros fuel' vs idx Hle Hle'.
  - destruct fuel' as [|fuel']; [done|]. cbn [sinkDownFrom].
    unfold sinkChoice. rewrite (lookup_ge_None_2 vs idx) by lia. done.
  - destruct fuel' as [|fuel']; cbn [sinkDownFrom].
    { unfold sinkChoice. rewrite (lookup_ge_None_2 vs idx) by lia. done. }
    destruct (sinkChoice vs idx) as [s|] eqn:Hs; [|done].
    destruct (sinkChoice_Some vs idx s Hs) as (? & ? & ? & ? & ? & ? & ? & ?).
    apply IH; rewrite swap_length; lia.
Qed.

(** *** [dequeue] *)

Lemma dequeue_nil : dequeue (V := V) [] = (None, []).
Proof. reflexivity. Qed.

Lemma dequeue_cons m vs :
  ∃ vs', dequeue (m :: vs) = (Some (val m), vs') ∧ vs' ≡ₚ vs ∧
         (heapOrdered (m :: vs) → heapOrdered vs').
Proof.
  unfold dequeue. cbn [lookup list_lookup fmap option_fmap option_map].
  destruct (last (m :: vs)) as [e|] eqn:Hlast.
  2:{ by apply last_None in Hlast. }
  apply last_Some in Hlast as [l Hl]. rewrite Hl, removelast_last.
  destruct l as [|m' l]; simpl in Hl; simplify_eq.
  - simpl. eexists; split; [done|]. split; [done|].
    intros _. apply heapOrdered_nil.
  - cbn [length Nat.ltb Nat.leb].
    eexists; split; [done|]. split.
    + unfold sinkDown. etrans; [apply sinkDownFrom_Permutation|].
      simpl. apply Permutation_cons_append.
    + intros Hh. apply heapOrdered_prefix in Hh.
      apply sinkDownFrom_heapOrdered; [lia|]. split; [|lia].
      intros i c p Hi Hpar Hc Hp.
      assert (i ≠ 0%nat) by lia.
      rewrite list_lookup_insert_ne in Hc, Hp by lia.
      by apply (Hh i c p).
Qed.

Lemma apply_heapOrdered o vs : heapOrdered vs → heapOrdered (apply o vs).
Proof.
  intros Hh. destruct o as [v p|]; cbn [apply].
  - by apply enqueue_heapOrdered.
  - destruct vs as [|m vs]; [apply heapOrdered_nil|].
    destruct (dequeue_cons m vs) as (vs' & -> & _ & Hh'). by apply Hh'.
Qed.

Lemma foldl_apply_heapOrdered ops vs :
  heapOrdered vs → heapOrdered (foldl (fun vs o => apply o vs) vs ops).
Proof.
  revert vs. induction ops as [|o ops IH]; intros vs Hh; [done|].
  simpl. by apply IH, apply_heapOrdered.
Qed.

(** C10. After any sequence of [enqueue] and [dequeue] calls on a new
    queue, [values] is a binary min-heap; [dequeue] on the empty queue
    returns [undefined] and leaves it empty; [dequeue] on a non-empty
    queue returns the [val] of its first entry, whose priority is minimal
    among all stored entries, and keeps exactly the other entries, again
    in heap order. *)
Theorem priority_queue_min_heap (ops : list (Op V)) :
  heapOrdered (run ops) ∧
  match run ops with
  | [] => dequeue (run ops) = (None, [])
  | m :: rest =>
      (∀ e, e ∈ run ops → priority m <= priority e) ∧
      ∃ vs', dequeue (run ops) = (Some (val m), vs') ∧
             vs' ≡ₚ rest ∧ heapOrdered vs'
  end.
Proof.
  assert (Hh : heapOrdered (run ops))
    by (apply foldl_apply_heapOrdered, heapOrdered_nil).
  split; [done|].
  destruct (run ops) as [|m rest] eqn:Hrun; [done|]. split.
  - intros e [i Hi]%list_elem_of_lookup.
    by apply (heapOrdered_root (m :: rest) m Hh eq_refl i e).
  - destruct (dequeue_cons m rest) as (vs' & Hd & Hp & Hh').
    exists vs'. auto.
Qed.

End QueueFacts.

(** ** The guard of [generateMaze] *)

Section GuardFacts.
Import MazeGrid.

(** C8. While solving is in progress ([this.isSolving], the flag the
    warning of the source speaks of) a call of [generateMaze] returns
    [false] at once: it logs one warning, draws no random number and leaves
    the grid, the two points and the phase flags as they are. Nothing is
    queued: the outcome is a returned value. *)
Theorem generateMaze_rejected_while_solving
    (keepStart : bool) (st : State) (g : Rng) :
  isSolving st = true →
  ∃ st', generateMaze keepStart st g = Returned false st' g ∧
         maze st' = maze st ∧ start st' = start st ∧ end_ st' = end_ st ∧
         rows st' = rows st ∧ cols st' = cols st ∧
         isGenerating st' = isGenerating st ∧ isSolving st' = true ∧
         solving st' = solving st ∧
         warnings st' =
           warnings st ++
           ["Cannot generate maze while solving is in progress"%string].
Proof.
  intros Hs. unfold generateMaze. rewrite Hs.
  eexists. split; [reflexivity|]. by repeat split.
Qed.

Lemma generateMaze_rejected_while_solving_witness :
  let st := mkState 3 3 12 false true true (maze (blankGrid 3 3))
              None None [] in
  ∃ st', generateMaze true st (rngOfList []) = Returned false st' (rngOfList [])
         ∧ maze st' = maze st.
Proof.
  intros st.
  destruct (generateMaze_rejected_while_solving true st (rngOfList []))
    as (st' & Hret & Hmaze & _); [reflexivity|].
  exists st'. split; [exact Hret|exact Hmaze].
Defined.

(** The guard reads [this.isSolving], which [startInfiniteMaze] sets around
    its call of [solveMaze]; the flag [this.solving] that [solveMaze] itself
    keeps is not consulted: with only that flag set the call carves. *)
Lemma generateMaze_guard_ignores_solving_flag :
  let st := mkState 3 3 12 true false true (maze (blankGrid 3 3))
              None None [] in
  ∃ st' g', generateMaze false st (rngOfList []) = Returned true st' g' ∧
            warnings st' = [] ∧ removedWalls st' = 8%nat.
Proof.
  intros st. eexists _, _. split; [vm_compute; reflexivity|].
  split; vm_compute; reflexivity.
Qed.

End GuardFacts.

(** ** The solver: Start equal to End *)

Section SolveTrivialFacts.
Import MazeGrid.

Lemma isValidCell_spec st r c :
  isValidCell st r c = true ↔ 0 <= r < rows st ∧ 0 <= c < cols st.
Proof. unfold isValidCell. rewrite !andb_true_iff. lia. Qed.

(** C7. When Start and End are the same cell of the grid, [solveMaze]
    returns [true] after a single [dequeue], and the reconstructed path is
    that one cell. *)
Theorem solveMaze_start_is_end (st : State) (p : Point) :
  solving st = false →
  start st = Some p → end_ st = Some p →
  isValidCell st (row p) (col p) = true →
  solveMaze st =
    SolveReturned (mkSolved true [(row p, col p)] 1 ReachedEnd).
Proof.
  intros Hsol Hs He Hv. apply isValidCell_spec in Hv.
  unfold solveMaze. rewrite Hsol, Hs, He.
  destruct (Z.to_nat (rows st * cols st)) as [|n] eqn:Hn; [nia|].
  cbn [solveLoop openSet cameFrom].
  change (PriorityQueue.enqueue (row p, col p) 0 [])
    with [PriorityQueue.mkEntry (row p, col p) 0].
  cbn [PriorityQueue.isEmpty length Nat.eqb PriorityQueue.dequeue].
  cbn. rewrite decide_True by done.
  unfold reconstructPath. rewrite map_size_empty. cbn [reconstructFrom].
  by rewrite lookup_empty.
Qed.

Lemma solveMaze_start_is_end_witness :
  solveMaze (withPoints (blankGrid 3 3) (Some (mkPoint 1 1))
                        (Some (mkPoint 1 1)))
  = SolveReturned (mkSolved true [(1, 1)] 1 ReachedEnd).
Proof.
  apply (solveMaze_start_is_end _ (mkPoint 1 1)); reflexivity.
Defined.

End SolveTrivialFacts.

(** ** The grid as an array of arrays *)

Section GridFacts.
Import MazeGrid.
Implicit Types (m : list (list Cell)) (st : State) (r c : Z).

Lemma cellAt_Some_nonneg m r c cell :
  cellAt m r c = Some cell → 0 <= r ∧ 0 <= c.
Proof.
  unfold cellAt. destruct ((r <? 0) || (c <? 0)) eqn:E; [done|].
  apply orb_false_iff in E. lia.
Qed.

Lemma cellAt_nonneg m r c :
  0 <= r → 0 <= c →
  cellAt m r c = m !! Z.to_nat r ≫= fun cells => cells !! Z.to_nat c.
Proof.
  intros. unfold cellAt.
  replace ((r <? 0) || (c <? 0)) with false; [done|].
  symmetry. apply orb_false_iff. lia.
Qed.

Lemma cellAt_alterCell_eq f m r c :
  0 <= r → 0 <= c →
  cellAt (alterCell f r c m) r c = f <$> cellAt m r c.
Proof.
  intros. rewrite !cellAt_nonneg by done. unfold alterCell.
  rewrite list_lookup_alter_eq.
  destruct (m !! Z.to_nat r) as [cells|]; [|done]. simpl.
  by rewrite list_lookup_alter_eq.
Qed.

Lemma cellAt_alterCell_ne f m r c r' c' :
  0 <= r → 0 <= c → (r', c') ≠ (r, c) →
  cellAt (alterCell f r c m) r' c' = cellAt m r' c'.
Proof.
  intros Hr Hc Hne. unfold cellAt.
  destruct ((r' <? 0) || (c' <? 0)) eqn:E; [done|].
  apply orb_false_iff in E. unfold alterCell.
  destruct (decide (Z.to_nat r = Z.to_nat r')) as [Heq|Hneq].
  - assert (r = r') by lia. subst r'.
    rewrite list_lookup_alter_eq.
    destruct (m !! Z.to_nat r) as [cells|]; [|done]. simpl.
    rewrite list_lookup_alter_ne; [done|].
    intros ?. assert (c = c') by lia. congruence.
  - by rewrite list_lookup_alter_ne.
Qed.

Lemma wfMaze_alterCell st f m r c :
  wfMaze st m → wfMaze st (alterCell f r c m).
Proof.
  intros [Hlen Hall]. unfold alterCell. split.
  - by rewrite length_alter.
  - apply Forall_lookup. intros i cells Hi.
    destruct (decide (i = Z.to_nat r)) as [->|Hne].
    + rewrite list_lookup_alter_eq in Hi.
      destruct (m !! Z.to_nat r) as [cells0|] eqn:E; [|done].
      simpl in Hi. simplify_eq. rewrite length_alter.
      by eapply (Forall_lookup_1 _ _ _ _ Hall).
    + rewrite list_lookup_alter_ne in Hi by done.
      by eapply (Forall_lookup_1 _ _ _ _ Hall).
Qed.

Lemma wfMaze_cellAt st m r c :
  wfMaze st m → isValidCell st r c = true → is_Some (cellAt m r c).
Proof.
  intros [Hlen Hall] Hv. apply isValidCell_spec in Hv.
  rewrite cellAt_nonneg by lia.
  destruct (lookup_lt_is_Some_2 m (Z.to_nat r)) as [cells Hcells]; [lia|].
  rewrite Hcells. simpl. apply lookup_lt_is_Some_2.
  rewrite (Forall_lookup_1 _ _ _ _ Hall Hcells). lia.
Qed.

Lemma cellAt_valid st m r c cell :
  wfMaze st m → cellAt m r c = Some cell → isValidCell st r c = true.
Proof.
  intros [Hlen Hall] Hc. destruct (cellAt_Some_nonneg _ _ _ _ Hc).
  rewrite cellAt_nonneg in Hc by done.
  destruct (m !! Z.to_nat r) as [cells|] eqn:Hcells; [|done]. simpl in Hc.
  pose proof (Forall_lookup_1 _ _ _ _ Hall Hcells) as Hcols.
  simpl in Hcols. apply lookup_lt_Some in Hcells, Hc.
  apply isValidCell_spec. lia.
Qed.

End GridFacts.

(** ** The generator *)

Section GeneratorFacts.
Import MazeGrid.
Implicit Types (m : list (list Cell)) (st : State) (r c : Z)
  (d : Direction).

Lemma getCellInDirection_opposite r c d :
  let '(r', c') := getCellInDirection r c d in
  getCellInDirection r' c' (opposite d) = (r, c).
Proof. destruct d; simpl; f_equal; lia. Qed.

Lemma getCellInDirection_ne r c d : getCellInDirection r c d ≠ (r, c).
Proof. destruct d; simpl; intros [=]; lia. Qed.

Lemma getCellInDirection_inj r c r' c' d :
  getCellInDirection r c d = getCellInDirection r' c' d → (r, c) = (r', c').
Proof. destruct d; simpl; intros [=]; f_equal; lia. Qed.

Lemma wall_clearWall_eq d w : wall (clearWall d w) d = false.
Proof. by destruct d. Qed.

Lemma wall_clearWall_ne d d' w : d ≠ d' → wall (clearWall d w) d' = wall w d'.
Proof. by destruct d, d'. Qed.

(** What [removeWall] does to each cell, when both sides are in the grid. *)
Lemma cellAt_removeWall st m wr wc d r c :
  isValidCell st wr wc = true →
  isValidCell st (getCellInDirection wr wc d).1
                 (getCellInDirection wr wc d).2 = true →
  cellAt (removeWall st m wr wc d) r c =
    if decide ((r, c) = (wr, wc)) then setNoWall d <$> cellAt m r c
    else if decide ((r, c) = getCellInDirection wr wc d)
         then setNoWall (opposite d) <$> cellAt m r c
         else cellAt m r c.
Proof.
  intros Hv Hn. unfold removeWall. rewrite Hv. simpl.
  pose proof (getCellInDirection_ne wr wc d) as Hne.
  destruct (getCellInDirection wr wc d) as [nr nc]. simpl in Hn.
  rewrite Hn. apply isValidCell_spec in Hv, Hn.
  destruct (decide ((r, c) = (wr, wc))) as [[= -> ->]|H1].
  - rewrite cellAt_alterCell_ne by (try lia; congruence).
    apply cellAt_alterCell_eq; lia.
  - destruct (decide ((r, c) = (nr, nc))) as [[= -> ->]|H2].
    + rewrite cellAt_alterCell_eq by lia.
      by rewrite cellAt_alterCell_ne by (try lia; congruence).
    + by rewrite !cellAt_alterCell_ne by (try lia; congruence).
Qed.

Lemma wfMaze_removeWall st m wr wc d :
  wfMaze st m → wfMaze st (removeWall st m wr wc d).
Proof.
  intros Hwf. unfold removeWall.
  destruct (isValidCell st wr wc); simpl; [|done].
  destruct (getCellInDirection wr wc d) as [nr nc].
  destruct (isValidCell st nr nc); by repeat apply wfMaze_alterCell.
Qed.

(** [removeWall] keeps the agreement of every pair of cells: it clears both
    flags of one shared wall and no other flag. *)
Lemma removeWall_wallAgrees st m wr wc d r c d' :
  isValidCell st (getCellInDirection wr wc d).1
                 (getCellInDirection wr wc d).2 = true →
  wallAgrees m r c d' → wallAgrees (removeWall st m wr wc d) r c d'.
Proof.
  intros Hn Hag.
  destruct (isValidCell st wr wc) eqn:Hv.
  2:{ unfold removeWall. by rewrite Hv. }
  unfold wallAgrees in *.
  pose proof (getCellInDirection_opposite r c d') as Hopp.
  pose proof (getCellInDirection_ne r c d') as Hner.
  destruct (getCellInDirection r c d') as [r' c'] eqn:Hdir.
  intros a b. rewrite !(cellAt_removeWall st m wr wc d) by done.
  pose proof (getCellInDirection_opposite wr wc d) as Hoppw.
  pose proof (getCellInDirection_ne wr wc d) as Hnew.
  destruct (getCellInDirection wr wc d) as [nr nc] eqn:Hdirw.
  destruct (decide ((r, c) = (wr, wc))) as [[= -> ->]|H1].
  - (* the first cell is the cleared one *)
    rewrite decide_False by congruence.
    destruct (cellAt m wr wc) as [a0|] eqn:Ha; [|done].
    destruct (decide (d' = d)) as [->|Hd].
    + rewrite Hdir in Hdirw. simplify_eq. rewrite decide_True by done.
      destruct (cellAt m nr nc) as [b0|]; [|done].
      intros [= <-] [= <-]. simpl. by rewrite !wall_clearWall_eq.
    + destruct (decide ((r', c') = (nr, nc))) as [[= -> ->]|H2].
      * destruct (cellAt m nr nc) as [b0|] eqn:Hb; [|done].
        intros [= <-] [= <-]. simpl.
        rewrite wall_clearWall_ne by done.
        rewrite wall_clearWall_ne.
        -- by apply Hag.
        -- intros Heq. destruct d, d'; simpl in *; simplify_eq; lia.
      * intros [= <-] Hb. simpl. rewrite wall_clearWall_ne by done.
        by apply Hag.
  - destruct (decide ((r, c) = (nr, nc))) as [[= -> ->]|H2].
    + (* the first cell is the neighbour of the cleared one *)
      destruct (cellAt m nr nc) as [a0|] eqn:Ha; [|done].
      destruct (decide ((r', c') = (wr, wc))) as [[= -> ->]|H3].
      * destruct (cellAt m wr wc) as [b0|] eqn:Hb; [|done].
        intros [= <-] [= <-]. simpl.
        destruct (decide (d' = opposite d)) as [->|Hd].
        -- rewrite wall_clearWall_eq.
           replace (opposite (opposite d)) with d by (by destruct d).
           by rewrite wall_clearWall_eq.
        -- exfalso. destruct d, d'; simpl in *; simplify_eq; lia.
      * rewrite decide_False by congruence.
        intros [= <-] Hb. simpl.
        rewrite wall_clearWall_ne; [by apply Hag|].
        intros <-. rewrite Hoppw in Hdir. congruence.
    + destruct (decide ((r', c') = (wr, wc))) as [[= -> ->]|H3].
      * destruct (cellAt m wr wc) as [b0|] eqn:Hb; [|done].
        intros Ha [= <-]. simpl.
        rewrite wall_clearWall_ne; [by apply Hag|].
        intros ->. apply H2.
        destruct d'; simpl in *; simplify_eq; f_equal; lia.
      * destruct (decide ((r', c') = (nr, nc))) as [[= -> ->]|H4].
        -- destruct (cellAt m nr nc) as [b0|] eqn:Hb; [|done].
           intros Ha [= <-]. simpl.
           rewrite wall_clearWall_ne; [by apply Hag|].
           intros Heq. assert (d' = d) as -> by (by destruct d, d').
           apply H1. apply (getCellInDirection_inj _ _ _ _ d). congruence.
        -- intros Ha Hb. by apply Hag.
Qed.

Lemma cellAt_alterCell f m r c r' c' :
  0 <= r → 0 <= c →
  cellAt (alterCell f r c m) r' c' =
    if decide ((r', c') = (r, c)) then f <$> cellAt m r c
    else cellAt m r' c'.
Proof.
  intros. case_decide as Heq.
  - injection Heq as -> ->. by apply cellAt_alterCell_eq.
  - by apply cellAt_alterCell_ne.
Qed.

Lemma cellAt_alterCell_walls f m r0 c0 r c a :
  0 <= r0 → 0 <= c0 → (∀ x, walls (f x) = walls x) →
  cellAt (alterCell f r0 c0 m) r c = Some a →
  ∃ a0, cellAt m r c = Some a0 ∧ walls a = walls a0.
Proof.
  intros Hr Hc Hf. rewrite cellAt_alterCell by done.
  case_decide as Heq; [|eauto]. injection Heq as -> ->.
  destruct (cellAt m r0 c0) as [a0|]; [|done].
  intros [= <-]. eauto.
Qed.

Lemma alterCell_wallAgrees f m r0 c0 r c d :
  0 <= r0 → 0 <= c0 → (∀ x, walls (f x) = walls x) →
  wallAgrees m r c d → wallAgrees (alterCell f r0 c0 m) r c d.
Proof.
  intros Hr Hc Hf Hag. unfold wallAgrees in *.
  destruct (getCellInDirection r c d) as [r' c'].
  intros a b Ha Hb.
  apply cellAt_alterCell_walls in Ha as (a0 & ? & ->); [|done..].
  apply cellAt_alterCell_walls in Hb as (b0 & ? & ->); [|done..].
  by apply Hag.
Qed.

(** Induction over the rounds of [carve]. *)
Lemma carve_invariant (P : list (list Cell) → Prop) st :
  (∀ m wr wc d,
     P m →
     validNotInMaze st m (getCellInDirection wr wc d).1
                         (getCellInDirection wr wc d).2 = true →
     P (carveStep st m wr wc d)) →
  ∀ fuel m ws g m' g',
    P m → carve fuel st m ws g = Some (m', g') → P m'.
Proof.
  intros Hstep. induction fuel as [|fuel IH]; intros m ws g m' g' HP Hc.
  - destruct ws; simplify_eq/=. done.
  - destruct ws as [|w ws]; [by simplify_eq/=|].
    cbn [carve] in Hc.
    destruct (randomBelow g (Z.of_nat (length (w :: ws)))) as [idx g1].
    destruct ((w :: ws) !! Z.to_nat idx) as [[[wr wc] d]|]; [|done].
    specialize (Hstep m wr wc d HP). unfold carveStep in Hstep.
    destruct (getCellInDirection wr wc d) as [nr nc].
    destruct (validNotInMaze st m nr nc) eqn:Hv.
    + eapply IH; [|exact Hc]. by apply Hstep.
    + by eapply IH.
Qed.

Lemma validNotInMaze_spec st m r c :
  validNotInMaze st m r c = true →
  isValidCell st r c = true ∧
  ∃ cell, cellAt m r c = Some cell ∧ inMaze cell = false.
Proof.
  unfold validNotInMaze. intros [Hv Hc]%andb_true_iff. split; [done|].
  destruct (cellAt m r c) as [cell|]; [|done].
  exists cell. split; [done|]. by destruct (inMaze cell).
Qed.

Lemma wfMaze_carveStep st m wr wc d :
  wfMaze st m → wfMaze st (carveStep st m wr wc d).
Proof.
  intros. unfold carveStep. destruct (getCellInDirection wr wc d).
  by apply wfMaze_alterCell, wfMaze_removeWall.
Qed.

Lemma carve_wfMaze st fuel m ws g m' g' :
  wfMaze st m → carve fuel st m ws g = Some (m', g') → wfMaze st m'.
Proof.
  apply (carve_invariant (wfMaze st)). intros. by apply wfMaze_carveStep.
Qed.

(** The frontier loop keeps the agreement of every pair of cells. *)
Lemma carve_wallAgrees st fuel m ws g m' g' r c d :
  wallAgrees m r c d → carve fuel st m ws g = Some (m', g') →
  wallAgrees m' r c d.
Proof.
  apply (carve_invariant (fun m => wallAgrees m r c d)).
  intros m0 wr wc d0 Hag Hv. unfold carveStep.
  pose proof (removeWall_wallAgrees st m0 wr wc d0 r c d) as Hrm.
  destruct (getCellInDirection wr wc d0) as [nr nc]. simpl in *.
  apply validNotInMaze_spec in Hv as [Hv _].
  pose proof Hv as Hv'. apply isValidCell_spec in Hv'.
  apply alterCell_wallAgrees; [lia|lia|done|]. by apply Hrm.
Qed.

(** *** The frontier loop terminates *)

Lemma sum_list_map_alter_same {A} (h : A → nat) (f : A → A) (l : list A) i :
  (∀ x, h (f x) = h x) →
  sum_list (map h (alter f i l)) = sum_list (map h l).
Proof.
  intros Hf. revert i.
  induction l as [|x l IH]; intros [|i]; simpl; try done.
  - by rewrite Hf.
  - f_equal. apply IH.
Qed.

Lemma sum_list_map_alter {A} (h : A → nat) (f : A → A) (l : list A) i x :
  l !! i = Some x →
  (sum_list (map h (alter f i l)) + h x = sum_list (map h l) + h (f x))%nat.
Proof.
  revert i. induction l as [|y l IH]; intros [|i] Hi; simplify_eq/=.
  - lia.
  - specialize (IH i Hi). change (list_alter f i l) with (alter f i l). lia.
Qed.

Lemma notInMazeCount_alterCell_same f m r c :
  (∀ x, inMaze (f x) = inMaze x) →
  notInMazeCount (alterCell f r c m) = notInMazeCount m.
Proof.
  intros Hf. unfold notInMazeCount, alterCell.
  apply sum_list_map_alter_same. intros cells.
  apply sum_list_map_alter_same. intros x. by rewrite Hf.
Qed.

Lemma notInMazeCount_setInMaze m r c cell :
  cellAt m r c = Some cell → inMaze cell = false →
  S (notInMazeCount (alterCell setInMaze r c m)) = notInMazeCount m.
Proof.
  intros Hc Hin. destruct (cellAt_Some_nonneg _ _ _ _ Hc).
  rewrite cellAt_nonneg in Hc by done.
  destruct (m !! Z.to_nat r) as [cells|] eqn:Hcells; [|done]. simpl in Hc.
  unfold notInMazeCount, alterCell.
  set (h := fun cells : list Cell =>
              sum_list (map (fun x : Cell => if inMaze x then 0%nat else 1%nat)
                            cells)).
  pose proof (sum_list_map_alter h (alter setInMaze (Z.to_nat c))
                m _ _ Hcells) as Houter.
  pose proof (sum_list_map_alter
                (fun x : Cell => if inMaze x then 0%nat else 1%nat)
                setInMaze cells _ _ Hc) as Hinner.
  cbv beta in Hinner. rewrite Hin in Hinner. cbn [setInMaze inMaze] in Hinner.
  fold (h cells) in Hinner.
  fold (h (alter setInMaze (Z.to_nat c) cells)) in Hinner. lia.
Qed.

Lemma notInMazeCount_removeWall st m wr wc d :
  notInMazeCount (removeWall st m wr wc d) = notInMazeCount m.
Proof.
  unfold removeWall. destruct (isValidCell st wr wc); simpl; [|done].
  destruct (getCellInDirection wr wc d) as [nr nc].
  destruct (isValidCell st nr nc);
    by rewrite !notInMazeCount_alterCell_same.
Qed.

Lemma cellAt_removeWall_inMaze st m wr wc d r c :
  inMaze <$> cellAt (removeWall st m wr wc d) r c = inMaze <$> cellAt m r c.
Proof.
  unfold removeWall.
  destruct (isValidCell st wr wc) eqn:Hv; simpl; [|done].
  apply isValidCell_spec in Hv.
  assert (∀ d0 m0 r0 c0, 0 <= r0 → 0 <= c0 →
            inMaze <$> cellAt (alterCell (setNoWall d0) r0 c0 m0) r c
            = inMaze <$> cellAt m0 r c) as Halt.
  { intros d0 m0 r0 c0 ? ?. rewrite cellAt_alterCell by done.
    case_decide as Heq; [|done]. injection Heq as -> ->.
    by destruct (cellAt m0 r0 c0). }
  destruct (getCellInDirection wr wc d) as [nr nc].
  destruct (isValidCell st nr nc) eqn:Hn.
  - apply isValidCell_spec in Hn. rewrite !Halt by lia. done.
  - by rewrite Halt by lia.
Qed.

Lemma addWalls_length st m r c ws :
  (length (addWalls st m r c ws) ≤ length ws + 4)%nat.
Proof.
  unfold addWalls, directions. rewrite length_app. simpl.
  repeat case_match; simpl; lia.
Qed.

Lemma randomBelow_range g n :
  0 < n → 0 <= (randomBelow g n).1 < n.
Proof.
  intros Hn. unfold randomBelow. simpl.
  replace (0 <? n) with true by (symmetry; by apply Z.ltb_lt).
  by apply Z.mod_pos_bound.
Qed.

(** [carveFuel] rounds are enough: the fuel never stops [carve]. *)
Lemma carve_terminates st fuel m ws g :
  (carveFuel m ws ≤ fuel)%nat → is_Some (carve fuel st m ws g).
Proof.
  revert m ws g. induction fuel as [|fuel IH]; intros m ws g Hfuel.
  - destruct ws; [by eexists|]. unfold carveFuel in Hfuel. simpl in Hfuel. lia.
  - destruct ws as [|w ws]; [by eexists|]. cbn [carve].
    pose proof (randomBelow_range g (Z.of_nat (length (w :: ws)))) as Hrange.
    destruct (randomBelow g (Z.of_nat (length (w :: ws)))) as [idx g1].
    simpl in Hrange. specialize (Hrange ltac:(lia)).
    destruct (lookup_lt_is_Some_2 (w :: ws) (Z.to_nat idx)) as [e He];
      [simpl; lia|].
    rewrite He. destruct e as [[wr wc] d].
    assert (length (delete (Z.to_nat idx) (w :: ws)) = length ws) as Hdel.
    { rewrite length_delete by eauto. simpl. lia. }
    destruct (getCellInDirection wr wc d) as [nr nc].
    unfold carveFuel in *. simpl in Hfuel.
    destruct (validNotInMaze st m nr nc) eqn:Hv.
    + apply validNotInMaze_spec in Hv as (Hv & cell & Hcell & Hin).
      apply IH.
      pose proof (addWalls_length st
                    (alterCell setInMaze nr nc (removeWall st m wr wc d))
                    nr nc (delete (Z.to_nat idx) (w :: ws))) as Hadd.
      assert (∃ cell', cellAt (removeWall st m wr wc d) nr nc = Some cell'
                       ∧ inMaze cell' = false) as (cell' & Hcell' & Hin').
      { pose proof (cellAt_removeWall_inMaze st m wr wc d nr nc) as Hrm.
        rewrite Hcell in Hrm.
        destruct (cellAt (removeWall st m wr wc d) nr nc) as [cell'|];
          [|done].
        exists cell'. simpl in Hrm. split; [done|]. congruence. }
      pose proof (notInMazeCount_setInMaze _ _ _ _ Hcell' Hin') as Hcount.
      rewrite notInMazeCount_removeWall in Hcount. lia.
    + apply IH. lia.
Qed.

(** *** The reset loop *)

Lemma cellAt_resetMaze keepStart st r c :
  0 <= r → 0 <= c →
  cellAt (resetMaze keepStart st) r c =
    (fun cell => if negb keepStart || negb (isStartCell st r c)
                 then blankCell else cell) <$> cellAt (maze st) r c.
Proof.
  intros Hr Hc. rewrite !cellAt_nonneg by done. unfold resetMaze.
  rewrite list_lookup_imap.
  destruct (maze st !! Z.to_nat r) as [cells|]; [|done]. simpl.
  rewrite list_lookup_imap. by rewrite !Z2Nat.id by done.
Qed.

Lemma wfMaze_resetMaze keepStart st :
  wfMaze st (maze st) → wfMaze st (resetMaze keepStart st).
Proof.
  intros [Hlen Hall]. unfold resetMaze. split.
  - by rewrite length_imap.
  - apply Forall_lookup. intros i cells. rewrite list_lookup_imap.
    destruct (maze st !! i) as [cells0|] eqn:Hi; [|done].
    intros [= <-]. rewrite length_imap.
    by apply (Forall_lookup_1 _ _ _ _ Hall Hi).
Qed.

Lemma wfMaze_prepareMaze keepStart st m0 :
  wfMaze st (maze st) → prepareMaze keepStart st = Some m0 → wfMaze st m0.
Proof.
  intros Hwf. unfold prepareMaze.
  pose proof (wfMaze_resetMaze keepStart st Hwf).
  destruct keepStart; [|by intros [= <-]].
  destruct (start st) as [p|]; [|by intros [= <-]].
  destruct (isValidCell st (row p) (col p)); [|done].
  intros [= <-]. by apply wfMaze_alterCell.
Qed.

Lemma wallAgrees_blank m r c d :
  (∀ a, cellAt m r c = Some a → walls a = allWalls) →
  (∀ b, cellAt m (getCellInDirection r c d).1 (getCellInDirection r c d).2
        = Some b → walls b = allWalls) →
  wallAgrees m r c d.
Proof.
  unfold wallAgrees. destruct (getCellInDirection r c d) as [r' c'].
  simpl. intros Ha Hb a b Hca Hcb.
  rewrite (Ha a Hca), (Hb b Hcb). by destruct d.
Qed.


Lemma isStartCell_spec st p r c :
  start st = Some p →
  isStartCell st r c = true ↔ (r, c) = (row p, col p).
Proof.
  intros Hs. unfold isStartCell. rewrite Hs, andb_true_iff.
  split; [intros []; f_equal; lia|intros [= -> ->]; lia].
Qed.

(** After the reset of a partial regeneration every cell but Start is
    blank; Start keeps its [visited] flag and its walls and is in the
    maze. *)
Lemma prepareMaze_keepStart st p :
  wfMaze st (maze st) →
  start st = Some p → isValidCell st (row p) (col p) = true →
  ∃ m0 startCell,
    prepareMaze true st = Some m0 ∧
    (∀ r c, isValidCell st r c = true → (r, c) ≠ (row p, col p) →
            cellAt m0 r c = Some blankCell) ∧
    cellAt (maze st) (row p) (col p) = Some startCell ∧
    cellAt m0 (row p) (col p) =
      Some (mkCell (visited startCell) (walls startCell) true).
Proof.
  intros Hwf Hs Hv. unfold prepareMaze. rewrite Hs, Hv.
  destruct (wfMaze_cellAt st _ _ _ Hwf Hv) as [startCell Hcell].
  pose proof Hv as Hv'. apply isValidCell_spec in Hv'.
  eexists _, startCell. split; [done|]. split; [|split; [done|]].
  - intros r c Hrc Hne. pose proof Hrc as Hrc'.
    apply isValidCell_spec in Hrc'.
    rewrite cellAt_alterCell_ne by (try lia; done).
    rewrite cellAt_resetMaze by lia.
    destruct (wfMaze_cellAt st _ _ _ Hwf Hrc) as [cell ->]. simpl.
    destruct (isStartCell st r c) eqn:E; [|done].
    by apply (isStartCell_spec st p) in E.
  - rewrite cellAt_alterCell_eq, cellAt_resetMaze by lia.
    rewrite Hcell. simpl.
    by rewrite (proj2 (isStartCell_spec st p _ _ Hs) eq_refl).
Qed.

(** *** The whole call *)

Lemma hasCellElement_valid st r c :
  wfMaze st (maze st) → hasCellElement st r c = isValidCell st r c.
Proof.
  intros Hwf. unfold hasCellElement.
  destruct (cellAt (maze st) r c) as [cell|] eqn:Hc.
  - symmetry. by eapply cellAt_valid.
  - destruct (isValidCell st r c) eqn:Hv; [|done].
    destruct (wfMaze_cellAt st _ r c Hwf Hv) as [cell Hcell]. congruence.
Qed.

Lemma sampleEnd_Some n st s g e g' :
  sampleEnd n st s g = (Some e, g') →
  minDistance st <= getManhattanDistance (row s) (col s) (row e) (col e).
Proof.
  revert g. induction n as [|n IH]; intros g; cbn [sampleEnd]; [done|].
  destruct (randomBelow g (rows st)) as [endRow g1].
  destruct (randomBelow g1 (cols st)) as [endCol g2].
  destruct (minDistance st <=? _) eqn:Hle; [|by apply IH].
  intros [= <- _]. simpl. by apply Z.leb_le.
Qed.

Lemma getManhattanDistance_nonneg r1 c1 r2 c2 :
  0 <= getManhattanDistance r1 c1 r2 c2.
Proof. unfold getManhattanDistance. lia. Qed.

(** The fallback picks a corner no nearer than any other corner. *)
Lemma farthestCorner_max st s :
  farthestCorner st (Some s) ∈ corners st ∧
  ∀ k, k ∈ corners st →
       getManhattanDistance (row s) (col s) k.1 k.2 <=
       getManhattanDistance (row s) (col s)
         (farthestCorner st (Some s)).1 (farthestCorner st (Some s)).2.
Proof.
  unfold farthestCorner, corners. cbn [foldl].
  pose proof (getManhattanDistance_nonneg (row s) (col s) 0 0).
  pose proof (getManhattanDistance_nonneg (row s) (col s) 0 (cols st - 1)).
  pose proof (getManhattanDistance_nonneg (row s) (col s) (rows st - 1) 0).
  pose proof (getManhattanDistance_nonneg (row s) (col s) (rows st - 1)
                (cols st - 1)).
  repeat (match goal with
          | |- context [?a <? ?b] => destruct (Z.ltb_spec a b)
          end; cbn [fst snd]);
    (split; [rewrite !elem_of_cons; tauto|]);
    intros k Hk; repeat (apply elem_of_cons in Hk as [->|Hk]);
    cbn [fst snd]; try lia; by apply elem_of_nil in Hk.
Qed.

Lemma sampleEnd_valid n st s g e g' :
  1 <= rows st → 1 <= cols st →
  sampleEnd n st s g = (Some e, g') →
  isValidCell st (row e) (col e) = true.
Proof.
  intros Hr Hc. revert g. induction n as [|n IH]; intros g;
    cbn [sampleEnd]; [done|].
  pose proof (randomBelow_range g (rows st)) as H1.
  destruct (randomBelow g (rows st)) as [endRow g1].
  pose proof (randomBelow_range g1 (cols st)) as H2.
  destruct (randomBelow g1 (cols st)) as [endCol g2].
  destruct (minDistance st <=? _); [|by apply IH].
  intros [= <- _]. simpl in *. apply isValidCell_spec. lia.
Qed.

Lemma corners_valid st k :
  1 <= rows st → 1 <= cols st → k ∈ corners st →
  isValidCell st k.1 k.2 = true.
Proof.
  intros Hr Hc Hk. unfold corners in Hk.
  repeat (apply elem_of_cons in Hk as [->|Hk]);
    [apply isValidCell_spec; simpl; lia..|by apply elem_of_nil in Hk].
Qed.

(** [selectNewEndPoint] changes End at most: it ends with the grid, Start
    and the sizes it began with. *)
Lemma selectNewEndPoint_frame st g :
  ∃ st' g',
    (selectNewEndPoint st g = EndChosen st' g' ∨
     selectNewEndPoint st g = EndThrew st' g') ∧
    maze st' = maze st ∧ start st' = start st.
Proof.
  unfold selectNewEndPoint.
  destruct (pointHasElement st (end_ st)); cbn [negb]; [|by eauto 6].
  destruct (start st) as [s|] eqn:Hs.
  - destruct (sampleEnd selectEndAttempts st s g) as [[e|] g'].
    + destruct (hasCellElement st (row e) (col e)); eauto 6.
    + destruct (farthestCorner st (Some s)) as [r c].
      destruct (hasCellElement st (row (mkPoint r c)) (col (mkPoint r c)));
        eauto 6.
  - destruct (randomBelow g (rows st)) as [? g1].
    destruct (randomBelow g1 (cols st)) as [? g2]. eauto 6.
Qed.

Lemma pointHasElement_valid st p :
  wfMaze st (maze st) →
  pointHasElement st p =
    match p with
    | Some q => isValidCell st (row q) (col q)
    | None => true
    end.
Proof. intros Hwf. destruct p; [by apply hasCellElement_valid|done]. Qed.

(** On a grid with Start in it, [selectNewEndPoint] throws only in its
    first statement, when the old End has no element; otherwise the new End
    is a cell of the grid. *)
Lemma selectNewEndPoint_wf st g s :
  wfMaze st (maze st) → start st = Some s →
  isValidCell st (row s) (col s) = true →
  if pointHasElement st (end_ st)
  then ∃ e g', selectNewEndPoint st g
                 = EndChosen (withPoints st (Some s) (Some e)) g' ∧
               isValidCell st (row e) (col e) = true
  else selectNewEndPoint st g = EndThrew st g.
Proof.
  intros Hwf Hs Hv. apply isValidCell_spec in Hv.
  unfold selectNewEndPoint. rewrite Hs.
  destruct (pointHasElement st (end_ st)); cbn [negb]; [|done].
  destruct (sampleEnd selectEndAttempts st s g) as [[e|] g'] eqn:Hsample.
  - apply sampleEnd_valid in Hsample; [|lia..].
    rewrite (hasCellElement_valid st _ _ Hwf), Hsample. by eauto.
  - pose proof (farthestCorner_max st s) as [Hin _].
    apply corners_valid in Hin; [|lia..].
    destruct (farthestCorner st (Some s)) as [r c]. cbn [row col].
    rewrite (hasCellElement_valid st _ _ Hwf). simpl in Hin. rewrite Hin.
    by eauto.
Qed.

Lemma selectPoints_Some st g st1 g1 :
  selectPoints st g = Some (st1, g1) →
  ∃ s e, st1 = withPoints st (Some s) (Some e).
Proof.
  unfold selectPoints, clearPoints.
  destruct (_ && _); [|done].
  destruct (choosePoints _ g) as [[[s|] [e|]] g']; try discriminate.
  destruct (_ && _); [|done].
  intros [= <- _]. by eauto.
Qed.

(** The grid [generateMaze] leaves is the prepared grid, carved by the
    frontier loop when [isGenerating] is set. *)
Lemma generateMaze_outcomeMaze keepStart st g m0 :
  isSolving st = false → prepareMaze keepStart st = Some m0 →
  ∃ m1, outcomeMaze (generateMaze keepStart st g) = Some m1 ∧
        (m1 = m0 ∨ ∃ fuel ws g1 g2, carve fuel st m0 ws g1 = Some (m1, g2)).
Proof.
  intros Hsol Hprep. unfold generateMaze. rewrite Hsol, Hprep.
  pose proof selectNewEndPoint_frame as HselE.
  pose proof selectPoints_Some as HselP.
  revert HselE HselP. generalize selectNewEndPoint selectPoints.
  intros selE selP HselE HselP.
  destruct (seedCell keepStart st g) as [[sr sc] g1].
  set (ws := addWalls st m0 sr sc []).
  destruct (isGenerating st).
  - destruct (carve_terminates st (carveFuel m0 ws) m0 ws g1)
      as [[m1 g2] Hcarve]; [done|].
    rewrite Hcarve. exists m1. split; [|right; eauto].
    destruct keepStart; cbn [negb].
    + change (start (withMaze st m1)) with (start st).
      destruct (start st) as [s|] eqn:Hs; [|reflexivity].
      destruct (HselE (withMaze st m1) g2)
        as (st2 & g3 & [-> | ->] & Hmaze & _); simpl; by rewrite Hmaze.
    + destruct (selP (withMaze st m1) g2) as [[st1 g3]|] eqn:Hsel;
        [|reflexivity].
      destruct (HselP _ _ _ _ Hsel) as (s & e & ->). reflexivity.
  - exists m0. split; [|by left].
    destruct keepStart; [|reflexivity].
    change (start (withMaze st m0)) with (start st).
    destruct (start st) as [s|] eqn:Hs; [|reflexivity].
    destruct (HselE (withMaze st m0) g1)
      as (st2 & g3 & [-> | ->] & Hmaze & _); simpl; by rewrite Hmaze.
Qed.

(** The fuel of the model never runs out. *)
Lemma generateMaze_fuel keepStart st g :
  generateMaze keepStart st g ≠ OutOfFuel.
Proof.
  destruct (isSolving st) eqn:Hsol.
  { unfold generateMaze. by rewrite Hsol. }
  destruct (prepareMaze keepStart st) as [m0|] eqn:Hprep.
  - destruct (generateMaze_outcomeMaze keepStart st g m0 Hsol Hprep)
      as (m1 & Hout & _).
    intros Heq. by rewrite Heq in Hout.
  - unfold generateMaze. by rewrite Hsol, Hprep.
Qed.



(** A cell in the maze stays in the maze while the frontier loop runs. *)
Lemma carve_inMaze st fuel m ws g m' g' r c :
  (∃ cell, cellAt m r c = Some cell ∧ inMaze cell = true) →
  carve fuel st m ws g = Some (m', g') →
  ∃ cell, cellAt m' r c = Some cell ∧ inMaze cell = true.
Proof.
  apply (carve_invariant
           (fun m => ∃ cell, cellAt m r c = Some cell ∧ inMaze cell = true)).
  intros m0 wr wc d (cell & Hcell & Hin) Hv. unfold carveStep.
  destruct (getCellInDirection wr wc d) as [nr nc]. simpl in Hv.
  apply validNotInMaze_spec in Hv as [Hv _].
  apply isValidCell_spec in Hv.
  pose proof (cellAt_removeWall_inMaze st m0 wr wc d r c) as Hrm.
  rewrite Hcell in Hrm. rewrite cellAt_alterCell by lia.
  destruct (cellAt (removeWall st m0 wr wc d) r c) as [cell'|] eqn:Hc';
    [|done].
  simpl in Hrm. case_decide as Heq.
  - injection Heq as -> ->. rewrite Hc'. by eexists.
  - exists cell'. split; [done|congruence].
Qed.

(** C5. A partial regeneration ([generateMaze(true)], not rejected by the
    guard) from a Start in the grid: the reset loop leaves every other cell
    blank ([walls] all present, [inMaze] and [visited] false) and leaves
    Start's walls and [visited] flag as they were, with [inMaze] set; the
    frontier loop then carves from that grid (when [isGenerating] is set);
    the call ends with [selectNewEndPoint], not [selectPoints], on the
    carved grid, with Start where it was and still in the maze. When the
    old End is [null] or a cell of the grid, [selectNewEndPoint] chooses an
    End and the call returns [true]; when the old End is outside the grid,
    [selectNewEndPoint] throws in its first statement, and the call returns
    [false] with the carved grid and the old End. *)
Theorem partial_regeneration_frame (st : State) (g : Rng) (p : Point) :
  wfMaze st (maze st) → isSolving st = false →
  start st = Some p → isValidCell st (row p) (col p) = true →
  ∃ m0 startCell m1 g2 res st2 g3,
    prepareMaze true st = Some m0 ∧
    (∀ r c, isValidCell st r c = true → (r, c) ≠ (row p, col p) →
            cellAt m0 r c = Some blankCell) ∧
    cellAt (maze st) (row p) (col p) = Some startCell ∧
    cellAt m0 (row p) (col p) =
      Some (mkCell (visited startCell) (walls startCell) true) ∧
    (if isGenerating st
     then let ws := addWalls st m0 (row p) (col p) [] in
          carve (carveFuel m0 ws) st m0 ws g = Some (m1, g2)
     else (m1, g2) = (m0, g)) ∧
    generateMaze true st g = Returned res st2 g3 ∧
    match end_ st with
    | Some e0 =>
        if isValidCell st (row e0) (col e0)
        then selectNewEndPoint (withMaze st m1) g2 = EndChosen st2 g3 ∧
             res = true
        else selectNewEndPoint (withMaze st m1) g2 = EndThrew st2 g3 ∧
             res = false ∧ st2 = withMaze st m1 ∧ g3 = g2
    | None =>
        selectNewEndPoint (withMaze st m1) g2 = EndChosen st2 g3 ∧ res = true
    end ∧
    start st2 = Some p ∧ maze st2 = m1 ∧
    ∃ cell, cellAt m1 (row p) (col p) = Some cell ∧ inMaze cell = true.
Proof.
  intros Hwf Hsol Hs Hv.
  destruct (prepareMaze_keepStart st p Hwf Hs Hv)
    as (m0 & startCell & Hprep & Hblank & Hcell & Hcell0).
  exists m0, startCell.
  assert (wfMaze st m0) as Hwf0 by (by eapply wfMaze_prepareMaze).
  assert (∃ m1 g2,
            (if isGenerating st
             then let ws := addWalls st m0 (row p) (col p) [] in
                  carve (carveFuel m0 ws) st m0 ws g = Some (m1, g2)
             else (m1, g2) = (m0, g)) ∧
            wfMaze st m1 ∧
            ∃ cell, cellAt m1 (row p) (col p) = Some cell ∧ inMaze cell = true)
    as (m1 & g2 & Hcarve & Hwf1 & Hin).
  { destruct (isGenerating st).
    - set (ws := addWalls st m0 (row p) (col p) []).
      destruct (carve_terminates st (carveFuel m0 ws) m0 ws g)
        as [[m1 g2] Hcarve]; [done|].
      exists m1, g2. split; [done|]. split; [by eapply carve_wfMaze|].
      eapply carve_inMaze; [|exact Hcarve]. by eexists.
    - exists m0, g. split; [done|]. split; [done|]. by eexists. }
  exists m1, g2.
  pose proof (selectNewEndPoint_wf (withMaze st m1) g2 p Hwf1 Hs Hv) as Hsel.
  rewrite (pointHasElement_valid (withMaze st m1) _ Hwf1) in Hsel.
  change (end_ (withMaze st m1)) with (end_ st) in Hsel.
  change (isValidCell (withMaze st m1)) with (isValidCell st) in Hsel.
  assert (∀ o, selectNewEndPoint (withMaze st m1) g2 = o →
               generateMaze true st g =
                 match o with
                 | EndChosen st2 g3 => Returned true st2 g3
                 | EndThrew st2 g3 => Returned false st2 g3
                 end) as Hrun.
  { unfold generateMaze, seedCell. rewrite Hsol, Hprep, Hs.
    revert Hcarve. generalize selectNewEndPoint selectPoints.
    intros selE selP Hcarve o Ho.
    destruct (isGenerating st).
    - cbv zeta in Hcarve. rewrite Hcarve. cbn [negb].
      change (start (withMaze st m1)) with (start st). by rewrite Hs, Ho.
    - injection Hcarve as -> ->.
      change (start (withMaze st m0)) with (start st). by rewrite Hs, Ho. }
  assert (∀ b : bool, (if b
                then ∃ e g', selectNewEndPoint (withMaze st m1) g2 =
                               EndChosen
                                 (withPoints (withMaze st m1) (Some p) (Some e))
                                 g' ∧
                             isValidCell st (row e) (col e) = true
                else selectNewEndPoint (withMaze st m1) g2 =
                       EndThrew (withMaze st m1) g2) →
            ∃ res st2 g3,
              generateMaze true st g = Returned res st2 g3 ∧
              (if b
               then selectNewEndPoint (withMaze st m1) g2 = EndChosen st2 g3 ∧
                    res = true
               else selectNewEndPoint (withMaze st m1) g2 = EndThrew st2 g3 ∧
                    res = false ∧ st2 = withMaze st m1 ∧ g3 = g2) ∧
              start st2 = Some p ∧ maze st2 = m1) as Hcases.
  { intros [|].
    - intros (e & g3 & Hchosen & _).
      exists true, (withPoints (withMaze st m1) (Some p) (Some e)), g3.
      split; [by rewrite (Hrun _ Hchosen)|]. by repeat split.
    - intros Hthrew. exists false, (withMaze st m1), g2.
      split; [by rewrite (Hrun _ Hthrew)|]. by repeat split. }
  destruct (end_ st) as [e0|].
  - destruct (Hcases _ Hsel) as (res & st2 & g3 & Hgen & Hif & Hstart & Hmaze).
    exists res, st2, g3. do 5 (split; [done|]).
    split; [done|]. split; [|done].
    by destruct (isValidCell st (row e0) (col e0)).
  - destruct (Hcases true Hsel)
      as (res & st2 & g3 & Hgen & Hif & Hstart & Hmaze).
    exists res, st2, g3. by do 9 (split; [done|]).
Qed.

(** *** A full generation that closes a cycle *)

(** C1, at a failing input. On the blank 3 by 3 grid the seed is (1,1),
    which the full generation never marks [inMaze]. With the frontier picks
    0, 3, 5, 6 the loop carves (1,1)-(0,1), (0,1)-(0,2), (0,2)-(1,2) and
    then, from (1,2), the seed itself: [generateMaze] returns [true] with
    nine walls removed, not eight, and the corridors hold a cycle. *)
Theorem full_generation_closes_cycle :
  ∃ st' g',
    generateMaze false (blankGrid 3 3) (rngOfList [0; 0; 0; 3; 5; 6]%nat)
      = Returned true st' g' ∧
    removedWalls st' = 9%nat ∧
    cycle st' [(1, 1); (0, 1); (0, 2); (1, 2)] ∧
    ¬ perfectMaze st'.
Proof.
  eexists _, _. split; [vm_compute; reflexivity|].
  assert (∀ st a b l, getValidNeighbors st a.1 a.2 = Some l → b ∈ l →
                      passage st a b) as Hpass by (intros; by eexists).
  match goal with |- _ ∧ ?C ∧ _ => assert C as Hcycle end.
  { split; [simpl; lia|]. split.
    - apply (bool_decide_unpack _). vm_compute. exact I.
    - split.
      + repeat (first [apply walk_one | apply walk_cons]);
          (eapply Hpass; [vm_compute; reflexivity|repeat constructor]).
      + exists (1, 1), (1, 2). repeat split.
        eapply Hpass; [vm_compute; reflexivity|repeat constructor]. }
  split; [vm_compute; reflexivity|]. split; [exact Hcycle|].
  intros [_ Hacyclic]. by eapply Hacyclic.
Qed.

(** *** A partial regeneration that leaves a one-sided wall *)



(** The frame on a carved grid: the full generation of the 3 by 3 grid in
    which every frontier pick is 0, with End (0,2) promoted to Start. The
    reset blanks the carved cell (1,1), and the call returns [true] with
    Start still at (0,2). *)
Lemma partial_regeneration_frame_witness :
  ∃ st1 g1,
    generateMaze false (blankGrid 3 3)
      (replay (replicate 18 0%nat) [2; 0; 0; 2]%nat) = Returned true st1 g1 ∧
    let st := advanceStart st1 in
    ∃ m0 st2 g3,
      prepareMaze true st = Some m0 ∧
      cellAt (maze st) 1 1 ≠ Some blankCell ∧
      cellAt m0 1 1 = Some blankCell ∧
      generateMaze true st (rngOfList [0; 2; 2]%nat) = Returned true st2 g3 ∧
      start st2 = Some (mkPoint 0 2).
Proof.
  eexists _, _. split; [vm_compute; reflexivity|]. intros st.
  destruct (partial_regeneration_frame st (rngOfList [0; 2; 2]%nat)
              (mkPoint 0 2))
    as (m0 & startCell & m1 & g2 & res & st2 & g3 & Hprep & Hblank & _ & _ & _
        & Hgen & Hend & Hstart & _).
  - split; [reflexivity|repeat constructor].
  - reflexivity.
  - reflexivity.
  - reflexivity.
  - exists m0, st2, g3. split; [exact Hprep|].
    split; [vm_compute; discriminate|].
    split; [apply Hblank; [reflexivity|discriminate]|].
    split; [|exact Hstart].
    change (end_ st) with (Some (mkPoint 0 2)) in Hend.
    change (isValidCell st (row (mkPoint 0 2)) (col (mkPoint 0 2)))
      with true in Hend.
    destruct Hend as [_ Hres]. rewrite Hres in Hgen. exact Hgen.
Defined.

End GeneratorFacts.

(** ** The solver *)

Section SolverFacts.
Import MazeGrid.
Import PriorityQueue.
Implicit Types (st : State) (k n cur : Key) (s : Search)
  (vs : list (Entry Key)).

Lemma contains_keys k vs : contains k vs = true ↔ k ∈ keys vs.
Proof.
  unfold contains, keys. rewrite existsb_exists, list_elem_of_fmap.
  split.
  - intros (x & Hx & Heq). apply bool_decide_eq_true in Heq.
    exists x. split; [done|]. by apply list_elem_of_In.
  - intros (x & -> & Hx). exists x. split; [by apply list_elem_of_In|].
    by apply bool_decide_eq_true.
Qed.

Lemma keys_enqueue k p vs : keys (enqueue k p vs) ≡ₚ k :: keys vs.
Proof.
  unfold keys.
  change (k :: map val vs) with (map val (mkEntry k p :: vs)).
  apply Permutation_map, enqueue_Permutation.
Qed.

Lemma dequeue_keys vs :
  vs ≠ [] →
  ∃ cur vs', dequeue vs = (Some cur, vs') ∧ keys vs ≡ₚ cur :: keys vs'.
Proof.
  destruct vs as [|m vs]; [done|]. intros _.
  destruct (dequeue_cons m vs) as (vs' & Hd & Hp & _).
  exists (val m), vs'. split; [done|]. unfold keys. simpl.
  apply perm_skip. symmetry. by apply Permutation_map.
Qed.

Lemma isEmpty_nil vs : isEmpty vs = true ↔ vs = [].
Proof.
  unfold isEmpty. rewrite Nat.eqb_eq. by destruct vs.
Qed.

(** The neighbours of a cell of the grid exist and are cells of the grid. *)
Lemma getValidNeighbors_valid st k :
  wfMaze st (maze st) → isValidCell st k.1 k.2 = true →
  ∃ l, getValidNeighbors st k.1 k.2 = Some l ∧
       ∀ n, n ∈ l → isValidCell st n.1 n.2 = true.
Proof.
  intros Hwf Hv. destruct k as [r c]. simpl in *.
  unfold getValidNeighbors.
  destruct (wfMaze_cellAt st _ _ _ Hwf Hv) as [cell ->].
  eexists. split; [done|]. apply isValidCell_spec in Hv.
  intros n Hn. rewrite !elem_of_app in Hn.
  destruct Hn as [Hn|[Hn|[Hn|Hn]]];
    match type of Hn with
    | _ ∈ (if ?b then _ else _) => destruct b eqn:Hb
    end;
    try (by apply elem_of_nil in Hn);
    apply list_elem_of_singleton in Hn; subst n;
    apply andb_true_iff in Hb as [_ Hb];
    apply isValidCell_spec; simpl; lia.
Qed.

Lemma elem_of_allCells st k :
  k ∈ allCells st ↔ isValidCell st k.1 k.2 = true.
Proof.
  unfold allCells. rewrite isValidCell_spec, list_elem_of_bind. split.
  - intros (r & Hk & Hr). apply list_elem_of_bind in Hk as (c & Hk & Hc).
    apply list_elem_of_singleton in Hk. subst k.
    apply elem_of_seqZ in Hr, Hc. simpl. lia.
  - intros [Hr Hc]. destruct k as [r c]. simpl in *.
    exists r. split; [|apply elem_of_seqZ; lia].
    apply list_elem_of_bind. exists c.
    split; [by apply list_elem_of_singleton|apply elem_of_seqZ; lia].
Qed.

Lemma length_bind_const {A B} (f : A → list B) (l : list A) len :
  (∀ x, length (f x) = len) → length (l ≫= f) = (length l * len)%nat.
Proof.
  intros Hf. induction l as [|x l IH]; [done|].
  rewrite bind_cons, length_app, Hf, IH. simpl. lia.
Qed.

Lemma length_allCells st :
  length (allCells st) = (Z.to_nat (rows st) * Z.to_nat (cols st))%nat.
Proof.
  unfold allCells.
  rewrite (length_bind_const _ _ (Z.to_nat (cols st))).
  - by rewrite length_seqZ.
  - intros r. rewrite (length_bind_const _ _ 1%nat) by done.
    rewrite length_seqZ. lia.
Qed.

(** A set of cells of the grid that misses one cell is smaller than the
    grid. *)
Lemma size_cells_lt st (X : gset Key) k0 :
  (∀ k, k ∈ X → isValidCell st k.1 k.2 = true) →
  isValidCell st k0.1 k0.2 = true → k0 ∉ X →
  (size X < Z.to_nat (rows st * cols st))%nat.
Proof.
  intros HX Hk0 Hnot.
  assert (size ({[k0]} ∪ X) ≤ length (allCells st))%nat as Hle.
  { unfold size, set_size. simpl. apply submseteq_length.
    apply NoDup_submseteq; [apply NoDup_elements|].
    intros k Hk. apply elem_of_elements in Hk. apply elem_of_allCells.
    apply elem_of_union in Hk as [Hk|Hk]; [|by apply HX].
    apply elem_of_singleton in Hk. by subst. }
  rewrite size_union, size_singleton in Hle by set_solver.
  rewrite length_allCells in Hle.
  apply isValidCell_spec in Hk0. rewrite Z2Nat.inj_mul by lia. lia.
Qed.

Lemma passage_valid st k n :
  wfMaze st (maze st) → passage st k n →
  isValidCell st k.1 k.2 = true ∧ isValidCell st n.1 n.2 = true.
Proof.
  intros Hwf (l & Hl & Hn).
  assert (isValidCell st k.1 k.2 = true) as Hk.
  { unfold getValidNeighbors in Hl.
    destruct (cellAt (maze st) k.1 k.2) as [cell|] eqn:Hcell; [|done].
    by eapply cellAt_valid. }
  split; [done|].
  destruct (getValidNeighbors_valid st k Hwf Hk) as (l' & Hl' & Hvalid).
  apply Hvalid. congruence.
Qed.

Lemma walk_valid st l a :
  wfMaze st (maze st) → walk st l → head l = Some a →
  isValidCell st a.1 a.2 = true →
  ∀ x, x ∈ l → isValidCell st x.1 x.2 = true.
Proof.
  intros Hwf Hwalk. revert a.
  induction Hwalk as [y|y z l Hyz Hwalk IH]; intros a Hhead Ha x Hx;
    simpl in Hhead; simplify_eq.
  - apply list_elem_of_singleton in Hx. by subst.
  - apply elem_of_cons in Hx as [->|Hx]; [done|].
    apply (IH z); [done| |done]. by destruct (passage_valid st a z Hwf Hyz).
Qed.

Lemma walk_snoc st l a b :
  walk st l → last l = Some a → passage st a b → walk st (l ++ [b]).
Proof.
  intros Hw. revert a. induction Hw as [x|x y l Hxy Hw IH]; intros a Hlast Hab.
  - simpl in Hlast. simplify_eq. simpl. apply walk_cons; [done|apply walk_one].
  - rewrite last_cons_cons in Hlast. simpl.
    apply walk_cons; [done|]. by apply (IH a).
Qed.

Lemma reachable_refl st a : reachable st a a.
Proof. exists [a]. repeat split; [done..|constructor]. Qed.

Lemma reachable_step st a b k :
  reachable st a b → passage st b k → reachable st a k.
Proof.
  intros (l & Hh & Hl & Hw) Hp. exists (l ++ [k]). repeat split.
  - destruct l; [done|]. exact Hh.
  - by rewrite last_snoc.
  - by eapply walk_snoc.
Qed.

(** From a cell of the grid the corridors lead to cells of the grid. *)
Lemma reachable_valid st a b :
  wfMaze st (maze st) → isValidCell st a.1 a.2 = true →
  reachable st a b → isValidCell st b.1 b.2 = true.
Proof.
  intros Hwf Ha (l & Hh & Hl & Hw).
  apply (walk_valid st l a Hwf Hw Hh Ha). by apply last_Some_elem_of.
Qed.

(** *** The invariant of the search *)

Section SearchInvariant.
Variables (st : State) (e : Point) (sk : Key).

(** No corridor that can be followed from Start leads to a cell missing
    from [this.maze]: [getValidNeighbors] never reads [walls] of
    [undefined]. *)
Hypothesis Hcells :
  ∀ k, reachable st sk k → is_Some (cellAt (maze st) k.1 k.2).

(** One round of the neighbour loop keeps the invariant, keeps what is
    waiting in the open set, and leaves the neighbour closed or waiting. *)
Lemma relax_core s cur n :
  core st e sk s → sk ∈ closedSet s → cur ∈ closedSet s →
  passage st cur n →
  ∃ s', relax e cur s n = Some s' ∧ core st e sk s' ∧
        closedSet s' = closedSet s ∧
        (∀ k, k ∈ keys (openSet s) → k ∈ keys (openSet s')) ∧
        (n ∈ closedSet s' ∨ n ∈ keys (openSet s')).
Proof.
  intros Hc Hsk Hcur Hpass. unfold relax.
  destruct (decide (n ∈ closedSet s)) as [Hn|Hn].
  { exists s. do 4 (split; [done|]). by left. }
  destruct (proj2 (core_known st e sk s Hc cur) (or_introl Hcur)) as [g Hg].
  rewrite Hg.
  assert (n ≠ sk) as Hnsk by (intros ->; done).
  assert (n ≠ cur) as Hncur by (intros ->; done).
  destruct (match gScore s !! n with
            | Some gn => g + 1 <? gn
            | None => true
            end) eqn:Himprove.
  2:{ (* the known score is not improved *)
      exists s. do 4 (split; [done|]).
      destruct (gScore s !! n) as [gn|] eqn:Hgn; [|done].
      destruct (proj1 (core_known st e sk s Hc n)) as [?|?]; [by eexists|done|].
      by right. }
  set (f := g + 1 + heuristic e n.1 n.2).
  set (open' := if contains n (openSet s) then openSet s
                else enqueue n f (openSet s)).
  assert (∀ k, k ∈ keys open' ↔ k = n ∨ k ∈ keys (openSet s)) as Hkeys.
  { intros k. subst open'.
    destruct (contains n (openSet s)) eqn:Hcont.
    - apply contains_keys in Hcont. split; [by right|].
      intros [->|]; done.
    - rewrite (keys_enqueue n f (openSet s)). apply elem_of_cons. }
  assert (NoDup (keys open')) as Hnodup.
  { subst open'. destruct (contains n (openSet s)) eqn:Hcont.
    - apply (core_nodup st e sk s Hc).
    - rewrite (keys_enqueue n f (openSet s)). apply NoDup_cons. split.
      + intros Hin. apply contains_keys in Hin. congruence.
      + apply (core_nodup st e sk s Hc). }
  eexists. split; [reflexivity|]. cbn [openSet closedSet].
  split; [|split; [done|split; [|by right; apply Hkeys; left]]].
  2:{ intros k Hk. apply Hkeys. by right. }
  constructor; cbn [openSet closedSet cameFrom gScore fScore].
  - done.
  - intros k [->|Hk]%Hkeys; [done|]. by apply (core_open_not_closed st e sk s Hc).
  - intros k. rewrite lookup_insert_is_Some, Hkeys.
    rewrite (core_known st e sk s Hc k).
    destruct (decide (n = k)) as [->|]; intuition congruence.
  - intros k [<-|[_ Hk]]%lookup_insert_is_Some;
      [|by apply (core_valid st e sk s Hc)].
    eapply reachable_step; [|exact Hpass].
    apply (core_valid st e sk s Hc). by eexists.
  - apply (core_end_open st e sk s Hc).
  - rewrite lookup_insert_ne by done. apply (core_start st e sk s Hc).
  - intros k p. destruct (decide (n = k)) as [<-|Hnk].
    + rewrite lookup_insert_eq. intros [= <-].
      split; [done|]. split; [done|]. exists g.
      by rewrite lookup_insert_ne, lookup_insert_eq.
    + rewrite lookup_insert_ne by done. intros Hp.
      destruct (core_from st e sk s Hc k p Hp) as (Hpc & Hpp & g' & Hgp & Hgk).
      split; [done|]. split; [done|]. exists g'.
      rewrite !lookup_insert_ne; [done|done|]. by intros ->.
  - rewrite lookup_insert_ne by done. apply (core_from_start st e sk s Hc).
  - intros k Hk Hksk. destruct (decide (n = k)) as [<-|Hnk].
    + rewrite lookup_insert_eq. by eexists.
    + rewrite lookup_insert_ne by done. rewrite lookup_insert_ne in Hk by done.
      by apply (core_from_known st e sk s Hc).
  - intros k g'. rewrite map_size_insert.
    assert (size (cameFrom s) ≤
            (match cameFrom s !! n with Some _ => id | None => S end)
              (size (cameFrom s)))%nat as Hsize
      by (destruct (cameFrom s !! n); simpl; lia).
    destruct (decide (n = k)) as [<-|Hnk].
    + rewrite lookup_insert_eq. intros [= <-].
      pose proof (core_score st e sk s Hc cur g Hg) as Hgs.
      destruct (cameFrom s !! n) as [p|] eqn:Hfrom; simpl; [|lia].
      destruct (core_from st e sk s Hc n p Hfrom) as (_ & _ & g' & _ & Hgn).
      rewrite Hgn in Himprove. apply Z.ltb_lt in Himprove.
      pose proof (core_score st e sk s Hc n _ Hgn). lia.
    + rewrite lookup_insert_ne by done. intros Hk.
      pose proof (core_score st e sk s Hc k g' Hk). lia.
Qed.

Lemma relaxAll_core s cur l :
  core st e sk s → sk ∈ closedSet s → cur ∈ closedSet s →
  (∀ n, n ∈ l → passage st cur n) →
  ∃ s', relaxAll e cur s l = Some s' ∧ core st e sk s' ∧
        closedSet s' = closedSet s ∧
        (∀ k, k ∈ keys (openSet s) → k ∈ keys (openSet s')) ∧
        (∀ n, n ∈ l → n ∈ closedSet s' ∨ n ∈ keys (openSet s')).
Proof.
  revert s. induction l as [|n l IH]; intros s Hc Hsk Hcur Hl.
  - exists s. do 4 (split; [done|]). intros n Hn. by apply elem_of_nil in Hn.
  - pose proof (Hl n ltac:(by left)) as Hpass.
    destruct (relax_core s cur n Hc Hsk Hcur Hpass)
      as (s1 & Hrelax & Hc1 & Hclosed1 & Hmono1 & Hn1).
    destruct (IH s1 Hc1) as (s2 & Hall & Hc2 & Hclosed2 & Hmono2 & Hl2).
    { by rewrite Hclosed1. }
    { by rewrite Hclosed1. }
    { intros n' Hn'. apply Hl. by right. }
    exists s2. cbn [relaxAll]. rewrite Hrelax.
    split; [done|]. split; [done|]. split; [congruence|].
    split; [by auto|].
    intros n' [->|Hn']%elem_of_cons; [|by apply Hl2].
    rewrite Hclosed2. destruct Hn1 as [?|?]; [by left|right; by apply Hmono2].
Qed.


(** Following [cameFrom] back from a discovered key leads to Start along
    passages; the scores along the way count the steps. *)
Lemma reconstructFrom_core s fuel k g path :
  core st e sk s → gScore s !! k = Some g → (Z.to_nat g ≤ fuel)%nat →
  ∃ pre, reconstructFrom fuel (cameFrom s) k path = Some (pre ++ path) ∧
         head (pre ++ [k]) = Some sk ∧ walk st (pre ++ [k]) ∧
         ∀ i x, (pre ++ [k]) !! i = Some x →
                gScore s !! x = Some (Z.of_nat i).
Proof.
  intros Hc. revert k g path.
  assert (∀ k g, gScore s !! k = Some g → cameFrom s !! k = None →
                 k = sk ∧ g = 0) as Hroot.
  { intros k g Hg Hfrom. destruct (decide (k = sk)) as [->|Hne].
    - split; [done|]. pose proof (core_start st e sk s Hc). congruence.
    - destruct (core_from_known st e sk s Hc k) as [p Hp];
        [by eexists|done|congruence]. }
  assert (∀ k g, gScore s !! k = Some g → cameFrom s !! k = None →
            head ([] ++ [k]) = Some sk ∧ walk st ([] ++ [k]) ∧
            ∀ i x, ([] ++ [k]) !! i = Some x →
                   gScore s !! x = Some (Z.of_nat i)) as Hbase.
  { intros k g Hg Hfrom. destruct (Hroot k g Hg Hfrom) as [-> ->].
    split; [done|]. split; [apply walk_one|].
    intros [|i] x Hx; simplify_eq/=. done. }
  induction fuel as [|fuel IH]; intros k g path Hg Hfuel.
  - cbn [reconstructFrom].
    destruct (cameFrom s !! k) as [p|] eqn:Hfrom.
    + destruct (core_from st e sk s Hc k p Hfrom) as (_ & _ & g' & Hgp & Hgk).
      pose proof (core_score st e sk s Hc p g' Hgp). simplify_eq. lia.
    + exists []. split; [done|]. by apply (Hbase k g).
  - cbn [reconstructFrom].
    destruct (cameFrom s !! k) as [p|] eqn:Hfrom.
    2:{ exists []. split; [done|]. by apply (Hbase k g). }
    destruct (core_from st e sk s Hc k p Hfrom) as (_ & Hpass & g' & Hgp & Hgk).
    pose proof (core_score st e sk s Hc p g' Hgp) as Hg'.
    assert (g = g' + 1) as -> by congruence.
    destruct (IH p g' (p :: path) Hgp ltac:(lia))
      as (pre & Hrec & Hhead & Hwalk & Hidx).
    exists (pre ++ [p]). split; [by rewrite <- app_assoc|].
    split; [|split].
    + by destruct pre.
    + eapply walk_snoc; [done|apply last_snoc|done].
    + intros i x Hx.
      destruct (decide (i < length (pre ++ [p]))%nat) as [Hlt|Hge].
      * rewrite lookup_app_l in Hx by done. by apply Hidx.
      * rewrite lookup_app_r in Hx by lia.
        destruct (i - length (pre ++ [p]))%nat eqn:Hi; [|done].
        simpl in Hx. injection Hx as <-.
        assert (i = length (pre ++ [p])) as -> by lia.
        pose proof (Hidx (length pre) p) as Hp.
        rewrite lookup_app_r, Nat.sub_diag in Hp by lia.
        specialize (Hp eq_refl). rewrite Hgp in Hp. injection Hp as ->.
        rewrite length_app. simpl. rewrite Hg. f_equal. lia.
Qed.

Lemma reconstructPath_core s k :
  core st e sk s → is_Some (gScore s !! k) →
  ∃ p, reconstructPath (cameFrom s) k = Some p ∧ simplePath st sk k p.
Proof.
  intros Hc [g Hg]. unfold reconstructPath.
  pose proof (core_score st e sk s Hc k g Hg) as Hscore.
  destruct (reconstructFrom_core s (size (cameFrom s)) k g [k] Hc Hg
              ltac:(lia)) as (pre & Hrec & Hhead & Hwalk & Hidx).
  exists (pre ++ [k]). split; [done|].
  split; [done|]. split; [apply last_snoc|]. split; [done|].
  apply NoDup_alt. intros i j x Hi Hj.
  pose proof (Hidx i x Hi). pose proof (Hidx j x Hj).
  assert (Z.of_nat i = Z.of_nat j) by congruence. lia.
Qed.

(** Cells reached from a set closed under passages stay in the set. *)
Lemma walk_closed (X : gset Key) l a :
  (∀ k n, k ∈ X → passage st k n → n ∈ X) →
  walk st l → head l = Some a → a ∈ X → ∀ x, x ∈ l → x ∈ X.
Proof.
  intros HX Hw. revert a.
  induction Hw as [y|y z l Hyz Hw IH]; intros a Hhead Ha x Hx;
    simpl in Hhead; simplify_eq.
  - apply list_elem_of_singleton in Hx. by subst.
  - apply elem_of_cons in Hx as [->|Hx]; [done|].
    apply (IH z); [done| |done]. by apply (HX a).
Qed.

(** One round of the main loop that does not dequeue End keeps the loop
    invariant. *)
Lemma loop_round s count cur open' :
  loopInv st e sk s count →
  keys (openSet s) ≡ₚ cur :: keys open' → cur ≠ (row e, col e) →
  ∃ l s2,
    getValidNeighbors st cur.1 cur.2 = Some l ∧
    relaxAll e cur
      (mkSearch open' ({[cur]} ∪ closedSet s) (cameFrom s) (gScore s)
                (fScore s)) l = Some s2 ∧
    loopInv st e sk s2 (S count).
Proof.
  intros (Hc & Hclosure & Hstart & Hcount) Hperm Hne.
  assert (NoDup (cur :: keys open')) as Hnd
    by (rewrite <- Hperm; apply (core_nodup st e sk s Hc)).
  apply NoDup_cons in Hnd as [Hcur_out Hnd].
  assert (∀ k, k ∈ keys (openSet s) ↔ k = cur ∨ k ∈ keys open') as Hkeys.
  { intros k. rewrite Hperm. apply elem_of_cons. }
  assert (cur ∉ closedSet s) as Hcur_open
    by (apply (core_open_not_closed st e sk s Hc), Hkeys; by left).
  assert (∃ l, getValidNeighbors st cur.1 cur.2 = Some l) as [l Hl].
  { destruct (Hcells cur) as [cell Hcell].
    - apply (core_valid st e sk s Hc), (core_known st e sk s Hc).
      right. apply Hkeys. by left.
    - unfold getValidNeighbors. rewrite Hcell. by eexists. }
  set (s1 := mkSearch open' ({[cur]} ∪ closedSet s) (cameFrom s) (gScore s)
                      (fScore s)).
  assert (core st e sk s1) as Hc1.
  { constructor; cbn [s1 openSet closedSet cameFrom gScore fScore].
    - done.
    - intros k Hk. apply not_elem_of_union. split.
      + apply not_elem_of_singleton. by intros ->.
      + apply (core_open_not_closed st e sk s Hc), Hkeys. by right.
    - intros k. rewrite (core_known st e sk s Hc k), Hkeys.
      rewrite elem_of_union, elem_of_singleton. tauto.
    - apply (core_valid st e sk s Hc).
    - apply not_elem_of_union. split.
      + apply not_elem_of_singleton. congruence.
      + apply (core_end_open st e sk s Hc).
    - apply (core_start st e sk s Hc).
    - intros k p Hp. destruct (core_from st e sk s Hc k p Hp) as (? & ? & ?).
      split; [|done]. apply elem_of_union. by right.
    - apply (core_from_start st e sk s Hc).
    - apply (core_from_known st e sk s Hc).
    - apply (core_score st e sk s Hc). }
  assert (sk ∈ closedSet s1) as Hsk1.
  { cbn [s1 closedSet]. apply elem_of_union.
    destruct Hstart as [?|Hone]; [by right|left].
    apply elem_of_singleton.
    assert (sk ∈ keys (openSet s)) as Hin by (rewrite Hone; by left).
    apply Hkeys in Hin as [->|Hin]; [done|].
    assert (length (keys (openSet s)) = 1%nat) as Hlen by (by rewrite Hone).
    rewrite Hperm in Hlen. simpl in Hlen.
    destruct (keys open'); [by apply elem_of_nil in Hin|done]. }
  destruct (relaxAll_core s1 cur l Hc1 Hsk1) as
    (s2 & Hrelax & Hc2 & Hclosed2 & Hmono2 & Hl2).
  { cbn [s1 closedSet]. apply elem_of_union. left. by apply elem_of_singleton. }
  { intros n Hn. by exists l. }
  exists l, s2. split; [done|]. split; [done|].
  split; [done|]. split; [|split].
  - intros k n Hk Hpass. rewrite Hclosed2 in *. cbn [s1 closedSet] in *.
    apply elem_of_union in Hk as [Hk|Hk].
    + apply elem_of_singleton in Hk. subst k.
      destruct Hpass as (l' & Hl' & Hn). rewrite Hl in Hl'.
      injection Hl' as <-. by apply Hl2.
    + destruct (Hclosure k n Hk Hpass) as [Hn|Hn].
      * left. apply elem_of_union. by right.
      * apply Hkeys in Hn as [->|Hn].
        -- left. apply elem_of_union. left. by apply elem_of_singleton.
        -- right. by apply Hmono2.
  - left. by rewrite Hclosed2.
  - rewrite Hclosed2. cbn [s1 closedSet].
    rewrite size_union, size_singleton by set_solver. lia.
Qed.

(** The main loop returns normally. When it returns [true] the path is a
    simple path from Start to End, and on a grid with Start in it, it does
    return [true] when End is a cell that can be reached and the cap still
    allows every cell to be dequeued once. *)
Lemma solveLoop_spec remaining s count :
  loopInv st e sk s count →
  ∃ r, solveLoop remaining st e s count = Some r ∧
       (found r = true → simplePath st sk (row e, col e) (path r)) ∧
       (wfMaze st (maze st) → isValidCell st sk.1 sk.2 = true →
        reachable st sk (row e, col e) →
        isValidCell st (row e) (col e) = true →
        (Z.to_nat (rows st * cols st) ≤ count + remaining)%nat →
        found r = true).
Proof.
  revert s count. induction remaining as [|remaining IH]; intros s count Hinv.
  - pose proof Hinv as (Hc & Hclosure & Hstart & Hcount).
    cbn [solveLoop]. destruct (isEmpty (openSet s)) eqn:Hempty.
    + eexists. split; [done|]. split; [done|].
      intros _ _ (l & Hhead & Hlast & Hwalk) _ _. exfalso.
      apply isEmpty_nil in Hempty. rewrite Hempty in *.
      destruct Hstart as [Hsk|?]; [|done].
      apply (core_end_open st e sk s Hc).
      apply (walk_closed (closedSet s) l sk); [|done|done|done|].
      * intros k n Hk Hpass. destruct (Hclosure k n Hk Hpass) as [?|Hn];
          [done|by apply elem_of_nil in Hn].
      * by apply last_Some_elem_of.
    + eexists. split; [done|]. split; [done|].
      intros Hwf Hsk _ Hvalid Hcap. exfalso.
      pose proof (size_cells_lt st (closedSet s) (row e, col e)) as Hlt.
      rewrite <- Hcount in Hlt.
      assert (count < Z.to_nat (rows st * cols st))%nat; [|lia].
      apply Hlt; [|done|apply (core_end_open st e sk s Hc)].
      intros k Hk. apply (reachable_valid st sk k Hwf Hsk).
      apply (core_valid st e sk s Hc).
      apply (core_known st e sk s Hc). by left.
  - pose proof Hinv as (Hc & Hclosure & Hstart & Hcount).
    cbn [solveLoop]. destruct (isEmpty (openSet s)) eqn:Hempty.
    + eexists. split; [done|]. split; [done|].
      intros _ _ (l & Hhead & Hlast & Hwalk) _ _. exfalso.
      apply isEmpty_nil in Hempty. rewrite Hempty in *.
      destruct Hstart as [Hsk|?]; [|done].
      apply (core_end_open st e sk s Hc).
      apply (walk_closed (closedSet s) l sk); [|done|done|done|].
      * intros k n Hk Hpass. destruct (Hclosure k n Hk Hpass) as [?|Hn];
          [done|by apply elem_of_nil in Hn].
      * by apply last_Some_elem_of.
    + destruct (dequeue_keys (openSet s)) as (cur & open' & Hdeq & Hperm).
      { intros Hnil. apply isEmpty_nil in Hnil. congruence. }
      rewrite Hdeq.
      destruct (decide (cur = (row e, col e))) as [Hcur|Hcur].
      * destruct (reconstructPath_core s cur Hc) as (p & Hrec & Hpath).
        { apply (core_known st e sk s Hc). right. rewrite Hperm. by left. }
        rewrite Hrec. eexists. split; [done|]. cbn [found path].
        split; [|done]. intros _. by rewrite <- Hcur.
      * destruct (loop_round s count cur open' Hinv Hperm Hcur)
          as (l & s2 & Hl & Hrelax & Hinv2).
        rewrite Hl, Hrelax.
        destruct (IH s2 (S count) Hinv2) as (r & Hr & Hfound & Hreach).
        exists r. split; [done|]. split; [done|].
        intros ? ? ? ? ?. apply Hreach; [done..|lia].
Qed.

(** The state [solveMaze] starts its main loop with. *)
Lemma loopInv_initial :
  loopInv st e sk
    (mkSearch (enqueue sk 0 []) ∅ ∅ {[sk := 0]}
              {[sk := heuristic e sk.1 sk.2]}) 0.
Proof.
  change (enqueue sk 0 []) with [mkEntry sk 0].
  split; [|split; [|split]].
  - constructor; cbn [openSet closedSet cameFrom gScore fScore keys map val].
    + apply NoDup_singleton.
    + intros k _. apply not_elem_of_empty.
    + intros k. rewrite lookup_singleton_is_Some, list_elem_of_singleton.
      split; [intros ->; by right|]. intros [Hk|Hk]; [|done].
      by apply not_elem_of_empty in Hk.
    + intros k ->%lookup_singleton_is_Some. apply reachable_refl.
    + apply not_elem_of_empty.
    + apply lookup_singleton_eq.
    + intros k p. by rewrite lookup_empty.
    + apply lookup_empty.
    + intros k ->%lookup_singleton_is_Some. done.
    + intros k g [-> <-]%lookup_singleton_Some. rewrite map_size_empty. lia.
  - intros k n Hk. by apply not_elem_of_empty in Hk.
  - by right.
  - cbn [closedSet]. by rewrite size_empty.
Qed.

End SearchInvariant.

(** *** The bound on the rounds *)

Lemma solveLoop_dequeues remaining st e s count r :
  solveLoop remaining st e s count = Some r →
  (dequeues r ≤ count + remaining)%nat ∧
  (found r = true ↔ stop r = ReachedEnd) ∧
  (found r = false → path r = []).
Proof.
  revert s count. induction remaining as [|remaining IH]; intros s count;
    cbn [solveLoop].
  - destruct (isEmpty (openSet s)); intros [= <-]; simpl;
      (split; [lia|]); by split.
  - destruct (isEmpty (openSet s)).
    { intros [= <-]; simpl; (split; [lia|]); by split. }
    destruct (dequeue (openSet s)) as [[cur|] open']; [|done].
    destruct (decide (cur = (row e, col e))).
    + destruct (reconstructPath (cameFrom s) cur) as [p|]; [|done].
      intros [= <-]; simpl; (split; [lia|]); by split.
    + destruct (getValidNeighbors st cur.1 cur.2) as [l|]; [|done].
      destruct (relaxAll e cur _ l) as [s2|]; [|done].
      intros Hr. destruct (IH _ _ Hr) as (? & ? & ?).
      split; [lia|]. by split.
Qed.

(** The loop stops on the cap only when every round the cap allows has
    been run. *)
Lemma solveLoop_cap remaining st e s count r :
  solveLoop remaining st e s count = Some r →
  stop r = CapReached → dequeues r = (count + remaining)%nat.
Proof.
  revert s count. induction remaining as [|remaining IH]; intros s count;
    cbn [solveLoop].
  - destruct (isEmpty (openSet s)); intros [= <-]; simpl; [done|lia].
  - destruct (isEmpty (openSet s)); [by intros [= <-]|].
    destruct (dequeue (openSet s)) as [[cur|] open']; [|done].
    destruct (decide (cur = (row e, col e))).
    + destruct (reconstructPath (cameFrom s) cur) as [p|]; [|done].
      by intros [= <-].
    + destruct (getValidNeighbors st cur.1 cur.2) as [l|]; [|done].
      destruct (relaxAll e cur _ l) as [s2|]; [|done].
      intros Hr Hstop. rewrite (IH _ _ Hr Hstop). lia.
Qed.

(** C6. In every state in which the corridors that can be followed from
    Start lead to cells of [this.maze] only (no round reads the [walls] of
    a missing cell), whatever [rows], [cols], Start and End are,
    [solveMaze] returns a Boolean without a [TypeError]: it dequeues at
    most [rows * cols] keys, and it returns [true] only when it has
    dequeued End. Running into the cap, which happens after exactly
    [rows * cols] dequeues, and running out of open keys both end in the
    same [return false], with no path. *)
Theorem solveMaze_capped_and_total (st : State) (ps pe : Point) :
  solving st = false →
  start st = Some ps → end_ st = Some pe →
  (∀ k, reachable st (row ps, col ps) k →
        is_Some (cellAt (maze st) k.1 k.2)) →
  ∃ r, solveMaze st = SolveReturned r ∧
       (dequeues r ≤ Z.to_nat (rows st * cols st))%nat ∧
       (found r = true ↔ stop r = ReachedEnd) ∧
       (stop r = OpenSetEmpty ∨ stop r = CapReached →
        found r = false ∧ path r = []) ∧
       (stop r = CapReached → dequeues r = Z.to_nat (rows st * cols st)).
Proof.
  intros Hsolving Hs He Hcells. unfold solveMaze.
  rewrite Hsolving, Hs, He.
  destruct (solveLoop_spec st pe (row ps, col ps) Hcells
              (Z.to_nat (rows st * cols st)) _ 0%nat
              (loopInv_initial st pe (row ps, col ps) Hcells))
    as (r & Hr & _ & _).
  simpl in Hr. rewrite Hr. exists r. split; [done|].
  destruct (solveLoop_dequeues _ _ _ _ _ _ Hr) as (Hle & Hfound & Hpath).
  split; [lia|]. split; [done|]. split.
  - intros Hstop.
    assert (found r = false) as Hf.
    { destruct (found r); [|done].
      destruct Hfound as [Hfound _]. rewrite Hfound in Hstop by done.
      by destruct Hstop. }
    split; [done|by apply Hpath].
  - intros Hstop. by rewrite (solveLoop_cap _ _ _ _ _ _ Hr Hstop).
Qed.

(** *** The solver finds End *)

(** Whenever End is a cell that can be reached from Start, [solveMaze]
    returns [true] with a simple path from Start to End. *)
Lemma solveMaze_finds_path st (ps pe : Point) :
  wfMaze st (maze st) → solving st = false →
  start st = Some ps → end_ st = Some pe →
  isValidCell st (row ps) (col ps) = true →
  isValidCell st (row pe) (col pe) = true →
  reachable st (row ps, col ps) (row pe, col pe) →
  ∃ r, solveMaze st = SolveReturned r ∧ found r = true ∧
       simplePath st (row ps, col ps) (row pe, col pe) (path r).
Proof.
  intros Hwf Hsolving Hs He Hvs Hve Hreach. unfold solveMaze.
  rewrite Hsolving, Hs, He.
  assert (∀ k, reachable st (row ps, col ps) k →
               is_Some (cellAt (maze st) k.1 k.2)) as Hcells.
  { intros k Hk. apply (wfMaze_cellAt st _ _ _ Hwf).
    by apply (reachable_valid st (row ps, col ps) k). }
  destruct (solveLoop_spec st pe (row ps, col ps) Hcells
              (Z.to_nat (rows st * cols st)) _ 0%nat
              (loopInv_initial st pe (row ps, col ps) Hcells))
    as (r & Hr & Hpath & Hfound).
  simpl in Hr. rewrite Hr. exists r. split; [done|].
  assert (found r = true) as Hf by (apply Hfound; [done..|lia]).
  split; [done|by apply Hpath].
Qed.

Lemma walk_app_r st l1 l2 : l2 ≠ [] → walk st (l1 ++ l2) → walk st l2.
Proof.
  intros Hl2. induction l1 as [|x l1 IH]; [done|].
  simpl. intros Hw. apply IH. inversion Hw as [|? y l Hxy Hw' Heq]; subst.
  - destruct l1, l2; done.
  - done.
Qed.

(** A walk can be cut down to a simple path between the same cells. *)
Lemma walk_simplePath st l a b :
  walk st l → head l = Some a → last l = Some b →
  ∃ l', simplePath st a b l' ∧ (length l' ≤ length l)%nat.
Proof.
  intros Hw. revert a. induction Hw as [x|x y l Hxy Hw IH]; intros a Hh Hl.
  - simpl in Hh, Hl. injection Hh as ->. injection Hl as ->. exists [b].
    split; [|done]. split; [done|]. split; [done|].
    split; [apply walk_one|apply NoDup_singleton].
  - simpl in Hh. injection Hh as ->. rewrite last_cons_cons in Hl.
    destruct (IH y eq_refl Hl) as (l1 & (Hh1 & Hl1 & Hw1 & Hnd1) & Hlen1).
    destruct (decide (a ∈ l1)) as [Hin|Hout].
    + apply list_elem_of_split in Hin as (pre & suf & ->).
      exists (a :: suf). split.
      * split; [done|]. split; [by rewrite last_app_cons in Hl1|].
        split; [by apply (walk_app_r st pre)|].
        by apply NoDup_app in Hnd1 as (_ & _ & ?).
      * rewrite length_app in Hlen1. simpl in *. lia.
    + exists (a :: l1). split.
      * split; [done|]. split.
        { destruct l1; [done|]. by rewrite last_cons_cons. }
        split; [|by apply NoDup_cons].
        destruct l1 as [|z l1]; [done|]. simpl in Hh1. simplify_eq.
        by apply walk_cons.
      * simpl in *. lia.
Qed.

(** C2. In a fully carved maze (one simple path between every two cells)
    with Start and End in the grid, [solveMaze] returns [true], and the
    number of steps of the reconstructed path is the tree distance between
    Start and End: the path is the one simple path from Start to End, and
    no walk from Start to End is shorter. *)
Theorem solveMaze_tree_distance (st : State) (ps pe : Point) :
  wfMaze st (maze st) → solving st = false →
  start st = Some ps → end_ st = Some pe →
  isValidCell st (row ps) (col ps) = true →
  isValidCell st (row pe) (col pe) = true →
  spanningTree st →
  ∃ r, solveMaze st = SolveReturned r ∧ found r = true ∧
       simplePath st (row ps, col ps) (row pe, col pe) (path r) ∧
       treeDistance st (row ps, col ps) (row pe, col pe)
         (length (path r) - 1) ∧
       (∀ d, treeDistance st (row ps, col ps) (row pe, col pe) d →
             d = (length (path r) - 1)%nat) ∧
       (∀ l, walk st l → head l = Some (row ps, col ps) →
             last l = Some (row pe, col pe) →
             (length (path r) ≤ length l)%nat).
Proof.
  intros Hwf Hsolving Hs He Hvs Hve Htree.
  destruct (Htree (row ps, col ps) (row pe, col pe)) as [[l0 Hl0] Huniq].
  { by apply elem_of_allCells. }
  { by apply elem_of_allCells. }
  destruct (solveMaze_finds_path st ps pe Hwf Hsolving Hs He Hvs Hve)
    as (r & Hr & Hfound & Hpath).
  { destruct Hl0 as (? & ? & ? & _). by exists l0. }
  exists r. do 3 (split; [done|]).
  assert (length (path r) ≠ 0%nat) as Hlen.
  { destruct Hpath as (Hhead & _). by destruct (path r). }
  split; [|split].
  - exists (path r). split; [done|lia].
  - intros d (l & Hl & Hd). rewrite (Huniq l (path r) Hl Hpath) in Hd. lia.
  - intros l Hw Hh Hl.
    destruct (walk_simplePath st l _ _ Hw Hh Hl) as (l' & Hl' & Hle).
    by rewrite (Huniq (path r) l' Hpath Hl').
Qed.

(** *** Checking that a maze is a spanning tree *)

Lemma passage_neighborsOf st k n : passage st k n ↔ n ∈ neighborsOf st k.
Proof.
  unfold passage, neighborsOf. split.
  - intros (l & -> & Hn). done.
  - destruct (getValidNeighbors st k.1 k.2) as [l|]; simpl.
    + intros Hn. by exists l.
    + intros Hn. by apply elem_of_nil in Hn.
Qed.


Lemma pathsFrom_sound fuel st seen cur l :
  l ∈ pathsFrom fuel st seen cur →
  head l = Some cur ∧ walk st l ∧ NoDup l ∧ ∀ x, x ∈ l → x ∉ seen ∨ x = cur.
Proof.
  revert seen cur l. induction fuel as [|fuel IH]; intros seen cur l;
    cbn [pathsFrom].
  - intros ->%list_elem_of_singleton.
    split; [done|]. split; [apply walk_one|]. split; [apply NoDup_singleton|].
    intros x ->%list_elem_of_singleton. by right.
  - intros [->|Hl]%elem_of_cons.
    { split; [done|]. split; [apply walk_one|].
      split; [apply NoDup_singleton|].
      intros x ->%list_elem_of_singleton. by right. }
    apply list_elem_of_bind in Hl as (n & Hl & Hn).
    case_bool_decide as Hseen; [by apply elem_of_nil in Hl|].
    apply list_elem_of_fmap in Hl as (l' & -> & Hl').
    destruct (IH _ _ _ Hl') as (Hhead & Hwalk & Hnodup & Havoid).
    destruct l' as [|y l']; [done|]. simpl in Hhead. simplify_eq.
    split; [done|]. split.
    { apply walk_cons; [by apply passage_neighborsOf|done]. }
    split.
    + apply NoDup_cons. split; [|done].
      intros Hin. destruct (Havoid cur Hin) as [Hout| ->].
      * apply Hout. by left.
      * apply Hseen. by left.
    + intros x [->|Hx]%elem_of_cons; [by right|].
      destruct (Havoid x Hx) as [Hout| ->].
      * left. intros ?. apply Hout. by right.
      * left. intros ?. apply Hseen. by right.
Qed.

Lemma pathsFrom_complete fuel st seen cur l :
  walk st l → NoDup l → head l = Some cur →
  (∀ x, x ∈ l → x ∉ seen) → (length l ≤ S fuel)%nat →
  l ∈ pathsFrom fuel st seen cur.
Proof.
  revert seen cur l. induction fuel as [|fuel IH];
    intros seen cur l Hwalk Hnodup Hhead Havoid Hlen.
  - destruct Hwalk as [a|a b l]; simpl in *; [|lia]. simplify_eq. by left.
  - cbn [pathsFrom]. destruct Hwalk as [a|a b l Hab Hwalk]; simpl in Hhead;
      simplify_eq; [by left|].
    right. apply list_elem_of_bind. exists b.
    split; [|by apply passage_neighborsOf].
    apply NoDup_cons in Hnodup as [Hcur Hnodup].
    rewrite bool_decide_eq_false_2.
    2:{ intros [->|Hb]%elem_of_cons.
        - apply Hcur. by left.
        - apply (Havoid b); [right; by left|done]. }
    apply list_elem_of_fmap. exists (b :: l). split; [done|].
    apply IH; try done.
    + intros x Hx [->|Hseen]%elem_of_cons; [done|].
      apply (Havoid x); [by right|done].
    + simpl in *. lia.
Qed.


Lemma NoDup_fmap_eq {A B} (f : A → B) (l : list A) x y :
  NoDup (f <$> l) → x ∈ l → y ∈ l → f x = f y → x = y.
Proof.
  induction l as [|z l IH]; [by intros _ ?%elem_of_nil|].
  rewrite fmap_cons, NoDup_cons. intros [Hz Hnodup] Hx Hy Heq.
  apply elem_of_cons in Hx as [->|Hx]; apply elem_of_cons in Hy as [->|Hy].
  - done.
  - exfalso. apply Hz. rewrite Heq. by apply list_elem_of_fmap_2.
  - exfalso. apply Hz. rewrite <- Heq. by apply list_elem_of_fmap_2.
  - by apply IH.
Qed.

(** The check is sound. *)
Lemma spanningTreeb_sound st :
  wfMaze st (maze st) → spanningTreeb st = true → spanningTree st.
Proof.
  intros Hwf Hcheck a b Ha Hb.
  unfold spanningTreeb in Hcheck. rewrite forallb_forall in Hcheck.
  specialize (Hcheck a ltac:(by apply list_elem_of_In)).
  apply andb_true_iff in Hcheck as [Hnodup Hall].
  apply bool_decide_eq_true in Hnodup.
  rewrite forallb_forall in Hall.
  specialize (Hall b ltac:(by apply list_elem_of_In)).
  apply bool_decide_eq_true in Hall. unfold pathEnds in *.
  split.
  - apply list_elem_of_fmap in Hall as (l & Hlast & Hl).
    destruct (pathsFrom_sound _ _ _ _ _ Hl) as (Hhead & Hwalk & Hnd & _).
    exists l. split; [done|]. split; [|done].
    destruct (last l) as [x|] eqn:Hx; simpl in Hlast; [by subst|].
    apply last_None in Hx. by subst.
  - assert (∀ l, simplePath st a b l →
                 l ∈ pathsFrom (length (allCells st)) st [] a) as Hin.
    { intros l (Hhead & Hlast & Hwalk & Hnd).
      apply pathsFrom_complete; try done.
      - intros x _. apply not_elem_of_nil.
      - apply Nat.le_le_succ_r, submseteq_length, NoDup_submseteq; [done|].
        intros x Hx. apply elem_of_allCells.
        apply (walk_valid st l a Hwf Hwalk Hhead); [|done].
        by apply elem_of_allCells. }
    intros l1 l2 H1 H2.
    apply (NoDup_fmap_eq _ _ l1 l2 Hnodup); [by apply Hin|by apply Hin|].
    destruct H1 as (_ & -> & _), H2 as (_ & -> & _). done.
Qed.

(** *** Instances *)

(** A state in which the cap is reached: [rows = cols = 1] over a row of
    three cells joined by corridors, Start at (0,2) and End at (0,0). The
    one round the cap allows dequeues Start and opens (0,1); the loop then
    stops on the cap and [solveMaze] returns [false], although corridors
    lead from Start to End. *)
Lemma solveMaze_capped_and_total_witness :
  let st :=
    mkState 1 1 12 false false false
      [[mkCell false (mkWalls true false true true) true;
        mkCell false (mkWalls true false true false) true;
        mkCell false (mkWalls true true true false) true]]
      (Some (mkPoint 0 2)) (Some (mkPoint 0 0)) [] in
  ∃ r, solveMaze st = SolveReturned r ∧
       dequeues r = 1%nat ∧ stop r = CapReached ∧
       found r = false ∧ path r = [].
Proof.
  intros st.
  destruct (solveMaze_capped_and_total st (mkPoint 0 2) (mkPoint 0 0))
    as (r & Hr & _ & _ & Hfalse & Hcap).
  - reflexivity.
  - reflexivity.
  - reflexivity.
  - intros k (l & Hhead & Hlast & Hwalk).
    assert (k ∈ ({[(0, 2); (0, 1); (0, 0)]} : gset Key)) as Hk.
    { apply (walk_closed st _ l (0, 2)); [|done|done| |].
      - intros a b Ha (l' & Hl' & Hb).
        rewrite !elem_of_union, !elem_of_singleton in Ha.
        destruct Ha as [[-> | ->] | ->]; vm_compute in Hl';
          injection Hl' as <-.
        + apply list_elem_of_singleton in Hb as ->.
          rewrite !elem_of_union, !elem_of_singleton. by left; right.
        + apply list_elem_of_singleton in Hb as ->.
          rewrite !elem_of_union, !elem_of_singleton. by right.
        + by apply elem_of_nil in Hb.
      - rewrite !elem_of_union, !elem_of_singleton. by left; left.
      - by apply last_Some_elem_of. }
    rewrite !elem_of_union, !elem_of_singleton in Hk.
    destruct Hk as [[-> | ->] | ->]; by eexists.
  - exists r. split; [exact Hr|].
    vm_compute in Hr. injection Hr as <-.
    split; [reflexivity|]. split; [reflexivity|]. split; reflexivity.
Defined.

(** The maze a full generation carves on the 3 by 3 grid when every
    frontier pick is 0 is a spanning tree; with Start (2,0) and End (0,2)
    the solver returns the path between them, four steps long. *)
Lemma solveMaze_tree_distance_witness :
  ∃ st g',
    generateMaze false (blankGrid 3 3)
      (replay (replicate 18 0%nat) [2; 0; 0; 2]%nat) = Returned true st g' ∧
    spanningTree st ∧
    ∃ r, solveMaze st = SolveReturned r ∧ found r = true ∧
         path r = [(2, 0); (2, 1); (1, 1); (0, 1); (0, 2)] ∧
         treeDistance st (2, 0) (0, 2) 4.
Proof.
  eexists _, _. split; [vm_compute; reflexivity|].
  match goal with |- spanningTree ?st ∧ _ =>
    assert (wfMaze st (maze st)) as Hwf
      by (split; [reflexivity|repeat constructor]);
    assert (spanningTree st) as Htree
      by (apply spanningTreeb_sound; [exact Hwf|vm_compute; reflexivity]);
    destruct (solveMaze_tree_distance st (mkPoint 2 0) (mkPoint 0 2))
      as (r & Hr & Hfound & _ & Hdist & _ & _)
  end.
  - exact Hwf.
  - reflexivity.
  - reflexivity.
  - reflexivity.
  - reflexivity.
  - reflexivity.
  - exact Htree.
  - split; [exact Htree|]. exists r. split; [exact Hr|].
    split; [exact Hfound|].
    vm_compute in Hr. injection Hr as <-. split; [reflexivity|exact Hdist].
Defined.

End SolverFacts.

(** ** Choosing Start and End *)

Section SelectionFacts.
Import MazeGrid.
Implicit Types (st : State) (g : Rng) (b : Best).

(** *** [selectNewEndPoint] *)

(** What [selectNewEndPoint] guarantees when it chooses an End: End is at
    least [minDistance] away from Start, or it is a corner of the grid no
    nearer to Start than any other corner. Start stays where it is. *)
Lemma selectNewEndPoint_distance st g st' g' s :
  start st = Some s → selectNewEndPoint st g = EndChosen st' g' →
  start st' = Some s ∧
  ∃ e, end_ st' = Some e ∧
       (minDistance st <=
          getManhattanDistance (row s) (col s) (row e) (col e)
        ∨ ((row e, col e) ∈ corners st ∧
           ∀ k, k ∈ corners st →
                getManhattanDistance (row s) (col s) k.1 k.2 <=
                getManhattanDistance (row s) (col s) (row e) (col e))).
Proof.
  intros Hs. unfold selectNewEndPoint. rewrite Hs.
  destruct (pointHasElement st (end_ st)); cbn [negb]; [|done].
  destruct (sampleEnd selectEndAttempts st s g) as [[e|] g1] eqn:Hsample.
  - destruct (hasCellElement st (row e) (col e)); [|done].
    intros [= <- _]. split; [done|]. exists e. split; [done|]. left.
    by eapply sampleEnd_Some.
  - pose proof (farthestCorner_max st s) as [Hin Hmax].
    destruct (farthestCorner st (Some s)) as [r c].
    destruct (hasCellElement st _ _); [|done].
    intros [= <- _]. split; [done|]. eexists. split; [done|]. by right.
Qed.

(** *** [selectPoints] *)

(** While no sample has won, the best Start is [undefined]. *)
Lemma samplePoints_undefined n st b g :
  0 <= maxManhattanDistance b →
  (maxManhattanDistance b = 0 → bestStart b = None) →
  maxManhattanDistance (samplePoints n st b g).1 = 0 →
  bestStart (samplePoints n st b g).1 = None.
Proof.
  revert b g. induction n as [|n IH]; intros b g Hpos Hnone;
    cbn [samplePoints]; [done|].
  destruct (randomBelow g (rows st)) as [startX g1].
  destruct (randomBelow g1 (cols st)) as [startY g2].
  destruct (randomBelow g2 (rows st)) as [endX g3].
  destruct (randomBelow g3 (cols st)) as [endY g4].
  apply IH.
  - destruct (_ && _); simpl; lia.
  - destruct (_ && (maxManhattanDistance b <? _)) eqn:Hwin; [|done].
    apply andb_true_iff in Hwin as [_ Hlt]. apply Z.ltb_lt in Hlt.
    simpl. lia.
Qed.

(** On a grid of one cell every draw is 0 and no sample ever wins. *)
Lemma samplePoints_one_cell n st b g :
  rows st = 1 → cols st = 1 →
  (samplePoints n st b g).1 = b.
Proof.
  intros Hr Hc. revert g. induction n as [|n IH]; intros g;
    cbn [samplePoints]; [done|].
  unfold randomBelow. rewrite Hr, Hc. cbn [Z.ltb Z.compare].
  rewrite !Z.mod_1_r. cbn [Z.eqb negb orb andb]. apply IH.
Qed.

(** The sampling and the fallback read [rows] and [cols] only. *)
Lemma samplePoints_withPoints n st ps pe b g :
  samplePoints n (withPoints st ps pe) b g = samplePoints n st b g.
Proof.
  revert b g. induction n as [|n IH]; intros b g; cbn [samplePoints]; [done|].
  change (rows (withPoints st ps pe)) with (rows st).
  change (cols (withPoints st ps pe)) with (cols st).
  destruct (randomBelow g (rows st)) as [startX g1].
  destruct (randomBelow g1 (cols st)) as [startY g2].
  destruct (randomBelow g2 (rows st)) as [endX g3].
  destruct (randomBelow g3 (cols st)) as [endY g4].
  apply IH.
Qed.

Lemma choosePoints_withPoints st ps pe g :
  choosePoints (withPoints st ps pe) g = choosePoints st g.
Proof.
  unfold choosePoints. rewrite samplePoints_withPoints.
  destruct (samplePoints selectPointsAttempts st (mkBest 0 None None) g)
    as [b g1].
  reflexivity.
Qed.

(** When every sample ties at distance 0 the fallback measures the corners
    from an [undefined] Start: every distance is [NaN], End becomes the
    first corner and Start stays [undefined], and [selectPoints] throws. *)
Lemma selectPoints_all_tied st g :
  maxManhattanDistance
    (samplePoints selectPointsAttempts st (mkBest 0 None None) g).1 = 0 →
  (choosePoints st g).1 = (None, Some (mkPoint 0 0)) ∧
  selectPoints st g = None.
Proof.
  intros Hzero.
  pose proof (samplePoints_undefined selectPointsAttempts st
                (mkBest 0 None None) g ltac:(done) ltac:(done) Hzero)
    as Hnone.
  assert ((choosePoints st g).1 = (None, Some (mkPoint 0 0))) as Hchoice.
  { unfold choosePoints.
    destruct (samplePoints selectPointsAttempts st (mkBest 0 None None) g)
      as [b g1].
    simpl in Hzero, Hnone. rewrite Hzero, Hnone. done. }
  split; [done|]. unfold selectPoints, clearPoints.
  destruct (_ && _); [|done]. rewrite choosePoints_withPoints.
  by destruct (choosePoints st g) as [[[s|] e] g1].
Qed.

(** C9, at a failing input. On every grid of one cell, whatever
    [Math.random] returns, [selectPoints] leaves the best Start [undefined]
    while the fallback sets End to (0,0), and the call throws a [TypeError]
    instead of producing Start and End. *)
Theorem selectPoints_one_cell_throws (g : Rng) (m : list (list Cell)) :
  let st := mkState 1 1 12 true false false m None None [] in
  (choosePoints st g).1 = (None, Some (mkPoint 0 0)) ∧
  selectPoints st g = None.
Proof.
  intros st. apply selectPoints_all_tied.
  by rewrite samplePoints_one_cell.
Qed.

(** The same defect seen from [generateMaze]: on the grid of one cell the
    frontier is empty at once, [selectPoints] throws inside the promise
    executor and [resolve] is never called. *)
Lemma generateMaze_one_cell_never_settles :
  generateMaze false (blankGrid 1 1) (rngOfList [])
  = NeverSettles [[blankCell]].
Proof. vm_compute. reflexivity. Qed.

(** C4, at a failing input. On the 11 by 11 grid ([minDistance] 12, opposite
    corners 20 apart) with every sample drawing Start (0,0) and End (0,1),
    [selectPoints] keeps the first sample: the best distance is 1, so the
    corner fallback is not taken, and Start and End are one step apart. *)
Theorem selectPoints_below_minDistance :
  let st := blankGrid 11 11 in
  ∃ st' g',
    selectPoints st adjacentRng = Some (st', g') ∧
    start st' = Some (mkPoint 0 0) ∧ end_ st' = Some (mkPoint 0 1) ∧
    maxManhattanDistance
      (samplePoints selectPointsAttempts st (mkBest 0 None None)
                    adjacentRng).1 = 1 ∧
    minDistance st' = 12 ∧
    getManhattanDistance 0 0 0 1 = 1 ∧
    getManhattanDistance 0 0 (rows st - 1) (cols st - 1) = 20.
Proof.
  intros st. eexists _, _. split; [vm_compute; reflexivity|].
  repeat split; vm_compute; reflexivity.
Qed.

End SelectionFacts.

(* ================================================================== *)
(** * Further properties of the code *)
(* ================================================================== *)

(** ** Corridors *)

Section CorridorFacts.
Import MazeGrid.
Implicit Types (m : list (list Cell)) (st : State) (r c : Z)
  (d : Direction) (a b k n : Key).

Lemma passage_iff st a b :
  wfMaze st (maze st) →
  passage st a b ↔
  ∃ cell d, cellAt (maze st) a.1 a.2 = Some cell ∧
            wall (walls cell) d = false ∧
            b = getCellInDirection a.1 a.2 d ∧
            isValidCell st b.1 b.2 = true.
Proof.
  intros Hwf. destruct a as [r c]. unfold passage, getValidNeighbors. simpl.
  destruct (cellAt (maze st) r c) as [cell|] eqn:Hc.
  2:{ split; [by intros (? & ? & ?)|by intros (? & ? & ? & ?)]. }
  pose proof (cellAt_valid _ _ _ _ _ Hwf Hc) as Hv.
  apply isValidCell_spec in Hv.
  split.
  - intros (l & [= <-] & Hin). rewrite !elem_of_app in Hin.
    destruct Hin as [H|[H|[H|H]]];
      match type of H with
      | _ ∈ (if negb ?w && ?t then _ else _) =>
          destruct w eqn:Hw, t eqn:Ht; simpl in H;
          try (by apply elem_of_nil in H);
          apply list_elem_of_singleton in H as ->
      end.
    + exists cell, Top. repeat split; [done..|]. apply isValidCell_spec.
      simpl. lia.
    + exists cell, Right. repeat split; [done..|]. apply isValidCell_spec.
      simpl. lia.
    + exists cell, Bottom. repeat split; [done..|]. apply isValidCell_spec.
      simpl. lia.
    + exists cell, Left. repeat split; [done..|]. apply isValidCell_spec.
      simpl. lia.
  - intros (cell' & d & [= <-] & Hw & -> & Hn).
    apply isValidCell_spec in Hn. eexists. split; [done|].
    rewrite !elem_of_app.
    destruct d; simpl in *; rewrite Hw; simpl.
    + left. rewrite (proj2 (Z.ltb_lt _ _)) by lia.
      by apply list_elem_of_singleton.
    + right; left. rewrite (proj2 (Z.ltb_lt _ _)) by lia.
      by apply list_elem_of_singleton.
    + right; right; left. rewrite (proj2 (Z.ltb_lt _ _)) by lia.
      by apply list_elem_of_singleton.
    + right; right; right. rewrite (proj2 (Z.ltb_lt _ _)) by lia.
      by apply list_elem_of_singleton.
Qed.

Lemma walk_mono st st' l :
  (∀ a b, passage st a b → passage st' a b) → walk st l → walk st' l.
Proof.
  intros Hp. induction 1 as [a|a b l Hab Hw IH]; constructor; auto.
Qed.

Lemma reachable_mono st st' a b :
  (∀ x y, passage st x y → passage st' x y) →
  reachable st a b → reachable st' a b.
Proof.
  intros Hp (l & Hh & Hl & Hw). exists l. repeat split; [done..|].
  by eapply walk_mono.
Qed.

Lemma walk_app st l1 l2 a :
  walk st l1 → last l1 = Some a → walk st (a :: l2) → walk st (l1 ++ l2).
Proof.
  intros Hw. revert a. induction Hw as [x|x y l Hxy Hw IH]; intros a Hl H2.
  - simpl in Hl. by injection Hl as ->.
  - simpl. destruct l2 as [|z l2].
    + rewrite app_nil_r. by constructor.
    + constructor; [done|]. apply (IH a); [|done].
      by rewrite last_cons_cons in Hl.
Qed.

Lemma reachable_trans st a b k :
  reachable st a b → reachable st b k → reachable st a k.
Proof.
  intros (l1 & Hh1 & Hl1 & Hw1) (l2 & Hh2 & Hl2 & Hw2).
  destruct l2 as [|x l2]; [done|]. injection Hh2 as ->.
  exists (l1 ++ l2). repeat split.
  - destruct l1; [done|]. exact Hh1.
  - destruct l2 as [|y l2]; [by rewrite app_nil_r; simplify_eq/=|].
    rewrite last_app_cons. by rewrite last_cons_cons in Hl2.
  - by eapply walk_app.
Qed.

End CorridorFacts.

(** ** What the frontier loop reaches *)

Section CarvingFacts.
Import MazeGrid.
Implicit Types (m : list (list Cell)) (st : State) (r c : Z)
  (d : Direction) (a b k n : Key) (ws : list WallEntry).

(** Induction over the rounds of [carve], the frontier included. *)
Lemma carve_frontier_invariant
    (P : list (list Cell) → list WallEntry → Prop) st :
  (∀ m ws i wr wc d,
     P m ws → ws !! i = Some (wr, wc, d) →
     validNotInMaze st m (getCellInDirection wr wc d).1
                         (getCellInDirection wr wc d).2 = false →
     P m (delete i ws)) →
  (∀ m ws i wr wc d,
     P m ws → ws !! i = Some (wr, wc, d) →
     validNotInMaze st m (getCellInDirection wr wc d).1
                         (getCellInDirection wr wc d).2 = true →
     P (carveStep st m wr wc d)
       (addWalls st (carveStep st m wr wc d)
          (getCellInDirection wr wc d).1 (getCellInDirection wr wc d).2
          (delete i ws))) →
  ∀ fuel m ws g m' g',
    P m ws → carve fuel st m ws g = Some (m', g') → P m' [].
Proof.
  intros Hskip Hstep. induction fuel as [|fuel IH]; intros m ws g m' g' HP Hc.
  - destruct ws; simplify_eq/=. done.
  - destruct ws as [|w ws]; [by simplify_eq/=|].
    cbn [carve] in Hc.
    destruct (randomBelow g (Z.of_nat (length (w :: ws)))) as [idx g1].
    destruct ((w :: ws) !! Z.to_nat idx) as [[[wr wc] d]|] eqn:Hw; [|done].
    specialize (Hskip m _ _ wr wc d HP Hw).
    specialize (Hstep m _ _ wr wc d HP Hw). unfold carveStep in Hstep.
    destruct (getCellInDirection wr wc d) as [nr nc].
    destruct (validNotInMaze st m nr nc) eqn:Hv.
    + eapply IH; [|exact Hc]. by apply Hstep.
    + eapply IH; [|exact Hc]. by apply Hskip.
Qed.

Lemma carved_valid st m k :
  wfMaze st m → carved m k → isValidCell st k.1 k.2 = true.
Proof. intros Hwf (cell & Hc & _). by eapply cellAt_valid. Qed.

(** The cells in the maze after a successful round: those before, and the
    cell the round moved to. *)
Lemma carved_carveStep st m wr wc d k :
  validNotInMaze st m (getCellInDirection wr wc d).1
                      (getCellInDirection wr wc d).2 = true →
  carved (carveStep st m wr wc d) k ↔
  carved m k ∨ k = getCellInDirection wr wc d.
Proof.
  intros Hv. unfold carveStep, carved.
  destruct (getCellInDirection wr wc d) as [nr nc]. simpl in Hv.
  apply validNotInMaze_spec in Hv as (Hval & cell0 & Hc0 & Hin0).
  apply isValidCell_spec in Hval. destruct k as [r c]. simpl.
  rewrite cellAt_alterCell by lia.
  pose proof (cellAt_removeWall_inMaze st m wr wc d r c) as Hrm.
  pose proof (cellAt_removeWall_inMaze st m wr wc d nr nc) as Hrn.
  case_decide as Heq.
  - injection Heq as -> ->. rewrite Hc0 in Hrn.
    destruct (cellAt (removeWall st m wr wc d) nr nc) as [x|]; [|done].
    split; [by right|]. intros _. by exists (setInMaze x).
  - destruct (cellAt (removeWall st m wr wc d) r c) as [x|],
      (cellAt m r c) as [y|]; simplify_eq/=.
    + split.
      * intros (? & [= <-] & ?). left. exists y. split; [done|congruence].
      * intros [(? & [= <-] & ?)|?]; [|done]. exists x. split; [done|congruence].
    + split; [by intros (? & ? & ?)|]. by intros [(? & ? & ?)|?].
Qed.

Lemma validNotInMaze_carveStep st m wr wc d r c :
  validNotInMaze st m (getCellInDirection wr wc d).1
                      (getCellInDirection wr wc d).2 = true →
  validNotInMaze st (carveStep st m wr wc d) r c = true →
  validNotInMaze st m r c = true ∧ (r, c) ≠ getCellInDirection wr wc d.
Proof.
  intros Hv Hv2.
  pose proof (carved_carveStep st m wr wc d (r, c) Hv) as Hcv.
  apply validNotInMaze_spec in Hv2 as (Hval & cell & Hc & Hin).
  assert (¬ carved (carveStep st m wr wc d) (r, c)) as Hnot.
  { intros (cell' & Hc' & Hin'). simpl in Hc'. congruence. }
  split; [|intros Heq; apply Hnot, Hcv; by right].
  unfold validNotInMaze. rewrite Hval. simpl.
  unfold carveStep in Hc. destruct (getCellInDirection wr wc d) as [nr nc].
  simpl in Hv. apply validNotInMaze_spec in Hv as (Hvaln & _).
  apply isValidCell_spec in Hvaln.
  pose proof (cellAt_removeWall_inMaze st m wr wc d r c) as Hrm.
  rewrite cellAt_alterCell in Hc by lia.
  case_decide as Heq.
  - exfalso. apply Hnot, Hcv. by right.
  - rewrite Hc in Hrm. destruct (cellAt m r c) as [y|]; simplify_eq/=.
    by rewrite <- Hrm, Hin.
Qed.


(** A round of the loop never puts a wall back. *)
Lemma carveStep_walls st m wr wc d r c cell :
  isValidCell st wr wc = true →
  isValidCell st (getCellInDirection wr wc d).1
                 (getCellInDirection wr wc d).2 = true →
  cellAt m r c = Some cell →
  ∃ cell', cellAt (carveStep st m wr wc d) r c = Some cell' ∧
           ∀ d', wall (walls cell) d' = false → wall (walls cell') d' = false.
Proof.
  intros Hv Hn Hc. unfold carveStep.
  pose proof (cellAt_removeWall st m wr wc d r c Hv Hn) as Hrm.
  destruct (getCellInDirection wr wc d) as [nr nc] eqn:Hdir. simpl in *.
  pose proof Hn as Hn'. apply isValidCell_spec in Hn'.
  assert (∃ x, cellAt (removeWall st m wr wc d) r c = Some x ∧
               ∀ d', wall (walls cell) d' = false → wall (walls x) d' = false)
    as (x & Hx & Hxw).
  { rewrite Hrm, Hc. repeat case_decide; simpl; eexists; (split; [done|]);
      intros d' Hd'; simpl; try done.
    - destruct (decide (d = d')) as [->|?];
        [apply wall_clearWall_eq|by rewrite wall_clearWall_ne].
    - destruct (decide (opposite d = d')) as [<-|?];
        [apply wall_clearWall_eq|by rewrite wall_clearWall_ne]. }
  clear Hrm. rewrite cellAt_alterCell by lia. case_decide as Heq.
  - injection Heq as -> ->. rewrite Hx. exists (setInMaze x).
    split; [done|]. exact Hxw.
  - eauto.
Qed.

Lemma passage_carveStep st m wr wc d a b :
  wfMaze st m →
  isValidCell st wr wc = true →
  isValidCell st (getCellInDirection wr wc d).1
                 (getCellInDirection wr wc d).2 = true →
  passage (withMaze st m) a b →
  passage (withMaze st (carveStep st m wr wc d)) a b.
Proof.
  intros Hwf Hv Hn Hp.
  apply (passage_iff (withMaze st m)) in Hp as (cell & d' & Hc & Hw & -> & Hb);
    [|done].
  simpl in Hc.
  destruct (carveStep_walls st m wr wc d _ _ _ Hv Hn Hc) as (cell' & Hc' & Hmono).
  apply (passage_iff (withMaze st (carveStep st m wr wc d))).
  { exact (wfMaze_carveStep st m wr wc d Hwf). }
  exists cell', d'. repeat split; [done|by apply Hmono|done].
Qed.

(** A successful round opens the passage it moves through. *)
Lemma passage_carveStep_new st m wr wc d :
  wfMaze st m →
  isValidCell st wr wc = true →
  isValidCell st (getCellInDirection wr wc d).1
                 (getCellInDirection wr wc d).2 = true →
  passage (withMaze st (carveStep st m wr wc d)) (wr, wc)
          (getCellInDirection wr wc d).
Proof.
  intros Hwf Hv Hn.
  apply (passage_iff (withMaze st (carveStep st m wr wc d))).
  { exact (wfMaze_carveStep st m wr wc d Hwf). }
  destruct (wfMaze_cellAt st m wr wc Hwf Hv) as [cell Hc].
  simpl. unfold carveStep.
  pose proof (cellAt_removeWall st m wr wc d wr wc Hv Hn) as Hrm.
  pose proof (getCellInDirection_ne wr wc d) as Hne.
  destruct (getCellInDirection wr wc d) as [nr nc] eqn:Hdir. simpl in *.
  pose proof Hn as Hn'. apply isValidCell_spec in Hn'.
  rewrite decide_True, Hc in Hrm by done.
  exists (setNoWall d cell), d. repeat split; [|apply wall_clearWall_eq|done..].
  rewrite cellAt_alterCell by lia. by rewrite decide_False by congruence.
Qed.


(** The frontier after [addWalls]: the entries it had, then the sides of
    the cell that lead to a cell of the grid not yet in the maze. *)
Lemma elem_of_addWalls st m r c ws (w : WallEntry) :
  w ∈ addWalls st m r c ws ↔
  w ∈ ws ∨
  ∃ d, w = (r, c, d) ∧
       validNotInMaze st m (getCellInDirection r c d).1
                           (getCellInDirection r c d).2 = true.
Proof.
  unfold addWalls. rewrite elem_of_app, list_elem_of_omap.
  split; (intros [?|H]; [by left|right]).
  - destruct H as (d & _ & Hd). exists d.
    destruct (getCellInDirection r c d) as [nr nc]. simpl.
    destruct (validNotInMaze st m nr nc); by simplify_eq.
  - destruct H as (d & -> & Hd). exists d. split.
    + destruct d; unfold directions; set_solver.
    + destruct (getCellInDirection r c d) as [nr nc]. simpl in Hd.
      by rewrite Hd.
Qed.

Lemma elem_of_delete_ne {A} (l : list A) i x y :
  x ∈ l → l !! i = Some y → x ≠ y → x ∈ delete i l.
Proof.
  intros Hx Hi Hne. rewrite (delete_Permutation l i y Hi) in Hx.
  by apply elem_of_cons in Hx as [?|?].
Qed.

(** The rounds of [carve] keep [frontierInv]. *)
Lemma carve_frontierInv st seed fuel m ws g m' g' :
  isValidCell st seed.1 seed.2 = true →
  frontierInv st seed m ws →
  carve fuel st m ws g = Some (m', g') →
  frontierInv st seed m' [].
Proof.
  intros Hseed.
  apply (carve_frontier_invariant (frontierInv st seed)).
  - (* the entry leads nowhere new *)
    clear m ws. intros m ws i wr wc d (Hwf & Hfr & Hor & Hre) Hi Hv.
    split; [done|]. split; [|split; [|done]].
    + intros a d' Ha Hv'. eapply elem_of_delete_ne; [by apply Hfr|done|].
      intros [= <- <- <-]. destruct a. simpl in *. congruence.
    + intros w Hw. apply Hor. by eapply list_elem_of_delete_inv.
  - (* the entry leads to a new cell *)
    clear m ws. intros m ws i wr wc d (Hwf & Hfr & Hor & Hre) Hi Hv.
    pose proof (carved_carveStep st m wr wc d) as Hcv.
    pose proof (validNotInMaze_carveStep st m wr wc d) as Hvn.
    assert (isValidCell st wr wc = true) as Horigin.
    { destruct (Hor (wr, wc, d)) as [Hc|Hc].
      - by eapply list_elem_of_lookup_2.
      - exact (carved_valid st m (wr, wc) Hwf Hc).
      - simpl in Hc. by subst seed. }
    assert (reachable (withMaze st m) seed (wr, wc)) as Hro.
    { destruct (Hor (wr, wc, d)) as [Hc|Hc].
      - by eapply list_elem_of_lookup_2.
      - by apply Hre.
      - simpl in Hc. subst seed. apply reachable_refl. }
    pose proof (validNotInMaze_spec _ _ _ _ Hv) as (Hn & _).
    pose proof (passage_carveStep st m wr wc d) as Hmono.
    pose proof (passage_carveStep_new st m wr wc d Hwf Horigin Hn) as Hnew.
    split; [by apply wfMaze_carveStep|]. split; [|split].
    + intros a d' Ha Hv'. apply elem_of_addWalls.
      destruct (decide (a = getCellInDirection wr wc d)) as [->|Hne].
      * right. by exists d'.
      * left. apply Hvn in Hv' as [Hv' Hne']; [|done].
        eapply elem_of_delete_ne; [apply Hfr; [|done]|done|].
        -- destruct Ha as [Ha|Ha]; [|by right].
           apply Hcv in Ha as [?|?]; [by left|done..].
        -- intros [= <- <- <-]. apply Hne'.
           by destruct (getCellInDirection a.1 a.2 d').
    + intros w [Hw|(d' & -> & _)]%elem_of_addWalls.
      * apply list_elem_of_delete_inv in Hw.
        destruct (Hor w Hw) as [?|?]; [left|by right].
        apply Hcv; [done|by left].
      * left. simpl. apply Hcv; [done|]. right.
        by destruct (getCellInDirection wr wc d).
    + intros k Hk. apply Hcv in Hk as [Hk| ->]; [| |done].
      * eapply reachable_mono; [|by apply Hre]. intros x y. by apply Hmono.
      * eapply reachable_step; [|exact Hnew].
        eapply reachable_mono; [|exact Hro]. intros x y. by apply Hmono.
Qed.


(** The grid is connected: a set of cells that holds one cell of the grid
    and, with a cell, its neighbours in the grid, holds every cell. *)
Lemma grid_connected st (P : Key → Prop) (s : Key) :
  isValidCell st s.1 s.2 = true → P s →
  (∀ a d, P a →
          isValidCell st (getCellInDirection a.1 a.2 d).1
                         (getCellInDirection a.1 a.2 d).2 = true →
          P (getCellInDirection a.1 a.2 d)) →
  ∀ k, isValidCell st k.1 k.2 = true → P k.
Proof.
  intros Hs HPs Hclosed k.
  remember (Z.to_nat (getManhattanDistance k.1 k.2 s.1 s.2)) as dist eqn:Hd.
  revert k Hd. induction dist as [|dist IH]; intros [r c] Hd Hk;
    destruct s as [sr sc]; unfold getManhattanDistance in Hd; simpl in *.
  - by replace (r, c) with (sr, sc) by (f_equal; lia).
  - apply isValidCell_spec in Hk, Hs.
    assert (∀ r' c' d, getCellInDirection r' c' d = (r, c) →
              dist = Z.to_nat (Z.abs (r' - sr) + Z.abs (c' - sc)) →
              0 <= r' < rows st ∧ 0 <= c' < cols st → P (r, c)) as Hvia.
    { intros r' c' d Hdir Hdist Hv'.
      specialize (Hclosed (r', c') d). simpl in Hclosed. rewrite Hdir in Hclosed.
      apply Hclosed.
      - apply IH; [done|]. by apply isValidCell_spec.
      - by apply isValidCell_spec. }
    destruct (Z.lt_trichotomy r sr) as [?|[->|?]].
    + apply (Hvia (r + 1) c Top); [simpl; f_equal; lia|lia..].
    + destruct (Z.lt_trichotomy c sc) as [?|[->|?]].
      * apply (Hvia sr (c + 1) Left); [simpl; f_equal; lia|lia..].
      * lia.
      * apply (Hvia sr (c - 1) Right); [simpl; f_equal; lia|lia..].
    + apply (Hvia (r - 1) c Bottom); [simpl; f_equal; lia|lia..].
Qed.

(** When the frontier is empty every cell of the grid is in the maze and
    is reached from the seed. *)
Lemma frontierInv_complete st seed m :
  isValidCell st seed.1 seed.2 = true →
  frontierInv st seed m [] →
  (carved m seed ∨
   ∃ d, isValidCell st (getCellInDirection seed.1 seed.2 d).1
                       (getCellInDirection seed.1 seed.2 d).2 = true) →
  ∀ k, isValidCell st k.1 k.2 = true →
       carved m k ∧ reachable (withMaze st m) seed k.
Proof.
  intros Hseed (Hwf & Hfr & _ & Hre) Hs.
  assert (∀ a d, carved m a ∨ a = seed →
            isValidCell st (getCellInDirection a.1 a.2 d).1
                           (getCellInDirection a.1 a.2 d).2 = true →
            carved m (getCellInDirection a.1 a.2 d)) as Hclosed.
  { intros a d Ha Hv. specialize (Hfr a d Ha).
    destruct (wfMaze_cellAt st m _ _ Hwf Hv) as [cell Hc].
    exists cell. split; [done|]. destruct (inMaze cell) eqn:Hin; [done|].
    exfalso. eapply not_elem_of_nil, Hfr.
    unfold validNotInMaze. by rewrite Hv, Hc, Hin. }
  assert (carved m seed) as Hcs.
  { destruct Hs as [?|[d Hv]]; [done|].
    pose proof (Hclosed seed d (or_intror eq_refl) Hv) as Hn.
    pose proof (getCellInDirection_opposite seed.1 seed.2 d) as Hopp.
    specialize (Hclosed (getCellInDirection seed.1 seed.2 d) (opposite d)
                  (or_introl Hn)).
    destruct (getCellInDirection seed.1 seed.2 d) as [nr nc]. simpl in *.
    rewrite Hopp in Hclosed. simpl in Hclosed. destruct seed. by apply Hclosed. }
  intros k Hk.
  assert (carved m k) as Hck.
  { apply (grid_connected st (carved m) seed); [done..| |done].
    intros a d Ha. apply Hclosed. by left. }
  split; [done|]. by apply Hre.
Qed.


(** *** The whole call, with [isGenerating] set *)

(** A full generation: the reset grid is carved from the seed, then
    [selectPoints] runs. *)
Lemma generateMaze_full_run st g :
  isSolving st = false → isGenerating st = true →
  let m0 := resetMaze false st in
  let seed := (seedCell false st g).1 in
  let ws := addWalls st m0 seed.1 seed.2 [] in
  ∃ m1 g2,
    carve (carveFuel m0 ws) st m0 ws (seedCell false st g).2 = Some (m1, g2) ∧
    generateMaze false st g =
      match selectPoints (withMaze st m1) g2 with
      | Some (st1, g3) => Returned true st1 g3
      | None => NeverSettles m1
      end.
Proof.
  intros Hsol Hgen m0 seed ws. subst m0 seed ws.
  unfold generateMaze. rewrite Hsol, Hgen.
  change (prepareMaze false st) with (Some (resetMaze false st)).
  pose proof selectPoints_Some as HselP. revert HselP.
  generalize selectPoints. intros selP HselP.
  destruct (seedCell false st g) as [[sr sc] g1]. simpl.
  set (m0 := resetMaze false st). set (ws := addWalls st m0 sr sc []).
  destruct (carve_terminates st (carveFuel m0 ws) m0 ws g1)
    as [[m1 g2] Hcarve]; [done|].
  exists m1, g2. split; [done|]. rewrite Hcarve.
  destruct (selP (withMaze st m1) g2) as [[st1 g3]|] eqn:Hsel; [|done].
  destruct (HselP _ _ _ _ Hsel) as (s & e & ->). reflexivity.
Qed.

(** A partial regeneration from a Start in the grid, the old End [null] or
    a cell of the grid: the reset grid, with Start in the maze, is carved
    from Start, then [selectNewEndPoint] chooses an End in the grid. *)
Lemma generateMaze_partial_run st g p :
  wfMaze st (maze st) →
  isSolving st = false → isGenerating st = true →
  start st = Some p → isValidCell st (row p) (col p) = true →
  pointHasElement st (end_ st) = true →
  let m0 := alterCell setInMaze (row p) (col p) (resetMaze true st) in
  let ws := addWalls st m0 (row p) (col p) [] in
  ∃ m1 g2 e g3,
    carve (carveFuel m0 ws) st m0 ws g = Some (m1, g2) ∧
    isValidCell st (row e) (col e) = true ∧
    generateMaze true st g =
      Returned true (withPoints (withMaze st m1) (Some p) (Some e)) g3.
Proof.
  intros Hwf Hsol Hgen Hs Hv Hend m0 ws.
  destruct (carve_terminates st (carveFuel m0 ws) m0 ws g)
    as [[m1 g2] Hcarve]; [done|].
  assert (wfMaze st m1) as Hwf1.
  { eapply carve_wfMaze; [|exact Hcarve].
    by apply wfMaze_alterCell, wfMaze_resetMaze. }
  pose proof (selectNewEndPoint_wf (withMaze st m1) g2 p Hwf1 Hs Hv) as Hsel.
  rewrite (pointHasElement_valid (withMaze st m1) _ Hwf1) in Hsel.
  rewrite (pointHasElement_valid st _ Hwf) in Hend.
  change (end_ (withMaze st m1)) with (end_ st) in Hsel.
  change (isValidCell (withMaze st m1)) with (isValidCell st) in Hsel.
  rewrite Hend in Hsel. destruct Hsel as (e & g3 & Hsel & He).
  exists m1, g2, e, g3. split; [done|]. split; [done|].
  unfold generateMaze, prepareMaze, seedCell. rewrite Hsol, Hgen, Hs, Hv.
  revert Hsel. generalize selectNewEndPoint selectPoints.
  intros selE selP Hsel.
  fold m0. fold ws. rewrite Hcarve. cbn [negb].
  change (start (withMaze st m1)) with (start st). by rewrite Hs, Hsel.
Qed.

(** The seed of a full generation is an inner cell of the grid. *)
Lemma seedCell_full_valid st g :
  3 <= rows st → 3 <= cols st →
  let seed := (seedCell false st g).1 in
  isValidCell st seed.1 seed.2 = true ∧
  isValidCell st (getCellInDirection seed.1 seed.2 Top).1
                 (getCellInDirection seed.1 seed.2 Top).2 = true.
Proof.
  intros Hr Hc. unfold seedCell.
  pose proof (randomBelow_range g ((rows st - 1) / 2)) as H1.
  destruct (randomBelow g ((rows st - 1) / 2)) as [r g1].
  pose proof (randomBelow_range g1 ((cols st - 1) / 2)) as H2.
  destruct (randomBelow g1 ((cols st - 1) / 2)) as [c g2]. simpl in *.
  rewrite !isValidCell_spec. lia.
Qed.

Lemma cellAt_resetMaze_full st r c cell :
  cellAt (resetMaze false st) r c = Some cell → cell = blankCell.
Proof.
  intros Hc. destruct (cellAt_Some_nonneg _ _ _ _ Hc).
  rewrite cellAt_resetMaze in Hc by done. simpl in Hc.
  destruct (cellAt (maze st) r c); by simplify_eq/=.
Qed.

Lemma frontierInv_full st seed :
  wfMaze st (maze st) →
  let m0 := resetMaze false st in
  frontierInv st seed m0 (addWalls st m0 seed.1 seed.2 []).
Proof.
  intros Hwf m0.
  assert (∀ k, ¬ carved m0 k) as Hnone.
  { intros k (cell & Hc & Hin). apply cellAt_resetMaze_full in Hc.
    by subst cell. }
  split; [by apply wfMaze_resetMaze|]. split; [|split].
  - intros a d [Ha| ->] Hv; [by apply Hnone in Ha|].
    apply elem_of_addWalls. right. by exists d.
  - intros w [Hw|(d & -> & _)]%elem_of_addWalls; [by apply elem_of_nil in Hw|].
    right. by destruct seed.
  - intros k Hk. by apply Hnone in Hk.
Qed.

Lemma frontierInv_partial st p :
  wfMaze st (maze st) → start st = Some p →
  isValidCell st (row p) (col p) = true →
  let m0 := alterCell setInMaze (row p) (col p) (resetMaze true st) in
  frontierInv st (row p, col p) m0 (addWalls st m0 (row p) (col p) []) ∧
  carved m0 (row p, col p).
Proof.
  intros Hwf Hs Hv m0.
  destruct (prepareMaze_keepStart st p Hwf Hs Hv)
    as (m0' & startCell & Hprep & Hblank & Hcell & Hcell0).
  assert (m0' = m0) as ->.
  { unfold prepareMaze in Hprep. rewrite Hs, Hv in Hprep.
    by injection Hprep as <-. }
  assert (wfMaze st m0) as Hwf0.
  { by apply wfMaze_alterCell, wfMaze_resetMaze. }
  assert (∀ k, carved m0 k → k = (row p, col p)) as Hone.
  { intros [r c] (cell & Hc & Hin). simpl in Hc.
    destruct (decide ((r, c) = (row p, col p))) as [?|Hne]; [done|].
    rewrite (Hblank r c) in Hc; [by simplify_eq|by eapply cellAt_valid|done]. }
  split; [|by eexists].
  split; [done|]. split; [|split].
  - intros a d Ha Hv'. apply elem_of_addWalls. right. exists d.
    assert (a = (row p, col p)) as -> by (destruct Ha; auto). done.
  - intros w [Hw|(d & -> & _)]%elem_of_addWalls; [by apply elem_of_nil in Hw|].
    by right.
  - intros k ->%Hone. apply reachable_refl.
Qed.


(** *** Corridors of a grid with symmetric walls *)

Lemma passage_sym st m a b :
  wfMaze st m → wallSymmetric m →
  passage (withMaze st m) a b → passage (withMaze st m) b a.
Proof.
  intros Hwf Hsym Hp.
  pose proof (passage_valid (withMaze st m) a b Hwf Hp) as [Ha Hb].
  apply (passage_iff (withMaze st m)) in Hp as (cell & d & Hc & Hw & -> & _);
    [|done].
  apply (passage_iff (withMaze st m)); [done|]. simpl in *.
  pose proof (Hsym a.1 a.2 d) as Hag. unfold wallAgrees in Hag.
  pose proof (getCellInDirection_opposite a.1 a.2 d) as Hopp.
  destruct (getCellInDirection a.1 a.2 d) as [nr nc]. simpl in *.
  destruct (wfMaze_cellAt st m nr nc Hwf Hb) as [cellb Hcb].
  exists cellb, (opposite d). rewrite Hopp. simpl.
  repeat split; [done| |by destruct a|done].
  by rewrite <- (Hag cell cellb).
Qed.

Lemma walk_reverse st l :
  (∀ a b, passage st a b → passage st b a) → walk st l → walk st (reverse l).
Proof.
  intros Hsym. induction 1 as [a|a b l Hab Hw IH]; [constructor|].
  rewrite reverse_cons. eapply walk_snoc; [exact IH| |by apply Hsym].
  by rewrite last_reverse.
Qed.

Lemma reachable_sym st a b :
  (∀ x y, passage st x y → passage st y x) →
  reachable st a b → reachable st b a.
Proof.
  intros Hsym (l & Hh & Hl & Hw). exists (reverse l).
  rewrite head_reverse, last_reverse. repeat split; [done..|].
  by apply walk_reverse.
Qed.

End CarvingFacts.

(** ** The points [selectPoints] chooses *)

Section PointFacts.
Import MazeGrid.
Implicit Types (st : State) (g : Rng) (b : Best).

Lemma samplePoints_bestOk n st b g :
  1 <= rows st → 1 <= cols st →
  bestOk st b → bestOk st (samplePoints n st b g).1.
Proof.
  intros Hr Hc. revert b g. induction n as [|n IH]; intros b g Hb;
    cbn [samplePoints]; [done|].
  pose proof (randomBelow_range g (rows st)) as H1.
  destruct (randomBelow g (rows st)) as [startX g1].
  pose proof (randomBelow_range g1 (cols st)) as H2.
  destruct (randomBelow g1 (cols st)) as [startY g2].
  pose proof (randomBelow_range g2 (rows st)) as H3.
  destruct (randomBelow g2 (rows st)) as [endX g3].
  pose proof (randomBelow_range g3 (cols st)) as H4.
  destruct (randomBelow g3 (cols st)) as [endY g4].
  simpl in *. apply IH.
  destruct (_ && (maxManhattanDistance b <? _)) eqn:Hwin; [|done].
  apply andb_true_iff in Hwin as [_ Hlt]. apply Z.ltb_lt in Hlt.
  right. simpl. split.
  - destruct Hb as [(? & _)|(? & _)]; lia.
  - exists (mkPoint startX startY), (mkPoint endX endY). simpl.
    rewrite !isValidCell_spec. unfold getManhattanDistance.
    repeat split; lia.
Qed.

Lemma selectPoints_bestOk st g st' g' :
  1 <= rows st → 1 <= cols st →
  selectPoints st g = Some (st', g') →
  ∃ s e, st' = withPoints st (Some s) (Some e) ∧
         isValidCell st (row s) (col s) = true ∧
         isValidCell st (row e) (col e) = true ∧
         0 < getManhattanDistance (row s) (col s) (row e) (col e).
Proof.
  intros Hr Hc. unfold selectPoints, clearPoints.
  destruct (_ && _); [|done]. rewrite choosePoints_withPoints.
  unfold choosePoints.
  pose proof (samplePoints_bestOk selectPointsAttempts st
                (mkBest 0 None None) g Hr Hc
                (or_introl (conj eq_refl (conj eq_refl eq_refl)))) as Hb.
  destruct (samplePoints selectPointsAttempts st (mkBest 0 None None) g)
    as [b g1].
  simpl in Hb.
  destruct Hb as [(Hz & Hs & He)|(Hpos & s & e & Hs & He & Hvs & Hve & Hd)].
  - rewrite Hz, Hs. simpl. done.
  - rewrite (proj2 (Z.eqb_neq _ _)) by lia. rewrite Hs, He.
    destruct (_ && _); [|done].
    intros [= <- _]. exists s, e. repeat split; [done..|lia].
Qed.

End PointFacts.

(** ** Generated mazes are connected *)

Section ConnectedMazeFacts.
Import MazeGrid.
Implicit Types (m : list (list Cell)) (st : State) (g : Rng) (a b k : Key).

Lemma carve_full_wallSymmetric st fuel ws g m1 g2 :
  carve fuel st (resetMaze false st) ws g = Some (m1, g2) → wallSymmetric m1.
Proof.
  intros Hc r c d. eapply carve_wallAgrees; [|exact Hc].
  apply wallAgrees_blank; intros x Hx;
    by rewrite (cellAt_resetMaze_full _ _ _ _ Hx).
Qed.

(** The grid a full generation carves: the walls are symmetric, and every
    cell is in the maze and reached from every cell. *)
Lemma generateMaze_full_connected st g :
  wfGrid st → 3 <= rows st → 3 <= cols st →
  isSolving st = false → isGenerating st = true →
  ∃ m1 g2,
    generateMaze false st g =
      match selectPoints (withMaze st m1) g2 with
      | Some (st1, g3) => Returned true st1 g3
      | None => NeverSettles m1
      end ∧
    wfMaze st m1 ∧ wallSymmetric m1 ∧
    ∀ a b, isValidCell st a.1 a.2 = true → isValidCell st b.1 b.2 = true →
           carved m1 a ∧ reachable (withMaze st m1) a b.
Proof.
  intros (_ & _ & _ & _ & Hwf) Hr Hc Hsol Hgen.
  destruct (generateMaze_full_run st g Hsol Hgen) as (m1 & g2 & Hcarve & Hrun).
  destruct (seedCell_full_valid st g Hr Hc) as [Hseed Hnb].
  set (seed := (seedCell false st g).1) in *.
  pose proof (frontierInv_full st seed Hwf) as Hinv. cbv zeta in Hinv.
  pose proof (carve_frontierInv st seed _ _ _ _ _ _ Hseed Hinv Hcarve) as Hend.
  pose proof (frontierInv_complete st seed m1 Hseed Hend
                (or_intror (ex_intro _ Top Hnb))) as Hall.
  pose proof (carve_full_wallSymmetric _ _ _ _ _ _ Hcarve) as Hsym.
  assert (wfMaze st m1) as Hwf1 by (by destruct Hend).
  exists m1, g2. do 3 (split; [done|]). intros a b Ha Hb.
  split; [by apply Hall|].
  eapply reachable_trans; [|by apply Hall].
  apply reachable_sym; [|by apply Hall].
  intros x y. by apply passage_sym.
Qed.

(** The grid a partial regeneration carves from a Start in the grid: every
    cell is in the maze and reached from Start, and End is in the grid. *)
Lemma generateMaze_partial_connected st g p :
  wfMaze st (maze st) → isSolving st = false → isGenerating st = true →
  start st = Some p → isValidCell st (row p) (col p) = true →
  pointHasElement st (end_ st) = true →
  ∃ m1 e g3,
    generateMaze true st g =
      Returned true (withPoints (withMaze st m1) (Some p) (Some e)) g3 ∧
    wfMaze st m1 ∧ isValidCell st (row e) (col e) = true ∧
    ∀ k, isValidCell st k.1 k.2 = true →
         carved m1 k ∧ reachable (withMaze st m1) (row p, col p) k.
Proof.
  intros Hwf Hsol Hgen Hs Hv Hold.
  destruct (generateMaze_partial_run st g p Hwf Hsol Hgen Hs Hv Hold)
    as (m1 & g2 & e & g3 & Hcarve & He & Hrun).
  destruct (frontierInv_partial st p Hwf Hs Hv) as [Hinv Hstart].
  cbv zeta in Hinv, Hstart.
  pose proof (carve_frontierInv st (row p, col p) _ _ _ _ _ _ Hv Hinv Hcarve)
    as Hend.
  assert (carved m1 (row p, col p)) as Hstart1.
  { by eapply (carve_inMaze st _ _ _ _ _ _ (row p) (col p)). }
  pose proof (frontierInv_complete st (row p, col p) m1 Hv Hend
                (or_introl Hstart1)) as Hall.
  assert (wfMaze st m1) as Hwf1 by (by destruct Hend).
  exists m1, e, g3. split; [done|]. split; [done|]. split; [exact He|].
  exact Hall.
Qed.


(** X1. A full generation with [isGenerating] set, on a grid of odd sizes
    of at least 3 by 3, leaves a grid in which every cell is in the maze
    and every cell is reached from every cell through the corridors,
    whatever the random numbers are. *)
Theorem full_generation_connects_grid (st : State) (g : Rng) :
  wfGrid st → 3 <= rows st → 3 <= cols st →
  isSolving st = false → isGenerating st = true →
  ∃ m, outcomeMaze (generateMaze false st g) = Some m ∧
       wfMaze st m ∧
       ∀ a b, isValidCell st a.1 a.2 = true → isValidCell st b.1 b.2 = true →
              carved m a ∧ reachable (withMaze st m) a b.
Proof.
  intros Hgrid Hr Hc Hsol Hgen.
  destruct (generateMaze_full_connected st g Hgrid Hr Hc Hsol Hgen)
    as (m1 & g2 & Hrun & Hwf1 & _ & Hall).
  exists m1. split; [|by split]. rewrite Hrun.
  pose proof (selectPoints_Some (withMaze st m1) g2) as Hsome.
  destruct (selectPoints (withMaze st m1) g2) as [[st1 g3]|]; [|reflexivity].
  destruct (Hsome st1 g3 eq_refl) as (s & e & ->). reflexivity.
Qed.

Lemma full_generation_connects_grid_witness :
  ∃ m, outcomeMaze (generateMaze false (blankGrid 3 3) (rngOfList []))
         = Some m ∧
       wfMaze (blankGrid 3 3) m ∧
       ∀ a b, isValidCell (blankGrid 3 3) a.1 a.2 = true →
              isValidCell (blankGrid 3 3) b.1 b.2 = true →
              carved m a ∧ reachable (withMaze (blankGrid 3 3) m) a b.
Proof.
  apply (full_generation_connects_grid (blankGrid 3 3) (rngOfList [])).
  - repeat split; try reflexivity; try (simpl; lia). repeat constructor.
  - simpl; lia.
  - simpl; lia.
  - reflexivity.
  - reflexivity.
Defined.


(** X2. The maze of a full generation can always be solved: when
    [generateMaze()] returns (grid of odd sizes of at least 3 by 3,
    [isGenerating] set), it returns [true], Start and End are two different
    cells of the grid, and [solveMaze] then returns [true] with a path from
    Start to End that goes through corridors only and visits no cell
    twice. *)
Theorem full_generation_is_solved
    (st : State) (g : Rng) (res : bool) (st' : State) (g' : Rng) :
  wfGrid st → 3 <= rows st → 3 <= cols st →
  isSolving st = false → isGenerating st = true → solving st = false →
  generateMaze false st g = Returned res st' g' →
  res = true ∧
  ∃ s e r, start st' = Some s ∧ end_ st' = Some e ∧
           (row s, col s) ≠ (row e, col e) ∧
           solveMaze st' = SolveReturned r ∧ found r = true ∧
           simplePath st' (row s, col s) (row e, col e) (path r).
Proof.
  intros Hgrid Hr Hc Hsol Hgen Hsolving Hret.
  destruct (generateMaze_full_connected st g Hgrid Hr Hc Hsol Hgen)
    as (m1 & g2 & Hrun & Hwf1 & _ & Hall).
  rewrite Hrun in Hret. clear Hrun.
  pose proof (selectPoints_bestOk (withMaze st m1) g2) as Hsel.
  destruct (selectPoints (withMaze st m1) g2) as [[st1 g3]|];
    [|discriminate Hret].
  injection Hret as <- <- <-. split; [reflexivity|].
  destruct (Hsel st1 g3) as (s & e & -> & Hs & He & Hd);
    [simpl; lia|simpl; lia|reflexivity|]. clear Hsel.
  destruct (solveMaze_finds_path
              (withPoints (withMaze st m1) (Some s) (Some e)) s e)
    as (r & Hsolve & Hfound & Hpath).
  - exact Hwf1.
  - exact Hsolving.
  - reflexivity.
  - reflexivity.
  - exact Hs.
  - exact He.
  - eapply reachable_mono; [|by apply (Hall (row s, col s) (row e, col e))].
    intros x y Hp. exact Hp.
  - exists s, e, r. split; [reflexivity|]. split; [reflexivity|].
    split; [|by split].
    intros [= Hrow Hcol]. unfold getManhattanDistance in Hd. lia.
Qed.


Lemma full_generation_is_solved_witness :
  ∃ st' g',
    generateMaze false (blankGrid 3 3)
      (replay (replicate 18 0%nat) [2; 0; 0; 2]%nat) = Returned true st' g' ∧
    ∃ r, solveMaze st' = SolveReturned r ∧ found r = true.
Proof.
  assert (∃ st' g',
            generateMaze false (blankGrid 3 3)
              (replay (replicate 18 0%nat) [2; 0; 0; 2]%nat)
            = Returned true st' g') as (st' & g' & Hgen).
  { eexists _, _. vm_compute. reflexivity. }
  exists st', g'. split; [exact Hgen|].
  destruct (full_generation_is_solved (blankGrid 3 3)
              (replay (replicate 18 0%nat) [2; 0; 0; 2]%nat) true st' g')
    with (7 := Hgen) as (_ & s & e & r & _ & _ & _ & Hsolve & Hfound & _).
  - repeat split; try reflexivity; try (simpl; lia). repeat constructor.
  - simpl; lia.
  - simpl; lia.
  - reflexivity.
  - reflexivity.
  - reflexivity.
  - exists r. split; [exact Hsolve|exact Hfound].
Defined.


(** X3. A partial regeneration ([generateMaze(true)] with [isGenerating]
    set) from a Start in the grid, the old End [null] or a cell of the
    grid, returns [true], keeps Start, chooses an End in the grid, and
    leaves every cell of the grid in the maze and reached from Start
    through the corridors. *)
Theorem partial_regeneration_connects_grid
    (st : State) (g : Rng) (p : Point) :
  wfMaze st (maze st) → isSolving st = false → isGenerating st = true →
  start st = Some p → isValidCell st (row p) (col p) = true →
  pointHasElement st (end_ st) = true →
  ∃ st2 g3 e,
    generateMaze true st g = Returned true st2 g3 ∧
    start st2 = Some p ∧ end_ st2 = Some e ∧
    isValidCell st (row e) (col e) = true ∧
    ∀ k, isValidCell st k.1 k.2 = true →
         carved (maze st2) k ∧ reachable st2 (row p, col p) k.
Proof.
  intros Hwf Hsol Hgen Hs Hv Hold.
  destruct (generateMaze_partial_connected st g p Hwf Hsol Hgen Hs Hv Hold)
    as (m1 & e & g3 & Hrun & Hwf1 & He & Hall).
  exists (withPoints (withMaze st m1) (Some p) (Some e)), g3, e.
  split; [exact Hrun|]. split; [reflexivity|]. split; [reflexivity|].
  split; [exact He|]. intros k Hk. split; [by apply Hall|].
  eapply reachable_mono; [|by apply Hall]. intros x y Hp. exact Hp.
Qed.

Lemma partial_regeneration_connects_grid_witness :
  ∃ st2 g3 e,
    generateMaze true
      (withPoints (blankGrid 3 3) (Some (mkPoint 0 2)) (Some (mkPoint 0 2)))
      (rngOfList []) = Returned true st2 g3 ∧
    start st2 = Some (mkPoint 0 2) ∧ end_ st2 = Some e.
Proof.
  destruct (partial_regeneration_connects_grid
              (withPoints (blankGrid 3 3) (Some (mkPoint 0 2))
                          (Some (mkPoint 0 2)))
              (rngOfList []) (mkPoint 0 2))
    as (st2 & g3 & e & Hgen & Hstart & Hend & _).
  - split; [reflexivity|repeat constructor].
  - reflexivity.
  - reflexivity.
  - reflexivity.
  - reflexivity.
  - reflexivity.
  - exists st2, g3, e. split; [exact Hgen|]. split; [exact Hstart|exact Hend].
Defined.

(** X4. The maze of a partial regeneration can always be solved: after
    [generateMaze(true)] from a Start in the grid ([isGenerating] set, the
    old End [null] or a cell of the grid), [solveMaze] returns [true] with
    a path from Start to the new End that goes through corridors only and
    visits no cell twice. *)
Theorem partial_regeneration_is_solved (st : State) (g : Rng) (p : Point) :
  wfMaze st (maze st) → isSolving st = false → isGenerating st = true →
  solving st = false →
  start st = Some p → isValidCell st (row p) (col p) = true →
  pointHasElement st (end_ st) = true →
  ∃ st2 g3 e r,
    generateMaze true st g = Returned true st2 g3 ∧
    start st2 = Some p ∧ end_ st2 = Some e ∧
    solveMaze st2 = SolveReturned r ∧ found r = true ∧
    simplePath st2 (row p, col p) (row e, col e) (path r).
Proof.
  intros Hwf Hsol Hgen Hsolving Hs Hv Hold.
  destruct (generateMaze_partial_connected st g p Hwf Hsol Hgen Hs Hv Hold)
    as (m1 & e & g3 & Hrun & Hwf1 & He & Hall).
  destruct (solveMaze_finds_path
              (withPoints (withMaze st m1) (Some p) (Some e)) p e)
    as (r & Hsolve & Hfound & Hpath).
  - exact Hwf1.
  - exact Hsolving.
  - reflexivity.
  - reflexivity.
  - exact Hv.
  - exact He.
  - eapply reachable_mono; [|by apply (Hall (row e, col e))].
    intros x y Hp. exact Hp.
  - exists (withPoints (withMaze st m1) (Some p) (Some e)), g3, e, r.
    split; [exact Hrun|]. split; [reflexivity|]. split; [reflexivity|].
    split; [exact Hsolve|]. split; [exact Hfound|exact Hpath].
Qed.

Lemma partial_regeneration_is_solved_witness :
  ∃ st2 g3 r,
    generateMaze true
      (withPoints (blankGrid 3 3) (Some (mkPoint 0 2)) (Some (mkPoint 0 2)))
      (rngOfList []) = Returned true st2 g3 ∧
    solveMaze st2 = SolveReturned r ∧ found r = true.
Proof.
  destruct (partial_regeneration_is_solved
              (withPoints (blankGrid 3 3) (Some (mkPoint 0 2))
                          (Some (mkPoint 0 2)))
              (rngOfList []) (mkPoint 0 2))
    as (st2 & g3 & e & r & Hgen & _ & _ & Hsolve & Hfound & _).
  - split; [reflexivity|repeat constructor].
  - reflexivity.
  - reflexivity.
  - reflexivity.
  - reflexivity.
  - reflexivity.
  - reflexivity.
  - exists st2, g3, r. split; [exact Hgen|]. split; [exact Hsolve|exact Hfound].
Defined.

End ConnectedMazeFacts.

(** ** The solver on any maze *)

Section SolverMoreFacts.
Import MazeGrid.
Implicit Types (st : State) (a b k n : Key).

(** X5. On a grid with Start in it, [solveMaze] returns [true] exactly when
    corridors lead from Start to End, whatever the maze looks like (cycles,
    closed rooms, one-sided walls); the path it then reconstructs goes from
    Start to End through corridors only and visits no cell twice, and when
    it returns [false] there is no path. *)
Theorem solveMaze_found_iff_reachable (st : State) (ps pe : Point) :
  wfMaze st (maze st) → solving st = false →
  start st = Some ps → end_ st = Some pe →
  isValidCell st (row ps) (col ps) = true →
  ∃ r, solveMaze st = SolveReturned r ∧
       (found r = true ↔ reachable st (row ps, col ps) (row pe, col pe)) ∧
       (found r = true →
        simplePath st (row ps, col ps) (row pe, col pe) (path r)) ∧
       (found r = false → path r = []).
Proof.
  intros Hwf Hsolving Hs He Hvs. unfold solveMaze.
  rewrite Hsolving, Hs, He.
  assert (∀ k, reachable st (row ps, col ps) k →
               is_Some (cellAt (maze st) k.1 k.2)) as Hcells.
  { intros k Hk. apply (wfMaze_cellAt st _ _ _ Hwf).
    by apply (reachable_valid st (row ps, col ps) k). }
  destruct (solveLoop_spec st pe (row ps, col ps) Hcells
              (Z.to_nat (rows st * cols st)) _ 0%nat
              (loopInv_initial st pe (row ps, col ps) Hcells))
    as (r & Hr & Hpath & Hfound).
  simpl in Hr. rewrite Hr. exists r. split; [done|].
  destruct (solveLoop_dequeues _ _ _ _ _ _ Hr) as (_ & _ & Hnone).
  split; [|by split]. split.
  - intros Hf. destruct (Hpath Hf) as (Hh & Hl & Hw & _). by exists (path r).
  - intros Hreach. apply Hfound; [done..| |lia].
    by apply (reachable_valid st (row ps, col ps) (row pe, col pe)).
Qed.

Lemma solveMaze_found_iff_reachable_witness :
  let st := withPoints (blankGrid 3 3) (Some (mkPoint 1 1))
                       (Some (mkPoint 0 0)) in
  ∃ r, solveMaze st = SolveReturned r ∧ found r = false ∧
       ¬ reachable st (1, 1) (0, 0).
Proof.
  intros st.
  destruct (solveMaze_found_iff_reachable st (mkPoint 1 1) (mkPoint 0 0))
    as (r & Hr & Hiff & _).
  - split; [reflexivity|repeat constructor].
  - reflexivity.
  - reflexivity.
  - reflexivity.
  - reflexivity.
  - exists r. split; [exact Hr|].
    vm_compute in Hr. injection Hr as <-.
    split; [reflexivity|]. intros Hreach. apply Hiff in Hreach.
    discriminate Hreach.
Defined.

Lemma passage_adjacent st a b :
  passage st a b → ∃ d, b = getCellInDirection a.1 a.2 d.
Proof.
  intros (l & Hl & Hb). unfold getValidNeighbors in Hl.
  destruct (cellAt (maze st) a.1 a.2) as [cell|]; [|done].
  injection Hl as <-. rewrite !elem_of_app in Hb.
  destruct Hb as [H|[H|[H|H]]];
    match type of H with
    | _ ∈ (if ?t then _ else _) =>
        destruct t; [apply list_elem_of_singleton in H as ->
                    |by apply elem_of_nil in H]
    end.
  - by exists Top.
  - by exists Right.
  - by exists Bottom.
  - by exists Left.
Qed.

Lemma heuristic_step e r c d :
  heuristic e r c <=
  1 + heuristic e (getCellInDirection r c d).1 (getCellInDirection r c d).2.
Proof. unfold heuristic, getManhattanDistance. destruct d; simpl; lia. Qed.

(** X6. The heuristic of the solver is the Manhattan distance to End. It
    is 0 at End and nowhere negative, it drops by at most 1 along a
    corridor (consistency), and it never exceeds the number of steps of a
    walk through the corridors to End (admissibility). *)
Theorem heuristic_consistent_admissible (st : State) (e : Point) :
  heuristic e (row e) (col e) = 0 ∧
  (∀ r c, 0 <= heuristic e r c) ∧
  (∀ a b, passage st a b →
          heuristic e a.1 a.2 <= 1 + heuristic e b.1 b.2) ∧
  (∀ l a, walk st l → head l = Some a → last l = Some (row e, col e) →
          heuristic e a.1 a.2 <= Z.of_nat (length l) - 1).
Proof.
  assert (∀ a b, passage st a b →
                 heuristic e a.1 a.2 <= 1 + heuristic e b.1 b.2) as Hstep.
  { intros a b [d ->]%passage_adjacent. apply heuristic_step. }
  split; [unfold heuristic, getManhattanDistance; lia|].
  split; [intros; unfold heuristic, getManhattanDistance; lia|].
  split; [done|].
  intros l a Hw. revert a.
  induction Hw as [x|x y l Hxy Hw IH]; intros a Hh Hl;
    simpl in Hh; injection Hh as ->.
  - simpl in Hl. injection Hl as ->. simpl.
    unfold heuristic, getManhattanDistance. lia.
  - rewrite last_cons_cons in Hl. specialize (IH y eq_refl Hl).
    specialize (Hstep a y Hxy). simpl length in *. lia.
Qed.

Lemma heuristic_consistent_admissible_witness :
  let st := withMaze (blankGrid 3 3)
              (removeWall (blankGrid 3 3) (maze (blankGrid 3 3)) 1 1 Right) in
  heuristic (mkPoint 1 2) 1 1 <= Z.of_nat (length [(1, 1); (1, 2)]) - 1.
Proof.
  intros st.
  destruct (heuristic_consistent_admissible st (mkPoint 1 2))
    as (_ & _ & _ & Hadm).
  apply (Hadm [(1, 1); (1, 2)] (1, 1)).
  - apply walk_cons; [|apply walk_one].
    exists [(1, 2)]. split; [vm_compute; reflexivity|]. by apply list_elem_of_singleton.
  - reflexivity.
  - reflexivity.
Defined.

End SolverMoreFacts.

(** ** Walls and neighbours *)

Section WallFacts.
Import MazeGrid.
Implicit Types (m : list (list Cell)) (st : State) (r c : Z)
  (d : Direction) (a b k n : Key).

(** X7. For a cell of the grid, [getValidNeighbors] returns, without
    repetition, exactly the cells of the grid next to it on a side whose
    wall flag of the cell itself is [false]; the flags of the neighbour
    are not read. *)
Theorem getValidNeighbors_spec (st : State) (r c : Z) :
  wfMaze st (maze st) → isValidCell st r c = true →
  ∃ cell l,
    cellAt (maze st) r c = Some cell ∧
    getValidNeighbors st r c = Some l ∧ NoDup l ∧
    ∀ n, n ∈ l ↔
         ∃ d, wall (walls cell) d = false ∧ n = getCellInDirection r c d ∧
              isValidCell st n.1 n.2 = true.
Proof.
  intros Hwf Hv. destruct (wfMaze_cellAt st _ r c Hwf Hv) as [cell Hc].
  destruct (getValidNeighbors st r c) as [l|] eqn:Hl.
  2:{ unfold getValidNeighbors in Hl. by rewrite Hc in Hl. }
  exists cell, l. split; [done|]. split; [done|]. split.
  - unfold getValidNeighbors in Hl. rewrite Hc in Hl. injection Hl as <-.
    repeat match goal with |- context [if ?t then _ else _] => destruct t end;
      simpl;
      repeat (apply NoDup_cons; split;
              [rewrite ?elem_of_cons, elem_of_nil;
               intros Hin; repeat destruct Hin as [Hin|Hin]; try done;
               injection Hin; lia|]);
      apply NoDup_nil_2.
  - intros n.
    pose proof (passage_iff st (r, c) n Hwf) as Hiff. simpl in Hiff.
    unfold passage in Hiff. simpl in Hiff. rewrite Hl, Hc in Hiff.
    split.
    + intros Hn. destruct (proj1 Hiff) as (cell' & d & [= <-] & ? & ? & ?);
        [by eexists|]. by exists d.
    + intros (d & Hw & Hn & Hvn).
      destruct (proj2 Hiff) as (l' & [= <-] & Hin); [|done].
      by exists cell, d.
Qed.

Lemma getValidNeighbors_spec_witness :
  ∃ cell l,
    cellAt (maze (blankGrid 3 3)) 1 1 = Some cell ∧
    getValidNeighbors (blankGrid 3 3) 1 1 = Some l ∧ NoDup l ∧
    ∀ n, n ∈ l ↔
         ∃ d, wall (walls cell) d = false ∧ n = getCellInDirection 1 1 d ∧
              isValidCell (blankGrid 3 3) n.1 n.2 = true.
Proof.
  apply (getValidNeighbors_spec (blankGrid 3 3) 1 1).
  - split; [reflexivity|repeat constructor].
  - reflexivity.
Defined.


(** X8. [removeWall] between two cells of the grid clears the two flags of
    their shared wall and nothing else: every other wall flag and the
    [visited] and [inMaze] flags of every cell stay as they are. The solver
    can then step between the two cells in both directions. *)
Theorem removeWall_spec (st : State) (m : list (list Cell)) (r c : Z)
    (d : Direction) :
  wfMaze st m → isValidCell st r c = true →
  isValidCell st (getCellInDirection r c d).1
                 (getCellInDirection r c d).2 = true →
  let n := getCellInDirection r c d in
  let m' := removeWall st m r c d in
  wfMaze st m' ∧
  (∀ r' c' cell,
     cellAt m r' c' = Some cell →
     ∃ cell', cellAt m' r' c' = Some cell' ∧
              visited cell' = visited cell ∧ inMaze cell' = inMaze cell ∧
              ∀ d', wall (walls cell') d' =
                    wall (walls cell) d' &&
                    negb (bool_decide (((r', c') = (r, c) ∧ d' = d) ∨
                                       ((r', c') = n ∧ d' = opposite d)))) ∧
  passage (withMaze st m') (r, c) n ∧ passage (withMaze st m') n (r, c).
Proof.
  intros Hwf Hv Hn n m'. subst n m'.
  pose proof (wfMaze_removeWall st m r c d Hwf) as Hwf'.
  pose proof (cellAt_removeWall st m r c d) as Hcell.
  pose proof (getCellInDirection_ne r c d) as Hne.
  pose proof (getCellInDirection_opposite r c d) as Hopp.
  destruct (getCellInDirection r c d) as [nr nc] eqn:Hdir. simpl in Hn.
  split; [done|]. split; [|split].
  - intros r' c' cell Hc. rewrite (Hcell r' c' Hv Hn), Hc.
    destruct (decide ((r', c') = (r, c))) as [Heq|Hne1].
    + eexists. split; [done|]. split; [done|]. split; [done|].
      intros d'. simpl. destruct (decide (d' = d)) as [->|Hd].
      * rewrite wall_clearWall_eq, bool_decide_eq_true_2 by (by left).
        by rewrite andb_false_r.
      * rewrite wall_clearWall_ne by done.
        rewrite bool_decide_eq_false_2; [by rewrite andb_true_r|].
        intros [[_ ?]|[? _]]; [done|]. congruence.
    + destruct (decide ((r', c') = (nr, nc))) as [Heq|Hne2].
      * eexists. split; [done|]. split; [done|]. split; [done|].
        intros d'. simpl. destruct (decide (d' = opposite d)) as [->|Hd].
        -- rewrite wall_clearWall_eq, bool_decide_eq_true_2 by (by right).
           by rewrite andb_false_r.
        -- rewrite wall_clearWall_ne by done.
           rewrite bool_decide_eq_false_2; [by rewrite andb_true_r|].
           intros [[? _]|[_ ?]]; done.
      * exists cell. split; [done|]. split; [done|]. split; [done|].
        intros d'. rewrite bool_decide_eq_false_2; [by rewrite andb_true_r|].
        intros [[? _]|[? _]]; done.
  - destruct (wfMaze_cellAt st m r c Hwf Hv) as [cell Hc].
    apply (passage_iff (withMaze st (removeWall st m r c d))); [done|].
    exists (setNoWall d cell), d. simpl. rewrite Hdir.
    split; [|split; [apply wall_clearWall_eq|by split]].
    by rewrite (Hcell r c Hv Hn), decide_True, Hc.
  - destruct (wfMaze_cellAt st m nr nc Hwf Hn) as [cell Hc].
    apply (passage_iff (withMaze st (removeWall st m r c d))); [done|].
    exists (setNoWall (opposite d) cell), (opposite d). simpl. rewrite Hopp.
    split; [|split; [apply wall_clearWall_eq|by split]].
    rewrite (Hcell nr nc Hv Hn), decide_False, decide_True, Hc by done. done.
Qed.

Lemma removeWall_spec_witness :
  let st := blankGrid 3 3 in
  let m' := removeWall st (maze st) 1 1 Right in
  passage (withMaze st m') (1, 1) (1, 2) ∧
  passage (withMaze st m') (1, 2) (1, 1).
Proof.
  intros st m'.
  destruct (removeWall_spec st (maze st) 1 1 Right) as (_ & _ & H1 & H2).
  - split; [reflexivity|repeat constructor].
  - reflexivity.
  - reflexivity.
  - split; [exact H1|exact H2].
Defined.

End WallFacts.

(** ** The points chosen *)

Section PointMoreFacts.
Import MazeGrid.
Implicit Types (st : State) (g : Rng).

(** X9. When [selectPoints] returns (no [TypeError]) on a grid with at
    least one cell, Start and End are two different cells of the grid; the
    maze, the sizes and the flags are untouched. *)
Theorem selectPoints_distinct_cells (st st' : State) (g g' : Rng) :
  1 <= rows st → 1 <= cols st →
  selectPoints st g = Some (st', g') →
  ∃ s e, st' = withPoints st (Some s) (Some e) ∧
         isValidCell st (row s) (col s) = true ∧
         isValidCell st (row e) (col e) = true ∧
         (row s, col s) ≠ (row e, col e).
Proof.
  intros Hr Hc Hsel.
  destruct (selectPoints_bestOk st g st' g' Hr Hc Hsel)
    as (s & e & -> & Hs & He & Hd).
  exists s, e. do 3 (split; [done|]).
  intros [= Hrow Hcol]. unfold getManhattanDistance in Hd. lia.
Qed.

Lemma selectPoints_distinct_cells_witness :
  ∃ st' g' s e,
    selectPoints (blankGrid 11 11) adjacentRng = Some (st', g') ∧
    st' = withPoints (blankGrid 11 11) (Some s) (Some e) ∧
    (row s, col s) ≠ (row e, col e).
Proof.
  assert (∃ st' g', selectPoints (blankGrid 11 11) adjacentRng
                    = Some (st', g')) as (st' & g' & Hsel).
  { eexists _, _. vm_compute. reflexivity. }
  destruct (selectPoints_distinct_cells (blankGrid 11 11) st' adjacentRng g')
    as (s & e & Hst & _ & _ & Hne).
  - simpl; lia.
  - simpl; lia.
  - exact Hsel.
  - exists st', g', s, e. split; [exact Hsel|]. split; [exact Hst|exact Hne].
Defined.

(** X10. On a grid with Start in it and the old End [null] or a cell of
    the grid, [selectNewEndPoint] does not throw: it keeps Start and
    chooses as End a cell of the grid that is at least [minDistance] away
    from Start or, failing that after its 100 samples, a corner of the grid
    no nearer to Start than any other corner. When [minDistance] is at
    least 1 and the grid has more than one cell, End differs from Start. *)
Theorem selectNewEndPoint_chooses (st : State) (g : Rng) (s : Point) :
  wfMaze st (maze st) → start st = Some s →
  isValidCell st (row s) (col s) = true →
  pointHasElement st (end_ st) = true →
  ∃ e g',
    selectNewEndPoint st g = EndChosen (withPoints st (Some s) (Some e)) g' ∧
    isValidCell st (row e) (col e) = true ∧
    (minDistance st <= getManhattanDistance (row s) (col s) (row e) (col e)
     ∨ ((row e, col e) ∈ corners st ∧
        ∀ k, k ∈ corners st →
             getManhattanDistance (row s) (col s) k.1 k.2 <=
             getManhattanDistance (row s) (col s) (row e) (col e))) ∧
    (1 <= minDistance st → 1 < rows st ∨ 1 < cols st →
     (row e, col e) ≠ (row s, col s)).
Proof.
  intros Hwf Hs Hv Hold.
  pose proof (selectNewEndPoint_wf st g s Hwf Hs Hv) as Hsel.
  rewrite Hold in Hsel. destruct Hsel as (e & g' & Hsel & He).
  destruct (selectNewEndPoint_distance st g _ g' s Hs Hsel)
    as (_ & e' & [= <-] & Hdist).
  exists e, g'. do 3 (split; [done|]).
  intros Hmin Hsize [= Hrow Hcol].
  apply isValidCell_spec in Hv.
  destruct Hdist as [Hfar|[_ Hmax]].
  - unfold getManhattanDistance in Hfar. lia.
  - rewrite Hrow, Hcol in Hmax.
    pose proof (Hmax (0, 0)) as H1.
    pose proof (Hmax (rows st - 1, cols st - 1)) as H2.
    unfold corners, getManhattanDistance in H1, H2. simpl in H1, H2.
    rewrite !elem_of_cons in H1, H2.
    specialize (H1 ltac:(tauto)). specialize (H2 ltac:(tauto)). lia.
Qed.

Lemma selectNewEndPoint_chooses_witness :
  let st := withPoints (blankGrid 11 11) (Some (mkPoint 0 0)) None in
  ∃ e g',
    selectNewEndPoint st (rngOfList [])
      = EndChosen (withPoints st (Some (mkPoint 0 0)) (Some e)) g' ∧
    (row e, col e) ≠ (0, 0).
Proof.
  intros st.
  destruct (selectNewEndPoint_chooses st (rngOfList []) (mkPoint 0 0))
    as (e & g' & Hsel & _ & _ & Hne).
  - split; [reflexivity|repeat constructor].
  - reflexivity.
  - reflexivity.
  - reflexivity.
  - exists e, g'. split; [exact Hsel|]. apply Hne; simpl; lia.
Defined.

End PointMoreFacts.

(** ** The queue seen from its client *)

Section QueueMoreFacts.
Import PriorityQueue.
Context {V : Type} `{EqDecision V}.
Implicit Types (vs es : list (Entry V)).

Lemma run_heapOrdered (ops : list (Op V)) : heapOrdered (run ops).
Proof. apply foldl_apply_heapOrdered, heapOrdered_nil. Qed.

Lemma dequeueAll_sorted n vs :
  heapOrdered vs → (length vs ≤ n)%nat →
  ∃ es, es ≡ₚ vs ∧ dequeueAll n vs = map val es ∧
        ∀ i j a b, (i ≤ j)%nat → es !! i = Some a → es !! j = Some b →
                   priority a <= priority b.
Proof.
  revert vs. induction n as [|n IH]; intros vs Hheap Hlen.
  - destruct vs; [|simpl in Hlen; lia]. exists []. by repeat split.
  - destruct vs as [|m vs].
    { exists []. by repeat split. }
    destruct (dequeue_cons m vs) as (vs' & Hdeq & Hperm & Hheap').
    cbn [dequeueAll]. rewrite Hdeq.
    destruct (IH vs') as (es & Hes & Hall & Hsorted).
    { by apply Hheap'. }
    { rewrite Hperm. simpl in Hlen. lia. }
    exists (m :: es). split; [by rewrite Hes, Hperm|].
    split; [by rewrite Hall|].
    assert (∀ x, x ∈ es → priority m <= priority x) as Hmin.
    { intros x Hx. rewrite Hes, Hperm in Hx.
      apply list_elem_of_lookup in Hx as [i Hi].
      by apply (heapOrdered_root (m :: vs) m Hheap eq_refl (S i) x). }
    intros [|i] [|j] a b Hij Ha Hb; simplify_eq/=.
    + lia.
    + apply Hmin. by eapply list_elem_of_lookup_2.
    + lia.
    + apply (Hsorted i j); [lia|done..].
Qed.

(** X11. Dequeuing until the queue is empty returns the stored values in
    order of priority: the values returned are those of the stored entries,
    each once, from a smallest priority to a largest. *)
Theorem dequeue_in_priority_order (ops : list (Op V)) :
  ∃ es, es ≡ₚ run ops ∧
        dequeueAll (length (run ops)) (run ops) = map val es ∧
        ∀ i j a b, (i ≤ j)%nat → es !! i = Some a → es !! j = Some b →
                   priority a <= priority b.
Proof. apply dequeueAll_sorted; [apply run_heapOrdered|done]. Qed.

Lemma contains_elem_of (v : V) vs : contains v vs = true ↔ v ∈ map val vs.
Proof.
  unfold contains. rewrite existsb_exists.
  change (map val vs) with (val <$> vs). rewrite list_elem_of_fmap. split.
  - intros (x & Hx & Heq). apply bool_decide_eq_true in Heq.
    exists x. split; [done|]. by apply list_elem_of_In.
  - intros (x & -> & Hx). exists x. split; [by apply list_elem_of_In|].
    by apply bool_decide_eq_true.
Qed.

(** X12. [contains] tells whether a value is stored: on the empty queue it
    is [false]; after [enqueue(w, p)] it holds of [w] and of what it held
    of before; and what it holds of before a [dequeue] is the value
    returned or still held after. [isEmpty] is [false] after an
    [enqueue]. *)
Theorem contains_tracks_stored (v w : V) (p : Z) (vs : list (Entry V)) :
  contains v [] = false ∧
  isEmpty (enqueue w p vs) = false ∧
  (contains v (enqueue w p vs) = true ↔ v = w ∨ contains v vs = true) ∧
  (contains v vs = true ↔
   (dequeue vs).1 = Some v ∨ contains v (dequeue vs).2 = true).
Proof.
  split; [done|]. split; [|split].
  - unfold isEmpty. rewrite (Permutation_length (enqueue_Permutation w p vs)).
    done.
  - rewrite !contains_elem_of.
    rewrite (Permutation_map val (enqueue_Permutation w p vs)). simpl.
    by rewrite elem_of_cons.
  - destruct vs as [|m vs].
    { rewrite dequeue_nil. simpl. split; [done|]. by intros [?|?]. }
    destruct (dequeue_cons m vs) as (vs' & Hdeq & Hperm & _).
    rewrite Hdeq. cbn [fst snd]. rewrite !contains_elem_of.
    rewrite (Permutation_map val Hperm). simpl. rewrite elem_of_cons.
    split.
    + intros [->|Hin]; [by left|by right].
    + intros [[= ->]|Hin]; [by left|by right].
Qed.

End QueueMoreFacts.

(** ** Setting up *)

Section SetupFacts.
Import MazeGrid.

(** X13. For every difficulty from 1 to 10 the cell size lies between 20
    and 56 pixels and [minDistance] between 10 and 25, as the comments of
    the constructor say; both ends are reached, and the difficulty 5 of the
    constructor gives cells of 40 pixels and [minDistance] 12. *)
Theorem constructor_parameter_ranges :
  (∀ d, 1 <= d <= 10 →
        20 <= cellSizeOf d <= 56 ∧ 10 <= minDistanceOf d <= 25) ∧
  cellSizeOf 1 = 56 ∧ cellSizeOf 10 = 20 ∧
  minDistanceOf 1 = 10 ∧ minDistanceOf 10 = 25 ∧
  cellSizeOf 5 = 40 ∧ minDistanceOf 5 = 12.
Proof.
  split; [|by repeat split].
  intros d Hd. unfold cellSizeOf, minDistanceOf.
  pose proof (Z.div_le_mono 5 (d * 5) 2 ltac:(lia) ltac:(lia)).
  pose proof (Z.div_le_mono (d * 5) 50 2 ltac:(lia) ltac:(lia)).
  change (5 / 2) with 2 in *. change (50 / 2) with 25 in *. lia.
Qed.

Lemma constructor_parameter_ranges_witness :
  20 <= cellSizeOf 5 <= 56 ∧ 10 <= minDistanceOf 5 <= 25.
Proof.
  destruct constructor_parameter_ranges as [Hrange _]. apply (Hrange 5). lia.
Defined.

Lemma oddCells_spec px cellSize :
  0 < cellSize → (inject_Z cellSize <= px)%Q →
  1 <= oddCells px cellSize ∧ Z.odd (oddCells px cellSize) = true ∧
  (inject_Z (oddCells px cellSize * cellSize) <= px)%Q.
Proof.
  intros Hpos Hpx. unfold oddCells.
  set (n := Qfloor (px / inject_Z cellSize)).
  assert (0 < inject_Z cellSize)%Q as HposQ.
  { change 0%Q with (inject_Z 0). by rewrite <- Zlt_Qlt. }
  assert (1 <= n) as Hn.
  { change 1 with (Qfloor 1). apply Qfloor_resp_le.
    apply Qle_shift_div_l; [done|]. by rewrite Qmult_1_l. }
  assert (inject_Z (n * cellSize) <= px)%Q as Hfit.
  { rewrite inject_Z_mult.
    apply Qle_trans with (px / inject_Z cellSize * inject_Z cellSize)%Q.
    - apply Qmult_le_compat_r; [apply Qfloor_le|by apply Qlt_le_weak].
    - rewrite Qmult_comm, Qmult_div_r; [apply Qle_refl|].
      intros Heq. rewrite Heq in HposQ. by apply Qlt_irrefl in HposQ. }
  destruct (Z.rem n 2 =? 0) eqn:Hrem.
  - apply Z.eqb_eq in Hrem.
    assert (Z.even n = true) as Heven.
    { rewrite Z.even_spec. exists (n ÷ 2).
      pose proof (Z.quot_rem' n 2). lia. }
    split; [|split].
    + destruct (decide (n = 1)) as [->|]; [done|lia].
    + by rewrite Z.sub_1_r, Z.odd_pred.
    + apply Qle_trans with (inject_Z (n * cellSize)); [|done].
      rewrite <- Zle_Qle. nia.
  - apply Z.eqb_neq in Hrem. split; [done|]. split; [|done].
    rewrite <- Z.negb_even. apply negb_true_iff.
    destruct (Z.even n) eqn:Heven; [|done].
    apply Z.even_spec in Heven as [k ->]. exfalso. apply Hrem.
    by rewrite Z.mul_comm, Z.rem_mul.
Qed.

(** X14. When the container holds at least one cell each way,
    [initializeGrid] leaves a grid of odd sizes with at least one cell,
    whose cells fit into the container, and [this.maze] has exactly
    [rows] rows of [cols] blank cells: the grid is well formed, the flags
    [isGenerating] and [isSolving] are down. *)
Theorem initializeGrid_well_formed
    (cellSize : Z) (gridWidth gridHeight : Q) (st : State) :
  0 < cellSize →
  (inject_Z cellSize <= gridWidth)%Q → (inject_Z cellSize <= gridHeight)%Q →
  let st' := initializeGrid cellSize gridWidth gridHeight st in
  wfGrid st' ∧
  (inject_Z (cols st' * cellSize) <= gridWidth)%Q ∧
  (inject_Z (rows st' * cellSize) <= gridHeight)%Q ∧
  (∀ r c, isValidCell st' r c = true →
          cellAt (maze st') r c = Some blankCell) ∧
  isGenerating st' = false ∧ isSolving st' = false.
Proof.
  intros Hpos Hw Hh st'.
  destruct (oddCells_spec gridWidth cellSize Hpos Hw) as (Hc1 & Hcodd & Hcfit).
  destruct (oddCells_spec gridHeight cellSize Hpos Hh) as (Hr1 & Hrodd & Hrfit).
  assert (wfMaze st' (maze st')) as Hwf.
  { split; [apply length_replicate|].
    apply Forall_replicate, length_replicate. }
  split.
  { split; [exact Hr1|]. split; [exact Hc1|]. split; [exact Hrodd|].
    split; [exact Hcodd|exact Hwf]. }
  split; [exact Hcfit|]. split; [exact Hrfit|].
  split; [|done]. intros r c Hv.
  destruct (wfMaze_cellAt st' _ r c Hwf Hv) as [cell Hcell].
  rewrite Hcell. f_equal.
  destruct (cellAt_Some_nonneg _ _ _ _ Hcell).
  rewrite cellAt_nonneg in Hcell by done. simpl in Hcell.
  destruct (replicate _ _ !! Z.to_nat r) as [cells|] eqn:Hrow; [|done].
  apply lookup_replicate in Hrow as [-> _]. simpl in Hcell.
  by apply lookup_replicate in Hcell as [-> _].
Qed.

Lemma initializeGrid_well_formed_witness :
  let st' := initializeGrid 40 (inject_Z 450) (inject_Z 300)
               (blankGrid 1 1) in
  wfGrid st' ∧ rows st' = 7 ∧ cols st' = 11.
Proof.
  intros st'.
  destruct (initializeGrid_well_formed 40 (inject_Z 450) (inject_Z 300)
              (blankGrid 1 1)) as (Hwf & _).
  - lia.
  - vm_compute. discriminate.
  - vm_compute. discriminate.
  - split; [exact Hwf|]. split; reflexivity.
Defined.

End SetupFacts.

(** ** One lap of the loop *)

Section LapFacts.
Import MazeGrid.
Implicit Types (st : State) (g : Rng).



End LapFacts.
